(** * pdf_to_text: chapter ranges from PDF outlines

    A shallow embedding of the core of [pdf_to_text.py]: the Roman numeral
    decoder and the chapter-title classifier, the outline walker with its
    identity-keyed visited set, the chapter selector, the range builder and
    the selection parser, followed by the properties proved about them.

    Python integers are unbounded and are modelled by [Z].  Text is modelled
    by [string], read as ASCII text: the character classes of the regular
    expressions and of [int()] / [str.strip()] are the ASCII ones. *)

From Stdlib Require Import ZArith List Sorted Permutation String Ascii Lia Bool.
From Stdlib Require Import DecimalString.
From stdpp Require Import base list gmap.

Local Open Scope Z_scope.

(** ** Data model *)

(** [ChapterRange]: inclusive, 1-based page range. *)
Record ChapterRange := mkChapterRange {
  range_title : string;
  start_page : Z;
  end_page : Z
}.

(** [OutlineEntry]: bookmark title, 0-based page index and nesting depth.
    The dataclass does not check its annotations, so the type of the
    [page_index] field is a parameter of the record: [OutlineEntry] is an
    entry as annotated ([page_index: int]); [StoredEntry] is an entry as
    [collect_outline_entries] builds it, whose [page_index] is whatever the
    page resolver returned, an [int] or [None]. *)
Record OutlineEntryOf (page : Type) := mkOutlineEntry {
  title : string;
  page_index : page;
  depth : Z
}.
Arguments mkOutlineEntry {page} title page_index depth.
Arguments title {page} _.
Arguments page_index {page} _.
Arguments depth {page} _.

Abbreviation OutlineEntry := (OutlineEntryOf Z).
Abbreviation StoredEntry := (OutlineEntryOf (option Z)).

(** ** [sorted(..., key=...)] and [list.sort(key=...)]

    Python's sort is stable.  The stable sort by an integer key is modelled by
    insertion from the right; [sorted_by_unique] below shows that the three
    properties "permutation, ordered by key, stable" determine the result, so
    the choice of algorithm is immaterial. *)

Section StableSort.
Context {A : Type} (key : A -> Z).

Fixpoint insert_by (x : A) (l : list A) : list A :=
  match l with
  | [] => [x]
  | y :: l' => if key x <=? key y then x :: l else y :: insert_by x l'
  end.

Fixpoint sorted_by (l : list A) : list A :=
  match l with
  | [] => []
  | x :: l' => insert_by x (sorted_by l')
  end.

(** Ordered by key, every element against every later one. *)
Definition ordered_by (l : list A) : Prop :=
  StronglySorted (fun a b => key a <= key b) l.

(** The elements carrying key [k], in their order of appearance. *)
Definition with_key (k : Z) (l : list A) : list A :=
  List.filter (fun a => key a =? k) l.
End StableSort.

(** ** Range builder *)

Definition build_chapter_ranges (entries : list OutlineEntry) (total_pages : Z)
  : list ChapterRange :=
  match entries with
  | [] => []
  | _ :: _ =>
      let entries := sorted_by page_index entries in
      imap (fun (idx : nat) (entry : OutlineEntry) =>
              let start_index := page_index entry in
              let end_index :=
                if bool_decide (idx + 1 < length entries)%nat
                then page_index (nth (idx + 1) entries entry) - 1
                else total_pages - 1 in
              mkChapterRange (title entry) (start_index + 1) (end_index + 1))
           entries
  end.

(** Pages of an inclusive range. *)
Definition in_range (p : Z) (r : ChapterRange) : Prop :=
  start_page r <= p <= end_page r.

Definition entry_at (p : Z) : OutlineEntry := mkOutlineEntry EmptyString p 0.

(** ** ASCII text helpers *)

Definition text := list ascii.

Definition code (c : ascii) : N := N_of_ascii c.

Definition in_span (lo hi c : ascii) : bool :=
  ((code lo <=? code c) && (code c <=? code hi))%N.

(** [str.isspace] on ASCII: TAB..CR, FS..US and the space. *)
Definition isspace (c : ascii) : bool :=
  (((9 <=? code c) && (code c <=? 13)) || ((28 <=? code c) && (code c <=? 32)))%N.

Definition isdigit (c : ascii) : bool := in_span "0" "9" c.
Definition isupper (c : ascii) : bool := in_span "A" "Z" c.
Definition islower (c : ascii) : bool := in_span "a" "z" c.

(** [\w] on ASCII. *)
Definition isword (c : ascii) : bool :=
  isdigit c || isupper c || islower c || Ascii.eqb c "_".

Definition lower_char (c : ascii) : ascii :=
  if isupper c then ascii_of_N (code c + 32) else c.
Definition upper_char (c : ascii) : ascii :=
  if islower c then ascii_of_N (code c - 32) else c.

(** [str.lower()] *)
Definition lower (s : text) : text := map lower_char s.

Fixpoint lstrip (s : text) : text :=
  match s with
  | c :: s' => if isspace c then lstrip s' else s
  | [] => []
  end.

(** [str.strip()] *)
Definition strip (s : text) : text := rev (lstrip (rev (lstrip s))).

(** ** Roman numerals *)

Definition roman_map (c : ascii) : option Z :=
  match c with
  | "i" => Some 1
  | "v" => Some 5
  | "x" => Some 10
  | "l" => Some 50
  | "c" => Some 100
  | "d" => Some 500
  | "m" => Some 1000
  | _ => None
  end%char.

(** One iteration of the loop of [roman_to_int] on the pair (total, prev). *)
Definition roman_step (st : Z * Z) (char : ascii) : option (Z * Z) :=
  let '(total, prev) := st in
  match roman_map char with
  | Some current =>
      if current <? prev then Some (total - current, prev)
      else Some (total + current, current)
  | None => None                       (* KeyError *)
  end.

Fixpoint roman_loop (st : Z * Z) (chars : text) : option (Z * Z) :=
  match chars with
  | [] => Some st
  | char :: chars' =>
      match roman_step st char with
      | Some st' => roman_loop st' chars'
      | None => None
      end
  end.

(** [roman_to_int]: [None] is Python's [None] (a [KeyError] was caught). *)
Definition roman_to_int (value : text) : option Z :=
  match roman_loop (0, 0) (rev (lower value)) with
  | Some (total, _) => Some total
  | None => None
  end.

(** ** Regular expressions

    The fragment of Python's [re] that the three chapter patterns use, with
    its backtracking semantics: greedy repetition of a character class,
    ordered alternation, greedy option, one capture group, [^] and [\b],
    under [re.IGNORECASE]. *)

Inductive class_item :=
| CChar (c : ascii)                (* a literal member *)
| CRange (lo hi : ascii)           (* lo-hi *)
| CSpace.                          (* \s *)

Inductive regex :=
| Lit (c : ascii)                  (* a literal character *)
| Class (cl : list class_item)     (* [...] *)
| Seq (r1 r2 : regex)
| Alt (r1 r2 : regex)              (* r1|r2, r1 tried first *)
| Opt (r : regex)                  (* r?, greedy *)
| Star (cl : list class_item)      (* [...]*, greedy *)
| Group (r : regex)                (* (r), group 1 *)
| Bol                              (* ^ *)
| WordBoundary.                    (* \b *)

(** [...]+ *)
Definition Plus (cl : list class_item) : regex := Seq (Class cl) (Star cl).

Fixpoint Lits (s : text) : regex :=
  match s with
  | [] => Seq (Star []) (Star [])   (* the empty pattern; not used *)
  | [c] => Lit c
  | c :: s' => Seq (Lit c) (Lits s')
  end.

Definition item_has (it : class_item) (c : ascii) : bool :=
  match it with
  | CChar x => Ascii.eqb c x
  | CRange lo hi => in_span lo hi c
  | CSpace => isspace c
  end.

(** Membership of a class; with IGNORECASE a character belongs to the class
    when one of its case variants does. *)
Definition class_has (ignorecase : bool) (cl : list class_item) (c : ascii) : bool :=
  existsb (fun it =>
             item_has it c
             || (ignorecase
                 && (item_has it (lower_char c) || item_has it (upper_char c))))
          cl.

Definition lit_eq (ignorecase : bool) (x c : ascii) : bool :=
  if ignorecase then Ascii.eqb (lower_char c) (lower_char x) else Ascii.eqb c x.

(** Matcher state: the characters consumed so far (latest first), the
    remaining input, and the text of group 1 when it has been closed. *)
Record mstate := mkState {
  consumed : text;
  remaining : text;
  group1 : option text
}.

Definition at_boundary (st : mstate) : bool :=
  let before := match consumed st with c :: _ => isword c | [] => false end in
  let after := match remaining st with c :: _ => isword c | [] => false end in
  xorb before after.

(** The text consumed between an earlier state and a later one. *)
Definition consumed_since (st st' : mstate) : text :=
  rev (firstn (length (consumed st') - length (consumed st)) (consumed st')).

Section Matcher.
Context {R : Type} (ignorecase : bool).

(** Greedy [cl*]: take as many characters as possible, then give back one
    at a time until the continuation succeeds. *)
Fixpoint match_star (cl : list class_item) (k : mstate -> option R)
         (before after : text) (g : option text) : option R :=
  match after with
  | c :: after' =>
      if class_has ignorecase cl c then
        match match_star cl k (c :: before) after' g with
        | Some r => Some r
        | None => k (mkState before after g)
        end
      else k (mkState before after g)
  | [] => k (mkState before after g)
  end.

Fixpoint match_re (r : regex) (k : mstate -> option R) (st : mstate) : option R :=
  match r with
  | Lit x =>
      match remaining st with
      | c :: after =>
          if lit_eq ignorecase x c
          then k (mkState (c :: consumed st) after (group1 st)) else None
      | [] => None
      end
  | Class cl =>
      match remaining st with
      | c :: after =>
          if class_has ignorecase cl c
          then k (mkState (c :: consumed st) after (group1 st)) else None
      | [] => None
      end
  | Seq r1 r2 => match_re r1 (match_re r2 k) st
  | Alt r1 r2 =>
      match match_re r1 k st with
      | Some res => Some res
      | None => match_re r2 k st
      end
  | Opt r1 =>
      match match_re r1 k st with
      | Some res => Some res
      | None => k st
      end
  | Star cl => match_star cl k (consumed st) (remaining st) (group1 st)
  | Group r1 =>
      match_re r1
        (fun st' => k (mkState (consumed st') (remaining st')
                               (Some (consumed_since st st'))))
        st
  | Bol => match consumed st with [] => k st | _ :: _ => None end
  | WordBoundary => if at_boundary st then k st else None
  end.
End Matcher.

(** [pattern.match(s)] with [re.IGNORECASE]: the final state on success. *)
Definition re_match (r : regex) (s : text) : option mstate :=
  match_re true r Some (mkState [] s None).

(** [match.group(1)] *)
Definition group (m : mstate) : text := default [] (group1 m).

Definition text_of (s : string) : text := list_ascii_of_string s.

(** [^\s*(?:chapter|chap\.?)[\s.-]*] *)
Definition chapter_prefix (tail : regex) : regex :=
  Seq Bol
    (Seq (Star [CSpace])
       (Seq (Alt (Lits (text_of "chapter"))
                 (Seq (Lits (text_of "chap")) (Opt (Lit "."))))
          (Seq (Star [CSpace; CChar "."; CChar "-"]) tail))).

Definition CHAPTER_DIGIT_RE : regex :=
  chapter_prefix (Seq (Star [CChar "0"]) (Seq (Group (Plus [CRange "0" "9"])) WordBoundary)).

(** [[ivxlcdm]] *)
Definition roman_class : list class_item :=
  [CChar "i"; CChar "v"; CChar "x"; CChar "l"; CChar "c"; CChar "d"; CChar "m"].

Definition CHAPTER_ROMAN_RE : regex :=
  chapter_prefix (Seq (Group (Plus roman_class)) WordBoundary).

Definition CHAPTER_WORD_RE : regex :=
  chapter_prefix (Seq (Group (Plus [CRange "A" "Z"; CRange "a" "z"])) WordBoundary).

Definition NUMBER_WORDS : list (text * Z) :=
  map (fun kv => (text_of (fst kv), snd kv))
    [ ("zero", 0); ("one", 1); ("two", 2); ("three", 3); ("four", 4);
      ("five", 5); ("six", 6); ("seven", 7); ("eight", 8); ("nine", 9);
      ("ten", 10); ("eleven", 11); ("twelve", 12); ("thirteen", 13);
      ("fourteen", 14); ("fifteen", 15); ("sixteen", 16); ("seventeen", 17);
      ("eighteen", 18); ("nineteen", 19); ("twenty", 20) ]%string.

(** [word in NUMBER_WORDS] *)
Definition is_number_word (w : text) : bool :=
  existsb (fun kv => bool_decide (fst kv = w)) NUMBER_WORDS.

(** Truthiness of [roman_to_int]'s result: [None] and [0] are falsy. *)
Definition truthy (v : option Z) : bool :=
  match v with
  | Some n => negb (n =? 0)
  | None => false
  end.

(** The three rules of [is_chapter_title], in the order they are tried. *)
Definition digit_rule (title : text) : bool :=
  match re_match CHAPTER_DIGIT_RE title with Some _ => true | None => false end.

Definition roman_rule (title : text) : bool :=
  match re_match CHAPTER_ROMAN_RE title with
  | Some m => truthy (roman_to_int (group m))
  | None => false
  end.

Definition word_rule (title : text) : bool :=
  match re_match CHAPTER_WORD_RE title with
  | Some m => is_number_word (lower (group m))
  | None => false
  end.

Definition is_chapter_title (title : string) : bool :=
  if digit_rule (text_of title) then true
  else if roman_rule (text_of title) then true
  else if word_rule (text_of title) then true
  else false.

(** ** Outline walker

    Heading objects and lists are Python objects: they live in stores and are
    referred to by identity.  The walker looks at the identity of a heading
    object ([id(item)]) and never at that of a list; still a list may be
    shared, or may contain itself, so an item that is a list is given by its
    address in the store of lists.  An outline (the argument of
    [_iter_outline_items], the [children] of a heading object) is given by
    its items.  Cycles arise through the [children] of heading objects, which
    may name any object, themselves included, and through lists that contain
    themselves. *)

Inductive item :=
| ItemList (list_id : nat)             (* isinstance(item, list) *)
| ItemObj (item_id : nat).             (* any other object, by identity *)

(** The items of the list object at an address (an address the store does
    not hold stands for an empty list). *)
Definition list_items (lists : gmap nat (list item)) (list_id : nat) : list item :=
  default [] (lists !! list_id).

(** The [children] attribute of a heading object. *)
Inductive children_attr :=
| NoChildren                                (* absent, or [None] *)
| ChildItems (items : list item)            (* a collection *)
| ChildCall (result : option (list item)).  (* a callable; [None]: it raises TypeError *)

Record Heading := mkHeading {
  heading_title : option string;       (* getattr(item, "title", None) *)
  children : children_attr             (* getattr(item, "children", None) *)
}.

(** An object without the attributes the walker looks at. *)
Definition plain_object : Heading := mkHeading None NoChildren.

Definition heading (objs : gmap nat Heading) (id : nat) : Heading :=
  default plain_object (objs !! id).

(** What the walker descends into below an object, if anything. *)
Definition child_items (h : Heading) : list item :=
  match children h with
  | NoChildren => []
  | ChildItems items => items
  | ChildCall (Some items) => items
  | ChildCall None => []
  end.

Section Walk.
Context (lists : gmap nat (list item)) (objs : gmap nat Heading).
(** The recursive call (one more generator frame). *)
Context (rec : list item -> Z -> gset nat -> option (list (Z * nat) * gset nat)).

(** The [for item in outline] loop; yields are collected in order and the
    shared [seen] set is threaded through.  A list is entered whether or not
    it was entered before: [seen] holds heading objects only. *)
Fixpoint iter_loop (outline : list item) (depth : Z) (seen : gset nat)
  : option (list (Z * nat) * gset nat) :=
  match outline with
  | [] => Some ([], seen)
  | ItemList list_id :: outline' =>
      match rec (list_items lists list_id) depth seen with
      | Some (ys, seen) =>
          match iter_loop outline' depth seen with
          | Some (zs, seen) => Some (ys ++ zs, seen)
          | None => None
          end
      | None => None
      end
  | ItemObj item_id :: outline' =>
      if bool_decide (item_id ∈ seen) then iter_loop outline' depth seen
      else
        let seen := {[item_id]} ∪ seen in
        let below :=
          match child_items (heading objs item_id) with
          | [] => Some ([], seen)
          | (_ :: _) as child_items => rec child_items (depth + 1) seen
          end in
        match below with
        | Some (ys, seen) =>
            match iter_loop outline' depth seen with
            | Some (zs, seen) => Some ((depth, item_id) :: ys ++ zs, seen)
            | None => None
            end
        | None => None
        end
  end.
End Walk.

(** [_iter_outline_items]; [fuel] bounds the depth of the recursion, [None]
    means the bound was too small. *)
Fixpoint _iter_outline_items (fuel : nat) (lists : gmap nat (list item))
         (objs : gmap nat Heading)
         (outline : list item) (depth : Z) (seen : gset nat)
  : option (list (Z * nat) * gset nat) :=
  match fuel with
  | O => None
  | S fuel' =>
      iter_loop lists objs (_iter_outline_items fuel' lists objs) outline depth seen
  end.

(** What a call of [reader.get_destination_page_number] does. *)
Inductive resolved :=
| Raises                              (* it raises an exception *)
| Returns (page_index : option Z).    (* it returns an [int], or [None]: the
                                         destination's page is not in the document *)

Record PdfReader := mkReader {
  outline : option (list item);                  (* reader.outline *)
  outlines : option (list item);                 (* reader.outlines *)
  list_objects : gmap nat (list item);
  objects : gmap nat Heading;
  get_destination_page_number : nat -> resolved;
  pages : Z                                      (* len(reader.pages) *)
}.

(** [a or b] on optional lists: [None] and [[]] are falsy. *)
Definition or_items (a : option (list item)) (b : list item) : list item :=
  match a with
  | Some ((_ :: _) as l) => l
  | _ => b
  end.

(** The body of the loop of [collect_outline_entries] for one yielded pair:
    only an exception of the resolver is caught, a returned [None] is stored
    like a page index. *)
Definition entry_of (reader : PdfReader) (di : Z * nat) : option StoredEntry :=
  let '(depth, item) := di in
  match heading_title (heading (objects reader) item) with
  | None => None
  | Some title =>
      if bool_decide (title = EmptyString) then None
      else
        match get_destination_page_number reader item with
        | Raises => None
        | Returns page_index =>
            Some (mkOutlineEntry (string_of_list_ascii (strip (text_of title)))
                                 page_index depth)
        end
  end.

(** The exception that a [page_index] of [None] leads to. *)
Inductive type_error := TypeError.

(** A stored entry whose [page_index] is an [int], as an entry of the
    annotated type, and back. *)
Definition int_page (entry : StoredEntry) : option OutlineEntry :=
  match page_index entry with
  | Some page => Some (mkOutlineEntry (title entry) page (depth entry))
  | None => None
  end.

Definition stored (entry : OutlineEntry) : StoredEntry :=
  mkOutlineEntry (title entry) (Some (page_index entry)) (depth entry).

(** The entries, when the [page_index] of every one is an [int]. *)
Definition int_pages (entries : list StoredEntry) : option (list OutlineEntry) :=
  mapM int_page entries.

(** [entries.sort(key=lambda entry: entry.page_index)] on stored entries.
    Fewer than two entries are returned without a comparison.  Otherwise
    every entry takes part in a comparison, and [<] raises TypeError between
    [None] and an [int] (either way round) and between [None] and [None];
    with [int] keys throughout the sort is the stable sort above. *)
Definition sort_by_page_index (entries : list StoredEntry)
  : type_error + list StoredEntry :=
  match entries with
  | [] | [_] => inr entries
  | _ :: _ :: _ =>
      match int_pages entries with
      | Some typed => inr (map stored (sorted_by page_index typed))
      | None => inl TypeError
      end
  end.

Definition collect_outline_entries (fuel : nat) (reader : PdfReader)
  : option (type_error + list StoredEntry) :=
  let outline := or_items (outline reader) (or_items (outlines reader) []) in
  match _iter_outline_items fuel (list_objects reader) (objects reader) outline 0 ∅ with
  | Some (yielded, _) =>
      let entries := omap (entry_of reader) yielded in
      Some (sort_by_page_index entries)
  | None => None
  end.

(** ** Chapter selector *)

(** [min(...)] of a non-empty sequence given as head and tail. *)
Definition py_min (x : Z) (xs : list Z) : Z := fold_left Z.min xs x.

Definition pick_chapter_entries {page : Type} (entries : list (OutlineEntryOf page))
  : list (OutlineEntryOf page) :=
  let chapters := List.filter (fun entry => is_chapter_title (title entry)) entries in
  match chapters with
  | _ :: _ => chapters
  | [] =>
      match entries with
      | [] => []
      | first :: others =>
          let min_depth := py_min (depth first) (map depth others) in
          List.filter (fun entry => depth entry =? min_depth) entries
      end
  end.

(** [build_chapter_ranges] on stored entries.  With [int] pages throughout it
    is the function above.  An entry whose [page_index] is [None] makes it
    raise TypeError: in the sort when there are two or more entries, in
    [start_index + 1] when it is the only one. *)
Definition build_stored_ranges (entries : list StoredEntry) (total_pages : Z)
  : type_error + list ChapterRange :=
  match int_pages entries with
  | Some typed => inr (build_chapter_ranges typed total_pages)
  | None => inl TypeError
  end.

Definition extract_chapter_ranges (fuel : nat) (reader : PdfReader)
  : option (type_error + list ChapterRange) :=
  match collect_outline_entries fuel reader with
  | Some (inr entries) =>
      let chapters := pick_chapter_entries entries in
      Some (build_stored_ranges chapters (pages reader))
  | Some (inl error) => Some (inl error)
  | None => None
  end.

(** ** Selection parser *)

(** Whitespace that [int()] skips around an ASCII numeral. *)
Definition isspace_int (c : ascii) : bool :=
  (((9 <=? code c) && (code c <=? 13)) || (code c =? 32))%N.

Definition digit_value (c : ascii) : Z := Z.of_N (code c) - 48.

(** Digits after the first one; a single underscore may separate digits. *)
Fixpoint int_digits (acc : Z) (s : text) : option Z :=
  match s with
  | [] => Some acc
  | c :: s' =>
      if isdigit c then int_digits (10 * acc + digit_value c) s'
      else if Ascii.eqb c "_" then
        match s' with
        | d :: s'' =>
            if isdigit d then int_digits (10 * acc + digit_value d) s'' else None
        | [] => None
        end
      else None
  end.

Definition int_body (s : text) : option Z :=
  match s with
  | c :: s' => if isdigit c then int_digits (digit_value c) s' else None
  | [] => None
  end.

Fixpoint lstrip_int (s : text) : text :=
  match s with
  | c :: s' => if isspace_int c then lstrip_int s' else s
  | [] => []
  end.

(** [int(s)] on ASCII text; [None] is [ValueError].  The interpreter's
    configurable limit on the number of digits is not modelled. *)
Definition int (s : text) : option Z :=
  match rev (lstrip_int (rev (lstrip_int s))) with
  | "+"%char :: body => int_body body
  | "-"%char :: body => Z.opp <$> int_body body
  | body => int_body body
  end.

(** [s.split(sep)] for a one-character separator. *)
Fixpoint split (sep : ascii) (s : text) : list text :=
  match s with
  | [] => [[]]
  | c :: s' =>
      if Ascii.eqb c sep then [] :: split sep s'
      else
        match split sep s' with
        | tok :: toks => (c :: tok) :: toks
        | [] => [[c]]
        end
  end.

(** [s.split(sep, 1)] when [sep in s]: the parts before and after the first
    separator; [None] when the separator does not occur. *)
Fixpoint split_once (sep : ascii) (s : text) : option (text * text) :=
  match s with
  | [] => None
  | c :: s' =>
      if Ascii.eqb c sep then Some ([], s')
      else
        match split_once sep s' with
        | Some (a, b) => Some (c :: a, b)
        | None => None
        end
  end.

(** [s.replace(' ', '')] *)
Definition remove_spaces (s : text) : text :=
  List.filter (fun c => negb (Ascii.eqb c " ")) s.

Inductive exn := ValueError (message : string).

Definition use_chapter_numbers : exn := ValueError "Use chapter numbers like 1 or 1-3.".
Definition must_be_positive : exn := ValueError "Chapter numbers must be positive.".
Definition none_detected : exn := ValueError "No chapter numbers detected.".

(** The [try] block of [parse_selection] for one non-empty token. *)
Definition token_ints (token : text) : option (Z * Z) :=
  match split_once "-" token with
  | Some (start_str, end_str) =>
      match int start_str with
      | Some start =>
          match int end_str with
          | Some end_ => Some (start, end_)
          | None => None
          end
      | None => None
      end
  | None =>
      match int token with
      | Some n => Some (n, n)
      | None => None
      end
  end.

(** The body of the loop for one non-empty token. *)
Definition parse_token (token : text) : exn + (Z * Z) :=
  match token_ints token with
  | None => inl use_chapter_numbers
  | Some (start, end_) =>
      if (start <? 1) || (end_ <? 1) then inl must_be_positive
      else if start >? end_ then inr (end_, start)
      else inr (start, end_)
  end.

Fixpoint parse_tokens (tokens : list text) (ranges : list (Z * Z))
  : exn + list (Z * Z) :=
  match tokens with
  | [] => inr ranges
  | token :: tokens' =>
      match token with
      | [] => parse_tokens tokens' ranges            (* continue *)
      | _ :: _ =>
          match parse_token token with
          | inl e => inl e
          | inr range => parse_tokens tokens' (ranges ++ [range])
          end
      end
  end.

Definition parse_selection (selection : string) : exn + list (Z * Z) :=
  match parse_tokens (split "," (remove_spaces (text_of selection))) [] with
  | inl e => inl e
  | inr [] => inl none_detected
  | inr ranges => inr ranges
  end.

(** ** Auxiliary notions used in the statements *)

Definition nonempty (tok : text) : bool :=
  match tok with [] => false | _ :: _ => true end.

(** The tokens the loop of [parse_selection] does not skip. *)
Definition tokens_of (selection : string) : list text :=
  List.filter nonempty (split "," (remove_spaces (text_of selection))).

Definition remove_whitespace (s : text) : text :=
  List.filter (fun c => negb (isspace c)) s.

Definition spaceless (s : text) : Prop := Forall (fun c => isspace c = false) s.

(** The numeral proper: the argument of [int] without surrounding blanks. *)
Definition int_core (s : text) : text := rev (lstrip_int (rev (lstrip_int s))).

(** [int] reads its argument through [int_core]. *)
Definition int_signed (core : text) : option Z :=
  match core with
  | "+"%char :: body => int_body body
  | "-"%char :: body => Z.opp <$> int_body body
  | body => int_body body
  end.

Definition uncapitalise (s : text) : text :=
  match s with
  | c :: s' => lower_char c :: s'
  | [] => []
  end.

(** The reason of an error as the specification words it: the message with a
    lower-case initial and without its final full stop. *)
Definition reason (e : exn) : string :=
  match e with
  | ValueError message =>
      match rev (text_of message) with
      | "."%char :: r => string_of_list_ascii (uncapitalise (rev r))
      | _ => string_of_list_ascii (uncapitalise (text_of message))
      end
  end.

(** Declarative reading of the patterns: [steps r st st'] when [r] can take
    the matcher from state [st] to state [st']. *)
Inductive steps : regex -> mstate -> mstate -> Prop :=
| steps_lit x c before after g :
    lit_eq true x c = true ->
    steps (Lit x) (mkState before (c :: after) g) (mkState (c :: before) after g)
| steps_class cl c before after g :
    class_has true cl c = true ->
    steps (Class cl) (mkState before (c :: after) g) (mkState (c :: before) after g)
| steps_seq r1 r2 st1 st2 st3 :
    steps r1 st1 st2 -> steps r2 st2 st3 -> steps (Seq r1 r2) st1 st3
| steps_alt_l r1 r2 st st' : steps r1 st st' -> steps (Alt r1 r2) st st'
| steps_alt_r r1 r2 st st' : steps r2 st st' -> steps (Alt r1 r2) st st'
| steps_opt_some r st st' : steps r st st' -> steps (Opt r) st st'
| steps_opt_none r st : steps (Opt r) st st
| steps_star_stop cl before after g :
    steps (Star cl) (mkState before after g) (mkState before after g)
| steps_star_more cl c before after g st' :
    class_has true cl c = true ->
    steps (Star cl) (mkState (c :: before) after g) st' ->
    steps (Star cl) (mkState before (c :: after) g) st'
| steps_group r st st' :
    steps r st st' ->
    steps (Group r) st
          (mkState (consumed st') (remaining st') (Some (consumed_since st st')))
| steps_bol st : consumed st = [] -> steps Bol st st
| steps_boundary st : at_boundary st = true -> steps WordBoundary st st.

Definition is_roman_symbol (c : ascii) : Prop := class_has true roman_class c = true.

(** Spec 4.1 on Roman numerals: each symbol contributes its value; a symbol
    smaller than the largest symbol to its right subtracts instead. *)
Definition symbol_value (c : ascii) : Z := default 0 (roman_map c).

Fixpoint largest (s : text) : Z :=
  match s with
  | [] => 0
  | c :: s' => Z.max (symbol_value c) (largest s')
  end.

Fixpoint roman_value (s : text) : Z :=
  match s with
  | [] => 0
  | c :: s' =>
      (if symbol_value c <? largest s' then - symbol_value c else symbol_value c)
      + roman_value s'
  end.

(** The heading objects an outline names, directly or inside the lists it
    holds. *)
Inductive names (lists : gmap nat (list item)) : list item -> nat -> Prop :=
| names_obj outline id : In (ItemObj id) outline -> names lists outline id
| names_list outline list_id id :
    In (ItemList list_id) outline ->
    names lists (list_items lists list_id) id ->
    names lists outline id.

(** The items below a heading object: its [children], when that is a
    collection or a callable that returns one. *)
Definition has_children (h : Heading) (items : list item) : Prop :=
  children h = ChildItems items \/ children h = ChildCall (Some items).

(** The heading objects that can be reached from an outline: those it names,
    and those named by the items below a reachable object. *)
Inductive reachable (lists : gmap nat (list item)) (objs : gmap nat Heading)
          (outline : list item) : nat -> Prop :=
| reachable_top id : names lists outline id -> reachable lists objs outline id
| reachable_child id items id' :
    reachable lists objs outline id ->
    has_children (heading objs id) items ->
    names lists items id' ->
    reachable lists objs outline id'.

(** A list object that holds no endless chain of lists inside lists: the
    lists it holds are such lists.  In particular it does not contain
    itself, directly or through other lists. *)
Inductive finitely_nested (lists : gmap nat (list item)) : nat -> Prop :=
| finitely_nested_intro list_id :
    (forall inner, In (ItemList inner) (list_items lists list_id) ->
                   finitely_nested lists inner) ->
    finitely_nested lists list_id.

(** The outline [collect_outline_entries] walks. *)
Definition reader_outline (reader : PdfReader) : list item :=
  or_items (outline reader) (or_items (outlines reader) []).

(** The identities yielded by a walk. *)
Definition yielded_ids (yielded : list (Z * nat)) : list nat := map snd yielded.

(** What a finished walk guarantees about its result. *)
Definition walk_ok (lists : gmap nat (list item)) (objs : gmap nat Heading)
           (outline : list item) (seen : gset nat) (r : list (Z * nat) * gset nat)
  : Prop :=
  let ids := yielded_ids (fst r) in
  NoDup ids
  /\ (forall id, In id ids -> id ∉ seen)
  /\ (forall id, id ∈ snd r <-> id ∈ seen \/ In id ids)
  /\ (forall id, names lists outline id -> id ∈ snd r)
  /\ (forall id id', In id ids -> names lists (child_items (heading objs id)) id' ->
        id' ∈ snd r)
  /\ (forall id, In id ids -> reachable lists objs outline id).

(** The reader whose page resolver raises on object [id] and is otherwise
    unchanged. *)
Definition fail_at (id : nat) (reader : PdfReader) : PdfReader :=
  mkReader (outline reader) (outlines reader) (list_objects reader) (objects reader)
           (fun id' => if bool_decide (id' = id) then Raises
                       else get_destination_page_number reader id')
           (pages reader).

(** The walk returns [r] once the fuel is large enough. *)
Definition returns (lists : gmap nat (list item)) (objs : gmap nat Heading)
           (outline : list item) (d : Z)
           (seen : gset nat) (r : list (Z * nat) * gset nat) : Prop :=
  exists fuel0, forall fuel, (fuel0 <= fuel)%nat ->
    _iter_outline_items fuel lists objs outline d seen = Some r.

(** Objects of the store not yet visited. *)
Definition unseen (objs : gmap nat Heading) (seen : gset nat) : nat :=
  size (dom objs ∖ seen).

(** What the loop of [collect_outline_entries] appends for a yielded pair:
    the object has a non-empty title, the resolver returns [page] for it
    ([None] included), and the entry holds the stripped title, [page] and the
    depth of the pair. *)
Definition emits (reader : PdfReader) (di : Z * nat) (entry : StoredEntry) : Prop :=
  exists raw page,
    heading_title (heading (objects reader) (snd di)) = Some raw
    /\ raw <> EmptyString
    /\ get_destination_page_number reader (snd di) = Returns page
    /\ entry = mkOutlineEntry (string_of_list_ascii (strip (text_of raw))) page (fst di).

(** The entries the loop of [collect_outline_entries] appends for a yielded
    sequence, in the order of the sequence. *)
Inductive emitted (reader : PdfReader) : list (Z * nat) -> list StoredEntry -> Prop :=
| emitted_nil : emitted reader [] []
| emitted_skip di yielded entries :
    (forall entry, ~ emits reader di entry) ->
    emitted reader yielded entries ->
    emitted reader (di :: yielded) entries
| emitted_keep di yielded entry entries :
    emits reader di entry ->
    emitted reader yielded entries ->
    emitted reader (di :: yielded) (entry :: entries).

(** Facts about single characters are settled by enumeration. *)
Ltac by_ascii_cases c :=
  destruct c as [[] [] [] [] [] [] [] []]; vm_compute; intuition congruence.

(** ** Filenames *)

Definition DEFAULT_MAX_FILENAME_LENGTH : Z := 60.

(** The characters [FILENAME_SAFE_RE] leaves alone: [[A-Za-z0-9._-]]. *)
Definition filename_safe (c : ascii) : bool :=
  isupper c || islower c || isdigit c
  || Ascii.eqb c "." || Ascii.eqb c "_" || Ascii.eqb c "-".

(** [re.sub] of a pattern [[...]+] given by the membership test [p] of its
    class: every maximal run of characters of the class is replaced by one
    copy of [repl]; [in_run] tells that the previous character belonged to a
    run already replaced. *)
Fixpoint sub_plus (p : ascii -> bool) (repl : text) (in_run : bool) (s : text)
  : text :=
  match s with
  | [] => []
  | c :: s' =>
      if p c then (if in_run then [] else repl) ++ sub_plus p repl true s'
      else c :: sub_plus p repl false s'
  end.

Fixpoint lstrip_chars (p : ascii -> bool) (s : text) : text :=
  match s with
  | c :: s' => if p c then lstrip_chars p s' else s
  | [] => []
  end.

(** [s.strip(chars)], [p] being membership in [chars]. *)
Definition strip_chars (p : ascii -> bool) (s : text) : text :=
  rev (lstrip_chars p (rev (lstrip_chars p s))).

(** [s[:n]] *)
Definition slice_to (n : Z) (s : text) : text :=
  if 0 <=? n then firstn (Z.to_nat n) s
  else firstn (Z.to_nat (Z.of_nat (length s) + n)) s.

Definition is_underscore (c : ascii) : bool := Ascii.eqb c "_".
Definition is_underscore_or_dot (c : ascii) : bool :=
  Ascii.eqb c "_" || Ascii.eqb c ".".

Definition slugify_for_filename (text fallback : list ascii) (max_length : Z)
  : list ascii :=
  let cleaned := sub_plus (fun c => negb (filename_safe c)) ["_"%char] false text in
  let cleaned :=
    strip_chars is_underscore_or_dot (sub_plus is_underscore ["_"%char] false cleaned) in
  let cleaned := match cleaned with [] => fallback | _ :: _ => cleaned end in
  slice_to max_length cleaned.

(** [str(n)] for an integer. *)
Definition str (n : Z) : text :=
  list_ascii_of_string (NilZero.string_of_int (Z.to_int n)).

(** [sep.join(parts)] *)
Fixpoint join (sep : text) (parts : list text) : text :=
  match parts with
  | [] => []
  | [part] => part
  | part :: parts' => part ++ sep ++ join sep parts'
  end.

Definition build_output_filename (book_slug : text) (subset : list ChapterRange)
           (start_idx end_idx : Z) : exn + text :=
  match subset with
  | [] => inl (ValueError "subset must not be empty")
  | first :: _ =>
      let suffix :=
        if start_idx =? end_idx then text_of "chapter_" ++ str start_idx
        else text_of "chapters_" ++ str start_idx ++ text_of "-" ++ str end_idx in
      let parts := [book_slug; suffix] in
      let parts :=
        if start_idx =? end_idx
        then parts ++ [slugify_for_filename (text_of (range_title first))
                                            (text_of "chapter")
                                            DEFAULT_MAX_FILENAME_LENGTH]
        else parts in
      inr (join (text_of "_") parts ++ text_of ".txt")
  end.

(** ** Prompts

    [input()] reads the next line of a list of pending input lines; running
    out of lines is [EOFError], modelled by [None].  A prompt returns its
    value together with the lines left.  What is printed is not modelled. *)

(** [input(...).strip()] on a line. *)
Definition stripped (line : string) : text := strip (text_of line).

Fixpoint choose_loop {A : Type} (pdfs : list A) (default : A) (inputs : list string)
  : option (A * list string) :=
  match inputs with
  | [] => None
  | line :: inputs' =>
      match int (stripped line) with
      | None => choose_loop pdfs default inputs'          (* ValueError *)
      | Some index =>
          if (1 <=? index) && (index <=? Z.of_nat (length pdfs))
          then Some (nth (Z.to_nat (index - 1)) pdfs default, inputs')
          else choose_loop pdfs default inputs'
      end
  end.

Definition choose_pdf {A : Type} (pdfs : list A) (inputs : list string)
  : option (option A * list string) :=
  match pdfs with
  | [] => Some (None, inputs)
  | first :: _ =>
      match choose_loop pdfs first inputs with
      | Some (pdf, inputs') => Some (Some pdf, inputs')
      | None => None
      end
  end.

(** The loops of [prompt_manual_chapters]: [pending] is the title whose page
    range is being asked for, [None] while a title is asked for. *)
Fixpoint manual_loop (inputs : list string) (pending : option text)
         (chapters : list ChapterRange) : option (list ChapterRange * list string) :=
  match inputs with
  | [] => None
  | line :: inputs' =>
      match pending with
      | None =>
          match stripped line with
          | [] => Some (chapters, inputs')                 (* break *)
          | (_ :: _) as title => manual_loop inputs' (Some title) chapters
          end
      | Some title =>
          match stripped line with
          | [] => manual_loop inputs' pending chapters
          | (_ :: _) as page_input =>
              match token_ints page_input with
              | None => manual_loop inputs' pending chapters   (* ValueError *)
              | Some (start_page, end_page) =>
                  if (start_page <? 1) || (end_page <? 1)
                  then manual_loop inputs' pending chapters
                  else
                    let '(start_page, end_page) :=
                      if start_page >? end_page then (end_page, start_page)
                      else (start_page, end_page) in
                    manual_loop inputs' None
                      (chapters ++ [mkChapterRange (string_of_list_ascii title)
                                                   start_page end_page])
              end
          end
      end
  end.

Definition prompt_manual_chapters (inputs : list string)
  : option (list ChapterRange * list string) :=
  manual_loop inputs None [].

Fixpoint prompt_for_chapter_selection (total_chapters : Z) (inputs : list string)
  : option (list (Z * Z) * list string) :=
  match inputs with
  | [] => None
  | line :: inputs' =>
      match stripped line with
      | [] => Some ([], inputs')
      | (_ :: _) as selection =>
          match parse_selection (string_of_list_ascii selection) with
          | inl _ => prompt_for_chapter_selection total_chapters inputs'
          | inr ranges =>
              if existsb (fun r => snd r >? total_chapters) ranges
              then prompt_for_chapter_selection total_chapters inputs'
              else Some (ranges, inputs')
          end
      end
  end.

(** ** The export loop of [main] *)

(** A slice bound as Python reads it: negative bounds count from the end and
    everything is clamped to the list. *)
Definition slice_bound (len i : Z) : Z :=
  if i <? 0 then Z.max 0 (len + i) else Z.min i len.

(** [l[a:b]] *)
Definition py_slice {A : Type} (l : list A) (a b : Z) : list A :=
  let len := Z.of_nat (length l) in
  let a := slice_bound len a in
  let b := slice_bound len b in
  firstn (Z.to_nat (b - a)) (skipn (Z.to_nat a) l).

(** The pages exported for one selection: [subset = chapters[start_idx - 1 :
    end_idx]], skipped when empty, else from [subset[0].start_page] to
    [subset[-1].end_page]. *)
Definition export_span (chapters : list ChapterRange) (selection : Z * Z)
  : option (Z * Z) :=
  let '(start_idx, end_idx) := selection in
  match py_slice chapters (start_idx - 1) end_idx with
  | [] => None                                              (* continue *)
  | first :: rest =>
      Some (start_page first, end_page (List.last rest first))
  end.

(** ** Further notions used in the statements *)

(** The loop of [build_chapter_ranges], by recursion on the sorted entries. *)
Fixpoint ranges_of (sorted : list OutlineEntry) (total_pages : Z)
  : list ChapterRange :=
  match sorted with
  | [] => []
  | entry :: rest =>
      mkChapterRange (title entry) (page_index entry + 1)
        (match rest with
         | next :: _ => page_index next
         | [] => total_pages
         end)
      :: ranges_of rest total_pages
  end.

(** Number of pages of an inclusive range. *)
Definition page_count (r : ChapterRange) : Z := end_page r - start_page r + 1.

Definition sum_Z (l : list Z) : Z := fold_right Z.add 0 l.

(** A range that satisfies the invariant of [ChapterRange] within a document. *)
Definition well_formed (total_pages : Z) (r : ChapterRange) : Prop :=
  1 <= start_page r /\ start_page r <= end_page r /\ end_page r <= total_pages.

(** Text without white space at either end. *)
Definition trimmed (s : text) : Prop := lstrip s = s /\ lstrip (rev s) = rev s.

(** A selection range that is valid for [total_chapters] chapters. *)
Definition valid_selection (total_chapters : Z) (r : Z * Z) : Prop :=
  1 <= fst r /\ fst r <= snd r /\ snd r <= total_chapters.

(** A manually entered chapter: a non-empty trimmed title and
    [1 <= start_page <= end_page]. *)
Definition manual_chapter_ok (c : ChapterRange) : Prop :=
  text_of (range_title c) <> [] /\ trimmed (text_of (range_title c))
  /\ 1 <= start_page c /\ start_page c <= end_page c.

(** Two underscores in a row occur nowhere in [s]. *)
Definition no_double_underscore (s : text) : Prop :=
  forall a b, s <> a ++ "_"%char :: "_"%char :: b.

(** Text that [slugify_for_filename] has nothing to clean in: not empty, only
    filename-safe characters, neither underscore nor dot at either end, no
    two underscores in a row. *)
Definition clean_slug (s : text) : Prop :=
  s <> []
  /\ Forall (fun c => filename_safe c = true) s
  /\ (forall c, head s = Some c -> is_underscore_or_dot c = false)
  /\ (forall c, head (rev s) = Some c -> is_underscore_or_dot c = false)
  /\ no_double_underscore s.

(** The depths of a walk started at depth [d] on [outline] follow the
    nesting: an object is yielded at depth [d] and named by the outline, or
    one deeper than an object yielded before it that has it among its
    children. *)
Definition nested_depths (lists : gmap nat (list item)) (objs : gmap nat Heading)
           (outline : list item) (d : Z) (yielded : list (Z * nat)) : Prop :=
  forall i dep id, yielded !! i = Some (dep, id) ->
    (dep = d /\ names lists outline id)
    \/ exists j dj idj, (j < i)%nat /\ yielded !! j = Some (dj, idj)
         /\ dep = dj + 1
         /\ names lists (child_items (heading objs idj)) id.

(** A separator between the chapter word and its number: [[\s.-]]. *)
Definition is_separator (c : ascii) : bool :=
  isspace c || Ascii.eqb c "." || Ascii.eqb c "-".

(** The chapter words the patterns accept, in any case: [chapter], [chap],
    [chap.]. *)
Definition chapter_word (w : text) : Prop :=
  lower w = text_of "chapter" \/ lower w = text_of "chap"
  \/ lower w = text_of "chap.".

(** The standard way of writing a number in Roman numerals (largest value
    first, with the six subtractive pairs), used to state what
    [roman_to_int] decodes. *)
Definition roman_table : list (Z * string) :=
  [ (1000, "M"); (900, "CM"); (500, "D"); (400, "CD"); (100, "C"); (90, "XC");
    (50, "L"); (40, "XL"); (10, "X"); (9, "IX"); (5, "V"); (4, "IV");
    (1, "I") ]%string.

Fixpoint to_roman (table : list (Z * string)) (n : Z) : text :=
  match table with
  | [] => []
  | (value, symbols) :: table' =>
      concat (repeat (text_of symbols) (Z.to_nat (n / value)))
      ++ to_roman table' (n mod value)
  end.

Definition standard_roman (n : Z) : text := to_roman roman_table n.

(** What is checked of the standard numeral of [n]. *)
Definition decodes_standard (n : Z) : bool :=
  match roman_to_int (standard_roman n), roman_to_int (lower (standard_roman n)) with
  | Some a, Some b => (a =? n) && (b =? n)
  | _, _ => false
  end
  && is_chapter_title (string_of_list_ascii (text_of "Chapter " ++ standard_roman n))
  && is_chapter_title
       (string_of_list_ascii (text_of "chap. " ++ lower (standard_roman n))).

(** What the export loop of [main] needs of a selection range. *)
Definition exportable (chapters : list ChapterRange) (r : Z * Z) : Prop :=
  exists first final,
    chapters !! Z.to_nat (fst r - 1) = Some first
    /\ chapters !! Z.to_nat (snd r - 1) = Some final
    /\ export_span chapters r = Some (start_page first, end_page final).

(** * Properties *)

(** ** The stable sort *)

Section StableSortFacts.
Context {A : Type} (key : A -> Z).

Lemma insert_by_perm (x : A) (l : list A) : Permutation (insert_by key x l) (x :: l).
Proof.
  induction l as [|y l IH]; simpl; [reflexivity|].
  destruct (key x <=? key y); [reflexivity|].
  rewrite IH. apply perm_swap.
Qed.

Lemma sorted_by_perm (l : list A) : Permutation (sorted_by key l) l.
Proof.
  induction l as [|x l IH]; simpl; [reflexivity|].
  rewrite insert_by_perm. now rewrite IH.
Qed.

Lemma sorted_by_length (l : list A) : length (sorted_by key l) = length l.
Proof. apply Permutation_length, sorted_by_perm. Qed.

Lemma insert_by_ordered (x : A) (l : list A) :
  ordered_by key l -> ordered_by key (insert_by key x l).
Proof.
  unfold ordered_by. induction 1 as [|y l Hl IH Hy]; simpl.
  - repeat constructor.
  - destruct (Z.leb_spec (key x) (key y)) as [Hxy|Hxy].
    + constructor; [now constructor|].
      constructor; [exact Hxy|].
      eapply Forall_impl; [exact Hy|]. simpl. intros a Ha. lia.
    + constructor; [exact IH|].
      rewrite (insert_by_perm x l). constructor; [lia | exact Hy].
Qed.

Lemma sorted_by_ordered (l : list A) : ordered_by key (sorted_by key l).
Proof.
  induction l as [|x l IH]; simpl; [constructor|].
  now apply insert_by_ordered.
Qed.

Lemma insert_by_stable (k : Z) (x : A) (l : list A) :
  with_key key k (insert_by key x l) = with_key key k (x :: l).
Proof.
  induction l as [|y l IH]; [reflexivity|]. simpl.
  destruct (Z.leb_spec (key x) (key y)) as [Hxy|Hxy]; [reflexivity|].
  unfold with_key in *. simpl in *. rewrite IH.
  destruct (Z.eqb_spec (key x) k), (Z.eqb_spec (key y) k); try reflexivity; lia.
Qed.

(** Elements with equal keys keep their order of appearance. *)
Lemma sorted_by_stable (k : Z) (l : list A) :
  with_key key k (sorted_by key l) = with_key key k l.
Proof.
  induction l as [|x l IH]; [reflexivity|]. simpl.
  rewrite insert_by_stable. unfold with_key in *. simpl. now rewrite IH.
Qed.

Lemma ordered_by_head_le (a : A) (l : list A) (b : A) :
  ordered_by key (a :: l) -> In b (a :: l) -> key a <= key b.
Proof.
  intros Hs Hb. inversion Hs as [|? ? _ Hall]; subst.
  destruct Hb as [->|Hb]; [lia|].
  rewrite List.Forall_forall in Hall. now apply Hall.
Qed.

(** A permutation that is ordered by key and stable is the sorted list:
    every stable sorting algorithm computes [sorted_by]. *)
Lemma ordered_stable_unique (l1 l2 : list A) :
  Permutation l1 l2 -> ordered_by key l1 -> ordered_by key l2 ->
  (forall k, with_key key k l1 = with_key key k l2) -> l1 = l2.
Proof.
  revert l2. induction l1 as [|a l1 IH]; intros l2 Hp H1 H2 Hk.
  - now apply Permutation_nil in Hp.
  - destruct l2 as [|b l2].
    { symmetry in Hp. now apply Permutation_nil in Hp. }
    assert (Hab : key a = key b).
    { apply Z.le_antisymm.
      - eapply ordered_by_head_le; [exact H1|].
        eapply Permutation_in; [symmetry; exact Hp | now left].
      - eapply ordered_by_head_le; [exact H2|].
        eapply Permutation_in; [exact Hp | now left]. }
    assert (a = b) as ->.
    { specialize (Hk (key a)). unfold with_key in Hk. simpl in Hk.
      rewrite <- Hab, Z.eqb_refl in Hk. now injection Hk. }
    f_equal. apply IH.
    + now apply Permutation_cons_inv in Hp.
    + now inversion H1.
    + now inversion H2.
    + intros k. specialize (Hk k). unfold with_key in *. simpl in Hk.
      destruct (key b =? k); [now injection Hk | exact Hk].
Qed.

Lemma sorted_by_unique (l l' : list A) :
  Permutation l' l -> ordered_by key l' ->
  (forall k, with_key key k l' = with_key key k l) ->
  l' = sorted_by key l.
Proof.
  intros Hp Ho Hk. apply ordered_stable_unique.
  - now rewrite sorted_by_perm.
  - exact Ho.
  - apply sorted_by_ordered.
  - intros k. now rewrite sorted_by_stable.
Qed.

Lemma ordered_by_lookup_le (l : list A) (i j : nat) (a b : A) :
  ordered_by key l -> (i <= j)%nat -> l !! i = Some a -> l !! j = Some b ->
  key a <= key b.
Proof.
  intros Hs. revert i j. induction Hs as [|x l Hl IH Hx]; intros i j Hij Ha Hb.
  - discriminate.
  - destruct i as [|i], j as [|j]; simpl in *.
    + assert (a = b) by congruence. subst. lia.
    + injection Ha as <-. rewrite Forall_forall in Hx. apply Hx.
      eapply list_elem_of_lookup_2; exact Hb.
    + lia.
    + apply (IH i j); [lia | assumption..].
Qed.
End StableSortFacts.

(** ** Regular expressions *)

Lemma match_star_steps {R : Type} (cl : list class_item) (k : mstate -> option R)
      (before after : text) (g : option text) (res : R) :
  match_star true cl k before after g = Some res ->
  exists st', steps (Star cl) (mkState before after g) st' /\ k st' = Some res.
Proof.
  revert before. induction after as [|c after IH]; intros before; cbn [match_star].
  - intros H. eexists. split; [apply steps_star_stop | exact H].
  - destruct (class_has true cl c) eqn:Hc.
    + destruct (match_star true cl k (c :: before) after g) as [r|] eqn:Hm.
      * intros [= <-]. destruct (IH _ Hm) as (st' & Hs & Hk).
        exists st'. split; [now apply steps_star_more | exact Hk].
      * intros H. eexists. split; [apply steps_star_stop | exact H].
    + intros H. eexists. split; [apply steps_star_stop | exact H].
Qed.

(** Soundness of the backtracking matcher: a result comes from a state the
    pattern leads to. *)
Lemma match_re_steps {R : Type} (r : regex) (k : mstate -> option R)
      (st : mstate) (res : R) :
  match_re true r k st = Some res ->
  exists st', steps r st st' /\ k st' = Some res.
Proof.
  revert R k st res.
  induction r as [x|cl|r1 IH1 r2 IH2|r1 IH1 r2 IH2|r1 IH1|cl|r1 IH1| |];
    intros R k st res; cbn [match_re].
  - destruct st as [before [|c after] g]; cbn [remaining consumed group1];
      [discriminate|].
    destruct (lit_eq true x c) eqn:Hx; [|discriminate].
    intros H. eexists. split; [now apply steps_lit | exact H].
  - destruct st as [before [|c after] g]; cbn [remaining consumed group1];
      [discriminate|].
    destruct (class_has true cl c) eqn:Hx; [|discriminate].
    intros H. eexists. split; [now apply steps_class | exact H].
  - intros H. apply IH1 in H as (st2 & H1 & H).
    apply IH2 in H as (st3 & H2 & H).
    exists st3. split; [eapply steps_seq; eassumption | exact H].
  - destruct (match_re true r1 k st) as [res'|] eqn:H1.
    + intros [= <-]. apply IH1 in H1 as (st' & Hs & Hk).
      exists st'. split; [now apply steps_alt_l | exact Hk].
    + intros H. apply IH2 in H as (st' & Hs & Hk).
      exists st'. split; [now apply steps_alt_r | exact Hk].
  - destruct (match_re true r1 k st) as [res'|] eqn:H1.
    + intros [= <-]. apply IH1 in H1 as (st' & Hs & Hk).
      exists st'. split; [now apply steps_opt_some | exact Hk].
    + intros H. exists st. split; [apply steps_opt_none | exact H].
  - destruct st as [before after g]. apply match_star_steps.
  - intros H. apply IH1 in H as (st' & Hs & Hk).
    eexists. split; [apply steps_group; exact Hs | exact Hk].
  - destruct (consumed st) eqn:Hc; [|discriminate].
    intros H. exists st. split; [now apply steps_bol | exact H].
  - destruct (at_boundary st) eqn:Hb; [|discriminate].
    intros H. exists st. split; [now apply steps_boundary | exact H].
Qed.

Lemma re_match_steps (r : regex) (s : text) (m : mstate) :
  re_match r s = Some m -> steps r (mkState [] s None) m.
Proof.
  unfold re_match. intros H. apply match_re_steps in H as (st' & Hs & [= <-]).
  exact Hs.
Qed.

(** What a run of [cl*] consumes. *)
Lemma steps_star_run (cl : list class_item) (st st' : mstate) :
  steps (Star cl) st st' ->
  exists w, Forall (fun c => class_has true cl c = true) w
    /\ consumed st' = rev w ++ consumed st
    /\ remaining st = w ++ remaining st'
    /\ group1 st' = group1 st.
Proof.
  remember (Star cl) as r eqn:Hr. intros H.
  induction H; try discriminate; injection Hr as ->.
  - exists []. repeat split. constructor.
  - destruct (IHsteps eq_refl) as (w & Hw & Hc & Hrem & Hg).
    exists (c :: w). simpl in *. repeat split.
    + now constructor.
    + rewrite Hc. now rewrite <- app_assoc.
    + now rewrite Hrem.
    + exact Hg.
Qed.

Lemma steps_plus_run (cl : list class_item) (st st' : mstate) :
  steps (Plus cl) st st' ->
  consumed_since st st' <> []
  /\ Forall (fun c => class_has true cl c = true) (consumed_since st st').
Proof.
  unfold Plus. intros H. inversion H as [| |? ? ? st2 ? H1 H2| | | | | | | | |]; subst.
  inversion H1; subst.
  apply steps_star_run in H2 as (w & Hw & Hc & _ & _). simpl in Hc.
  assert (Hsince : consumed_since (mkState before (c :: after) g) st' = c :: w).
  { unfold consumed_since. rewrite Hc. simpl.
    replace (length (rev w ++ c :: before) - length before)%nat
      with (length (rev w ++ [c])) by (rewrite !length_app; simpl; lia).
    replace (rev w ++ c :: before) with ((rev w ++ [c]) ++ before)
      by (now rewrite <- app_assoc).
    rewrite firstn_app, Nat.sub_diag, firstn_all. simpl.
    rewrite app_nil_r, rev_app_distr, rev_involutive. reflexivity. }
  rewrite Hsince. split; [discriminate | now constructor].
Qed.

Lemma steps_seq_inv (r1 r2 : regex) (st st' : mstate) :
  steps (Seq r1 r2) st st' -> exists st2, steps r1 st st2 /\ steps r2 st2 st'.
Proof. intros H. inversion H; subst. eauto. Qed.

Lemma steps_chapter_prefix (tail : regex) (st m : mstate) :
  steps (chapter_prefix tail) st m -> exists st1, steps tail st1 m.
Proof.
  unfold chapter_prefix. intros H.
  apply steps_seq_inv in H as (s1 & _ & H).
  apply steps_seq_inv in H as (s2 & _ & H).
  apply steps_seq_inv in H as (s3 & _ & H).
  apply steps_seq_inv in H as (s4 & _ & H).
  now exists s4.
Qed.

(** The text of group 1 after [([...]+)\b]: a non-empty run of the class. *)
Lemma steps_group_plus (cl : list class_item) (st m : mstate) :
  steps (Seq (Group (Plus cl)) WordBoundary) st m ->
  exists cap, group1 m = Some cap /\ cap <> []
    /\ Forall (fun c => class_has true cl c = true) cap.
Proof.
  intros H. apply steps_seq_inv in H as (s2 & Hg & Hb).
  inversion Hb; subst. inversion Hg as [| | | | | | | | |? ? st' Hp| |]; subst.
  apply steps_plus_run in Hp as [Hne Hall].
  eexists. split; [reflexivity|]. auto.
Qed.

Lemma roman_capture (title : text) (m : mstate) :
  re_match CHAPTER_ROMAN_RE title = Some m ->
  group m <> [] /\ Forall is_roman_symbol (group m).
Proof.
  intros H. apply re_match_steps, steps_chapter_prefix in H as (st1 & H).
  apply steps_group_plus in H as (cap & Hg & Hne & Hall).
  unfold group. rewrite Hg. simpl. auto.
Qed.

(** ** Roman numerals *)

Lemma roman_symbol_value (c : ascii) :
  is_roman_symbol c ->
  roman_map (lower_char c) = Some (symbol_value (lower_char c))
  /\ 0 < symbol_value (lower_char c).
Proof. unfold is_roman_symbol. by_ascii_cases c. Qed.

Lemma roman_loop_app (st : Z * Z) (a b : text) :
  roman_loop st (a ++ b) =
  match roman_loop st a with
  | Some st' => roman_loop st' b
  | None => None
  end.
Proof.
  revert st. induction a as [|c a IH]; intros st; [reflexivity|]. simpl.
  destruct (roman_step st c); [apply IH | reflexivity].
Qed.

Lemma largest_nonneg (s : text) : Forall (fun c => 0 < symbol_value c) s -> 0 <= largest s.
Proof. induction 1; simpl; lia. Qed.

(** The loop, run from the right, keeps in [total] the value of the symbols
    read and in [prev] the largest of them. *)
Lemma roman_loop_value (s : text) :
  Forall (fun c => roman_map c = Some (symbol_value c) /\ 0 < symbol_value c) s ->
  roman_loop (0, 0) (rev s) = Some (roman_value s, largest s).
Proof.
  induction 1 as [|c s [Hc Hpos] Hs IH]; [reflexivity|].
  simpl rev. rewrite roman_loop_app, IH. simpl. rewrite Hc.
  assert (0 <= largest s).
  { apply largest_nonneg. eapply Forall_impl; [exact Hs|]. now intros ? []. }
  destruct (Z.ltb_spec (symbol_value c) (largest s)); do 2 f_equal; lia.
Qed.

(** Decoding never fails on Roman symbols, and computes the value of spec 4.1. *)
Lemma roman_to_int_value (numeral : text) :
  Forall is_roman_symbol numeral ->
  roman_to_int numeral = Some (roman_value (lower numeral)).
Proof.
  intros H. unfold roman_to_int. rewrite roman_loop_value; [reflexivity|].
  unfold lower. apply Forall_map. eapply Forall_impl; [exact H|].
  intros c Hc. now apply roman_symbol_value.
Qed.

Lemma is_chapter_title_rules (title : string) :
  is_chapter_title title
  = digit_rule (text_of title) || roman_rule (text_of title) || word_rule (text_of title).
Proof.
  unfold is_chapter_title.
  destruct (digit_rule _), (roman_rule _), (word_rule _); reflexivity.
Qed.

(** C4 (amended).  When the Roman pattern matches a title, its capture is a
    non-empty string of Roman symbols; decoding it never fails and yields the
    value of the right-to-left subtractive rule; the title classifies true
    whenever that value is not zero, and a zero value, like a failed decode,
    is no match for the Roman rule. *)
Theorem roman_rule_decides (title : string) (m : mstate) :
  re_match CHAPTER_ROMAN_RE (text_of title) = Some m ->
  let numeral := group m in
  (numeral <> [] /\ Forall is_roman_symbol numeral)
  /\ roman_to_int numeral = Some (roman_value (lower numeral))
  /\ roman_rule (text_of title) = truthy (roman_to_int numeral)
  /\ (roman_value (lower numeral) <> 0 ->
      roman_rule (text_of title) = true /\ is_chapter_title title = true)
  /\ (roman_value (lower numeral) = 0 -> roman_rule (text_of title) = false)
  /\ truthy None = false.
Proof.
  intros Hm numeral.
  destruct (roman_capture _ _ Hm) as [Hne Hall]. fold numeral in Hne, Hall.
  pose proof (roman_to_int_value numeral Hall) as Hv.
  assert (Hrule : roman_rule (text_of title) = truthy (roman_to_int numeral)).
  { unfold roman_rule. now rewrite Hm. }
  repeat split; try assumption.
  - rewrite Hrule, Hv. simpl. now apply negb_true_iff, Z.eqb_neq.
  - rewrite is_chapter_title_rules, Hrule, Hv. simpl.
    apply Z.eqb_neq in H. rewrite H. simpl. now rewrite orb_true_r.
  - intros H0. rewrite Hrule, Hv, H0. reflexivity.
Qed.

Lemma roman_rule_decides_witness :
  roman_rule (text_of "Chapter IV") = true /\ is_chapter_title "Chapter IV" = true.
Proof.
  refine (proj1 (proj2 (proj2 (proj2
    (roman_rule_decides "Chapter IV"
       (mkState (rev (text_of "Chapter IV")) [] (Some (text_of "IV"))) _)))) _).
  - vm_compute. reflexivity.
  - vm_compute. discriminate.
Defined.

(** C4 as stated fails: IIIIIIV decodes to -1, which is not positive, and the
    title still classifies true through the Roman rule. *)
Lemma negative_roman_value_classifies :
  exists m, re_match CHAPTER_ROMAN_RE (text_of "Chapter IIIIIIV") = Some m
    /\ roman_to_int (group m) = Some (-1)
    /\ roman_rule (text_of "Chapter IIIIIIV") = true
    /\ digit_rule (text_of "Chapter IIIIIIV") = false
    /\ word_rule (text_of "Chapter IIIIIIV") = false
    /\ is_chapter_title "Chapter IIIIIIV" = true.
Proof.
  eexists. split; [vm_compute; reflexivity|]. vm_compute. repeat split.
Qed.

Example roman_classification_examples :
  is_chapter_title "Chapter IV" = true
  /\ roman_to_int (text_of "IV") = Some 4
  /\ is_chapter_title "Chapter IIII" = true
  /\ roman_to_int (text_of "IIII") = Some 4
  /\ roman_to_int (text_of "MCMXCIV") = Some 1994
  /\ roman_to_int (text_of "IIIIIV") = Some 0
  /\ is_chapter_title "Chapter IIIIIV" = false
  /\ roman_to_int (text_of "IVY") = None.
Proof. vm_compute. repeat split. Qed.

Example classifier_examples :
  is_chapter_title "chapter 007" = true
  /\ is_chapter_title "CHAPTER 7" = true
  /\ is_chapter_title "Preface" = false
  /\ is_chapter_title "Appendix A" = false
  /\ is_chapter_title "Chap. Twenty" = true
  /\ is_chapter_title "Chapter 7b" = false.
Proof. vm_compute. repeat split. Qed.

(** ** Outline walker *)

Section WalkFacts.
Context (lists : gmap nat (list item)) (objs : gmap nat Heading).

Lemma names_nil (id : nat) : ~ names lists [] id.
Proof. intros H. inversion H as [o i Hin|o a i Hin _]; destruct Hin. Qed.

Lemma names_cons_obj (i : nat) (rest : list item) (id : nat) :
  names lists (ItemObj i :: rest) id <-> id = i \/ names lists rest id.
Proof.
  split.
  - intros H. inversion H as [o x Hin|o a x Hin Hn]; subst.
    + destruct Hin as [[= ->]|Hin]; [now left | right; now apply names_obj].
    + destruct Hin as [[=]|Hin]. right. eapply names_list; eassumption.
  - intros [->|H]; [apply names_obj; now left|].
    inversion H as [o x Hin|o a x Hin Hn]; subst.
    + apply names_obj. now right.
    + eapply names_list; [right; exact Hin | exact Hn].
Qed.

Lemma names_cons_list (a : nat) (rest : list item) (id : nat) :
  names lists (ItemList a :: rest) id
  <-> names lists (list_items lists a) id \/ names lists rest id.
Proof.
  split.
  - intros H. inversion H as [o x Hin|o b x Hin Hn]; subst.
    + destruct Hin as [[=]|Hin]. right. now apply names_obj.
    + destruct Hin as [[= ->]|Hin]; [now left | right; eapply names_list; eassumption].
  - intros [H|H]; [eapply names_list; [now left | exact H]|].
    inversion H as [o x Hin|o b x Hin Hn]; subst.
    + apply names_obj. now right.
    + eapply names_list; [right; exact Hin | exact Hn].
Qed.

Lemma names_child_items (h : Heading) (id : nat) :
  names lists (child_items h) id
  <-> exists items, has_children h items /\ names lists items id.
Proof.
  unfold child_items, has_children. split.
  - destruct (children h) as [|items|[items|]]; intros H;
      try (now apply names_nil in H); exists items; auto.
  - intros (items & [Hc|Hc] & H); now rewrite Hc.
Qed.

Lemma reachable_below (outline : list item) (id id' : nat) :
  reachable lists objs outline id ->
  names lists (child_items (heading objs id)) id' ->
  reachable lists objs outline id'.
Proof.
  intros Hid H. apply names_child_items in H as (items & Hc & H).
  eapply reachable_child; eassumption.
Qed.

Lemma reachable_within (o1 o2 : list item) (id : nat) :
  (forall id', names lists o1 id' -> reachable lists objs o2 id') ->
  reachable lists objs o1 id -> reachable lists objs o2 id.
Proof.
  intros Htop H. induction H as [id Hin|id items id' _ IH Hc Hn].
  - now apply Htop.
  - eapply reachable_child; eassumption.
Qed.

Lemma walk_ok_nil (seen : gset nat) : walk_ok lists objs [] seen ([], seen).
Proof.
  unfold walk_ok. simpl. repeat split; try (intros; contradiction).
  - constructor.
  - now left.
  - intros [H|[]]. exact H.
  - intros id H. now apply names_nil in H.
Qed.

Section Loop.
Context (rec : list item -> Z -> gset nat -> option (list (Z * nat) * gset nat)).
Hypothesis rec_ok :
  forall l d seen r, rec l d seen = Some r -> walk_ok lists objs l seen r.

Lemma iter_loop_ok (outline : list item) (d : Z) (seen : gset nat)
      (r : list (Z * nat) * gset nat) :
  iter_loop lists objs rec outline d seen = Some r -> walk_ok lists objs outline seen r.
Proof.
  revert seen r. induction outline as [|it rest IH]; intros seen r.
  - intros [= <-]. apply walk_ok_nil.
  - destruct it as [l|id]; cbn [iter_loop].
    + destruct (rec (list_items lists l) d seen) as [[ys s1]|] eqn:Hl; [|discriminate].
      destruct (iter_loop lists objs rec rest d s1) as [[zs s2]|] eqn:Hr; [|discriminate].
      intros [= <-]. apply rec_ok in Hl. apply IH in Hr.
      destruct Hl as (Hnd1 & Hfresh1 & Hseen1 & Htop1 & Hcl1 & Hre1).
      destruct Hr as (Hnd2 & Hfresh2 & Hseen2 & Htop2 & Hcl2 & Hre2).
      unfold walk_ok, yielded_ids in *. cbn [fst snd] in *.
      rewrite map_app. repeat split.
      * apply NoDup_app. repeat split; [exact Hnd1 | | exact Hnd2].
        intros id H1 H2. apply list_elem_of_In in H1, H2.
        apply (Hfresh2 id H2). apply Hseen1. now right.
      * intros id Hin. apply in_app_or in Hin as [Hin|Hin]; [now apply Hfresh1|].
        intros Hs. apply (Hfresh2 id Hin). apply Hseen1. now left.
      * intros Hin. apply Hseen2 in Hin as [Hin|Hin].
        -- apply Hseen1 in Hin as [Hin|Hin]; [now left|].
           right. apply in_or_app. now left.
        -- right. apply in_or_app. now right.
      * intros [Hin|Hin].
        -- apply Hseen2. left. apply Hseen1. now left.
        -- apply in_app_or in Hin as [Hin|Hin].
           ++ apply Hseen2. left. apply Hseen1. now right.
           ++ apply Hseen2. now right.
      * intros id Hin. apply names_cons_list in Hin as [Hin|Hin]; [|now apply Htop2].
        apply Hseen2. left. now apply Htop1.
      * intros id id' Hin Hc. apply in_app_or in Hin as [Hin|Hin].
        -- apply Hseen2. left. eapply Hcl1; eassumption.
        -- eapply Hcl2; eassumption.
      * intros id Hin. apply in_app_or in Hin as [Hin|Hin].
        -- eapply reachable_within; [|apply Hre1, Hin].
           intros id' Hid'. apply reachable_top, names_cons_list. now left.
        -- eapply reachable_within; [|apply Hre2, Hin].
           intros id' Hid'. apply reachable_top, names_cons_list. now right.
    + destruct (bool_decide (id ∈ seen)) eqn:Hid.
      * apply bool_decide_eq_true in Hid. intros Hr. apply IH in Hr.
        destruct Hr as (Hnd2 & Hfresh2 & Hseen2 & Htop2 & Hcl2 & Hre2).
        unfold walk_ok in *. repeat split; try assumption.
        -- apply Hseen2.
        -- apply Hseen2.
        -- intros id' Hin. apply names_cons_obj in Hin as [->|Hin]; [|now apply Htop2].
           apply Hseen2. now left.
        -- intros id' Hin. eapply reachable_within; [|apply Hre2, Hin].
           intros id'' Hid''. apply reachable_top, names_cons_obj. now right.
      * apply bool_decide_eq_false in Hid.
        set (cs := child_items (heading objs id)).
        set (seen1 := {[id]} ∪ seen).
        assert (Hbelow : forall r1,
                  match cs with
                  | [] => Some ([], seen1)
                  | c :: cs' => rec (c :: cs') (d + 1) seen1
                  end = Some r1 -> walk_ok lists objs cs seen1 r1).
        { intros r1. destruct cs as [|c cs'] eqn:Hcs.
          - intros [= <-]. apply walk_ok_nil.
          - apply rec_ok. }
        destruct (match cs with
                  | [] => Some ([], seen1)
                  | c :: cs' => rec (c :: cs') (d + 1) seen1
                  end) as [[ys s1]|] eqn:Hl; [|discriminate].
        destruct (iter_loop lists objs rec rest d s1) as [[zs s2]|] eqn:Hr; [|discriminate].
        intros [= <-]. specialize (Hbelow _ eq_refl). apply IH in Hr.
        destruct Hbelow as (Hnd1 & Hfresh1 & Hseen1 & Htop1 & Hcl1 & Hre1).
        destruct Hr as (Hnd2 & Hfresh2 & Hseen2 & Htop2 & Hcl2 & Hre2).
        unfold walk_ok, yielded_ids in *. cbn [fst snd map] in *.
        rewrite map_app.
        assert (Hin1 : id ∈ seen1) by (apply elem_of_union_l; now apply elem_of_singleton_2).
        assert (Hsub : forall x, x ∈ seen -> x ∈ seen1) by (intros x; apply elem_of_union_r).
        assert (Hs1 : id ∈ s1) by (apply Hseen1; now left).
        repeat split.
        -- apply NoDup_cons. split.
           ++ intros Hin. apply list_elem_of_In, in_app_or in Hin as [Hin|Hin].
              ** apply (Hfresh1 id Hin). exact Hin1.
              ** apply (Hfresh2 id Hin). exact Hs1.
           ++ apply NoDup_app. repeat split; [exact Hnd1 | | exact Hnd2].
              intros id' H1 H2. apply list_elem_of_In in H1, H2.
              apply (Hfresh2 id' H2). apply Hseen1. now right.
        -- intros id' [<-|Hin]; [exact Hid|].
           apply in_app_or in Hin as [Hin|Hin].
           ++ intros Hs. apply (Hfresh1 id' Hin). now apply Hsub.
           ++ intros Hs. apply (Hfresh2 id' Hin). apply Hseen1. left. now apply Hsub.
        -- intros Hin. apply Hseen2 in Hin as [Hin|Hin].
           ++ apply Hseen1 in Hin as [Hin|Hin].
              ** apply elem_of_union in Hin as [Hin|Hin]; [|now left].
                 apply elem_of_singleton in Hin. right. now left.
              ** right. right. apply in_or_app. now left.
           ++ right. right. apply in_or_app. now right.
        -- intros [Hin|[<-|Hin]].
           ++ apply Hseen2. left. apply Hseen1. left. now apply Hsub.
           ++ apply Hseen2. now left.
           ++ apply in_app_or in Hin as [Hin|Hin].
              ** apply Hseen2. left. apply Hseen1. now right.
              ** apply Hseen2. now right.
        -- intros id' Hin. apply names_cons_obj in Hin as [->|Hin]; [|now apply Htop2].
           apply Hseen2. now left.
        -- intros id1 id' [<-|Hin] Hc.
           ++ apply Hseen2. left. now apply Htop1.
           ++ apply in_app_or in Hin as [Hin|Hin].
              ** apply Hseen2. left. eapply Hcl1; eassumption.
              ** eapply Hcl2; eassumption.
        -- assert (Hself : reachable lists objs (ItemObj id :: rest) id).
           { apply reachable_top, names_cons_obj. now left. }
           intros id' [<-|Hin]; [exact Hself|].
           apply in_app_or in Hin as [Hin|Hin].
           ++ eapply reachable_within; [|apply Hre1, Hin].
              intros id'' Hid''. eapply reachable_below; [exact Hself | exact Hid''].
           ++ eapply reachable_within; [|apply Hre2, Hin].
              intros id'' Hid''. apply reachable_top, names_cons_obj. now right.
Qed.
End Loop.

Lemma iter_outline_items_ok (fuel : nat) (outline : list item) (d : Z)
      (seen : gset nat) (r : list (Z * nat) * gset nat) :
  _iter_outline_items fuel lists objs outline d seen = Some r ->
  walk_ok lists objs outline seen r.
Proof.
  revert outline d seen r. induction fuel as [|fuel IH]; intros outline d seen r.
  - discriminate.
  - apply iter_loop_ok. exact IH.
Qed.
End WalkFacts.

Section WalkTermination.
Context (lists : gmap nat (list item)) (objs : gmap nat Heading).

(** More fuel never changes a result. *)
Lemma iter_loop_mono
      (rec rec' : list item -> Z -> gset nat -> option (list (Z * nat) * gset nat)) :
  (forall l d seen r, rec l d seen = Some r -> rec' l d seen = Some r) ->
  forall outline d seen r,
    iter_loop lists objs rec outline d seen = Some r ->
    iter_loop lists objs rec' outline d seen = Some r.
Proof.
  intros Hrec outline d. induction outline as [|it rest IH]; intros seen r.
  - exact (fun H => H).
  - destruct it as [l|id]; cbn [iter_loop].
    + destruct (rec (list_items lists l) d seen) as [[ys s1]|] eqn:Hl; [|discriminate].
      rewrite (Hrec _ _ _ _ Hl).
      destruct (iter_loop lists objs rec rest d s1) as [[zs s2]|] eqn:Hr; [|discriminate].
      now rewrite (IH _ _ Hr).
    + destruct (bool_decide (id ∈ seen)); [apply IH|].
      destruct (child_items (heading objs id)) as [|c cs].
      * destruct (iter_loop lists objs rec rest d ({[id]} ∪ seen)) as [[zs s2]|] eqn:Hr;
          [|discriminate].
        now rewrite (IH _ _ Hr).
      * destruct (rec (c :: cs) (d + 1) ({[id]} ∪ seen)) as [[ys s1]|] eqn:Hl;
          [|discriminate].
        rewrite (Hrec _ _ _ _ Hl).
        destruct (iter_loop lists objs rec rest d s1) as [[zs s2]|] eqn:Hr; [|discriminate].
        now rewrite (IH _ _ Hr).
Qed.

Lemma iter_outline_items_mono (fuel fuel' : nat) (outline : list item) (d : Z)
      (seen : gset nat) (r : list (Z * nat) * gset nat) :
  (fuel <= fuel')%nat ->
  _iter_outline_items fuel lists objs outline d seen = Some r ->
  _iter_outline_items fuel' lists objs outline d seen = Some r.
Proof.
  revert fuel' outline d seen r.
  induction fuel as [|fuel IH]; intros fuel' outline d seen r Hle; [discriminate|].
  destruct fuel' as [|fuel']; [lia|]. cbn [_iter_outline_items].
  apply iter_loop_mono. intros l d' seen' r'. apply IH. lia.
Qed.

Lemma returns_ok outline d seen r :
  returns lists objs outline d seen r -> walk_ok lists objs outline seen r.
Proof.
  intros [fuel0 H]. eapply iter_outline_items_ok. apply (H fuel0). lia.
Qed.

Lemma returns_nil d seen : returns lists objs [] d seen ([], seen).
Proof. exists 1%nat. intros [|fuel] H; [lia | reflexivity]. Qed.

Lemma returns_cons_list l rest d seen ys s1 zs s2 :
  returns lists objs (list_items lists l) d seen (ys, s1) ->
  returns lists objs rest d s1 (zs, s2) ->
  returns lists objs (ItemList l :: rest) d seen (ys ++ zs, s2).
Proof.
  intros [f1 H1] [f2 H2]. exists (S (Nat.max f1 f2)).
  intros [|fuel] Hle; [lia|]. cbn [_iter_outline_items iter_loop].
  rewrite (H1 fuel) by lia.
  change (iter_loop lists objs (_iter_outline_items fuel lists objs) rest d s1)
    with (_iter_outline_items (S fuel) lists objs rest d s1).
  rewrite (H2 (S fuel)) by lia. reflexivity.
Qed.

Lemma returns_cons_seen id rest d seen r :
  id ∈ seen -> returns lists objs rest d seen r -> returns lists objs (ItemObj id :: rest) d seen r.
Proof.
  intros Hin [f H]. exists (S f).
  intros [|fuel] Hle; [lia|]. cbn [_iter_outline_items iter_loop].
  rewrite bool_decide_eq_true_2 by exact Hin.
  change (iter_loop lists objs (_iter_outline_items fuel lists objs) rest d seen)
    with (_iter_outline_items (S fuel) lists objs rest d seen).
  apply H. lia.
Qed.

Lemma returns_cons_new id rest d seen ys s1 zs s2 :
  id ∉ seen ->
  returns lists objs (child_items (heading objs id)) (d + 1) ({[id]} ∪ seen) (ys, s1) ->
  returns lists objs rest d s1 (zs, s2) ->
  returns lists objs (ItemObj id :: rest) d seen ((d, id) :: ys ++ zs, s2).
Proof.
  intros Hin [f1 H1] [f2 H2]. exists (S (Nat.max f1 f2)).
  intros [|fuel] Hle; [lia|]. cbn [_iter_outline_items iter_loop].
  rewrite bool_decide_eq_false_2 by exact Hin.
  assert (Hbelow :
    match child_items (heading objs id) with
    | [] => Some ([], {[id]} ∪ seen)
    | c :: cs => _iter_outline_items fuel lists objs (c :: cs) (d + 1) ({[id]} ∪ seen)
    end = Some (ys, s1)).
  { specialize (H1 fuel ltac:(lia)).
    destruct (child_items (heading objs id)) as [|c cs]; [|exact H1].
    destruct fuel; [discriminate | exact H1]. }
  rewrite Hbelow.
  change (iter_loop lists objs (_iter_outline_items fuel lists objs) rest d s1)
    with (_iter_outline_items (S fuel) lists objs rest d s1).
  rewrite (H2 (S fuel)) by lia. reflexivity.
Qed.

Lemma has_children_in_dom (id : nat) :
  child_items (heading objs id) <> [] -> id ∈ dom objs.
Proof.
  unfold heading. intros H. apply elem_of_dom.
  destruct (objs !! id); [eauto | now contradiction H].
Qed.

Lemma unseen_mono (seen seen' : gset nat) :
  (forall id, id ∈ seen -> id ∈ seen') -> (unseen objs seen' <= unseen objs seen)%nat.
Proof.
  intros H. unfold unseen. apply subseteq_size. intros id Hid.
  apply elem_of_difference in Hid as [Hd Hn].
  apply elem_of_difference. split; [exact Hd | auto].
Qed.

Lemma unseen_visit (id : nat) (seen : gset nat) :
  id ∈ dom objs -> id ∉ seen -> (unseen objs ({[id]} ∪ seen) < unseen objs seen)%nat.
Proof.
  intros Hd Hn. unfold unseen. apply subset_size. split.
  - intros x Hx. apply elem_of_difference in Hx as [Hxd Hxn].
    apply elem_of_difference. split; [exact Hxd|].
    intros Hs. apply Hxn. now apply elem_of_union_r.
  - intros Hsub. assert (Hin : id ∈ dom objs ∖ ({[id]} ∪ seen)).
    { apply Hsub. apply elem_of_difference. now split. }
    apply elem_of_difference in Hin as [_ Hin]. apply Hin.
    apply elem_of_union_l. now apply elem_of_singleton_2.
Qed.

(** Every list object of the store is finitely nested. *)
Hypothesis lists_finite : forall list_id, finitely_nested lists list_id.

Section Bounded.
Context (n : nat).
Hypothesis below :
  forall m, (m < n)%nat -> forall outline d seen, (unseen objs seen <= m)%nat ->
    exists r, returns lists objs outline d seen r.

Lemma walk_returns_items (outline : list item) :
  (forall l d seen, In (ItemList l) outline -> (unseen objs seen <= n)%nat ->
     exists r, returns lists objs (list_items lists l) d seen r) ->
  forall d seen, (unseen objs seen <= n)%nat ->
    exists r, returns lists objs outline d seen r.
Proof.
  induction outline as [|[l|id] rest IH]; intros Hlists d seen Hn.
  - eexists. apply returns_nil.
  - destruct (Hlists l d seen) as [[ys s1] H1]; [now left | exact Hn |].
    destruct (returns_ok _ _ _ _ H1) as (_ & _ & Hs1 & _).
    destruct (IH (fun l' d' seen' Hin => Hlists l' d' seen' (or_intror Hin)) d s1)
      as [[zs s2] H2].
    { etransitivity; [|exact Hn]. apply unseen_mono.
      intros x Hx. apply Hs1. now left. }
    eexists. eapply returns_cons_list; eassumption.
  - pose proof (IH (fun l' d' seen' Hin => Hlists l' d' seen' (or_intror Hin)) d)
      as Hrest.
    destruct (decide (id ∈ seen)) as [Hin|Hnin].
    + destruct (Hrest seen Hn) as [r Hr].
      exists r. now apply returns_cons_seen.
    + assert (Hbelow : exists r,
                returns lists objs (child_items (heading objs id)) (d + 1)
                        ({[id]} ∪ seen) r).
      { destruct (child_items (heading objs id)) as [|c cs] eqn:Hcs.
        - eexists. apply returns_nil.
        - assert (Hd : id ∈ dom objs) by (apply has_children_in_dom; now rewrite Hcs).
          pose proof (unseen_visit id seen Hd Hnin) as Hlt.
          apply (below (unseen objs ({[id]} ∪ seen))); lia. }
      destruct Hbelow as [[ys s1] H1].
      destruct (returns_ok _ _ _ _ H1) as (_ & _ & Hs1 & _).
      destruct (Hrest s1) as [[zs s2] H2].
      { etransitivity; [|exact Hn]. apply unseen_mono.
        intros x Hx. apply Hs1. left. now apply elem_of_union_r. }
      eexists. eapply returns_cons_new; eassumption.
Qed.

Lemma walk_returns_list (l : nat) :
  forall d seen, (unseen objs seen <= n)%nat ->
    exists r, returns lists objs (list_items lists l) d seen r.
Proof.
  induction (lists_finite l) as [l _ IH].
  apply walk_returns_items. intros inner d seen Hin. now apply IH.
Qed.
End Bounded.

Lemma walk_returns_bounded (n : nat) :
  forall outline d seen, (unseen objs seen <= n)%nat ->
    exists r, returns lists objs outline d seen r.
Proof.
  induction n as [n IHn] using lt_wf_ind. intros outline.
  apply (walk_returns_items n IHn).
  intros l d seen _. now apply walk_returns_list.
Qed.

(** The walk terminates on every outline, whatever cycles the children of
    its heading objects form. *)
Lemma walk_returns (outline : list item) (d : Z) (seen : gset nat) :
  exists r, returns lists objs outline d seen r.
Proof. apply (walk_returns_bounded (unseen objs seen)). lia. Qed.
End WalkTermination.

Lemma finitely_nested_ranked (lists : gmap nat (list item)) (rank : nat -> nat) :
  (forall outer inner, In (ItemList inner) (list_items lists outer) ->
                       (rank inner < rank outer)%nat) ->
  forall list_id, finitely_nested lists list_id.
Proof.
  intros Hrank list_id. remember (rank list_id) as n eqn:Hn. revert list_id Hn.
  induction n as [n IH] using lt_wf_ind. intros list_id ->.
  constructor. intros inner Hin. apply (IH (rank inner)); [now apply Hrank | reflexivity].
Qed.

Lemma reachable_yielded (lists : gmap nat (list item)) (objs : gmap nat Heading)
      (outline : list item) (r : list (Z * nat) * gset nat) (id : nat) :
  walk_ok lists objs outline ∅ r ->
  reachable lists objs outline id <-> In id (yielded_ids (fst r)).
Proof.
  intros (Hnd & Hfresh & Hseen & Htop & Hcl & Hre). split; [|apply Hre].
  assert (Hin : forall x, x ∈ snd r -> In x (yielded_ids (fst r))).
  { intros x Hx. apply Hseen in Hx as [Hx|Hx]; [|exact Hx].
    now apply not_elem_of_empty in Hx. }
  induction 1 as [id Hid|id items id' _ IH Hc Hn].
  - apply Hin, Htop, Hid.
  - apply Hin. eapply Hcl; [exact IH|]. apply names_child_items. now exists items.
Qed.

Lemma collect_unfold (fuel : nat) (reader : PdfReader) :
  collect_outline_entries fuel reader =
  match _iter_outline_items fuel (list_objects reader) (objects reader)
                            (reader_outline reader) 0 ∅ with
  | Some (yielded, _) => Some (sort_by_page_index (omap (entry_of reader) yielded))
  | None => None
  end.
Proof. reflexivity. Qed.

(** *** Stored entries and the sort *)

Lemma int_page_stored (entry : OutlineEntry) : int_page (stored entry) = Some entry.
Proof. now destruct entry. Qed.

Lemma int_page_Some (entry : StoredEntry) (typed : OutlineEntry) :
  int_page entry = Some typed -> entry = stored typed.
Proof.
  unfold int_page, stored. destruct entry as [t [p|] d]; cbn; [|discriminate].
  now intros [= <-].
Qed.

Lemma int_pages_Some (entries : list StoredEntry) (typed : list OutlineEntry) :
  int_pages entries = Some typed -> entries = map stored typed.
Proof.
  intros H. apply mapM_Some_1 in H.
  induction H as [|e t entries typed He _ IH]; [reflexivity|].
  cbn [map]. now rewrite (int_page_Some _ _ He), IH.
Qed.

Lemma int_pages_stored (typed : list OutlineEntry) :
  int_pages (map stored typed) = Some typed.
Proof.
  apply mapM_Some_2. induction typed as [|t typed IH]; constructor;
    [apply int_page_stored | exact IH].
Qed.

Lemma int_pages_total (entries : list StoredEntry) :
  (forall entry, In entry entries -> page_index entry <> None) ->
  exists typed, int_pages entries = Some typed.
Proof.
  intros Hint. destruct (int_pages entries) as [typed|] eqn:H; [now exists typed|].
  apply mapM_None_1, Exists_exists in H as (entry & Hin & He).
  exfalso. apply (Hint entry); [now apply list_elem_of_In|].
  unfold int_page in He. now destruct (page_index entry).
Qed.

Lemma int_pages_None (entries : list StoredEntry) :
  int_pages entries = None <-> exists entry, In entry entries /\ page_index entry = None.
Proof.
  unfold int_pages. rewrite mapM_None, Exists_exists. split.
  - intros (entry & Hin & He). exists entry. split; [now apply list_elem_of_In|].
    unfold int_page in He. now destruct (page_index entry).
  - intros (entry & Hin & He). exists entry. split; [now apply list_elem_of_In|].
    unfold int_page. now rewrite He.
Qed.

Lemma sort_by_page_index_int (entries : list StoredEntry) (typed : list OutlineEntry) :
  int_pages entries = Some typed ->
  sort_by_page_index entries = inr (map stored (sorted_by page_index typed)).
Proof.
  intros H. pose proof (int_pages_Some _ _ H) as ->.
  destruct typed as [|a [|b typed]]; [reflexivity | reflexivity|].
  cbn [map] in *. unfold sort_by_page_index. now rewrite H.
Qed.

(** The sort raises exactly when it has to compare a [None]. *)
Lemma sort_by_page_index_raises (entries : list StoredEntry) :
  sort_by_page_index entries = inl TypeError
  <-> (2 <= length entries)%nat
      /\ exists entry, In entry entries /\ page_index entry = None.
Proof.
  destruct entries as [|a [|b entries]].
  - cbn. split; [discriminate | intros [H _]; lia].
  - cbn. split; [discriminate | intros [H _]; lia].
  - unfold sort_by_page_index.
    destruct (int_pages (a :: b :: entries)) as [typed|] eqn:H.
    + split; [discriminate|]. intros [_ Hex]. apply int_pages_None in Hex. congruence.
    + split; [|reflexivity]. intros _. split; [cbn [length]; lia|].
      now apply int_pages_None.
Qed.

(** *** The loop of [collect_outline_entries] *)

Lemma entry_of_emits (reader : PdfReader) (di : Z * nat) (entry : StoredEntry) :
  entry_of reader di = Some entry <-> emits reader di entry.
Proof.
  destruct di as [d id]. unfold entry_of, emits. cbn [fst snd]. split.
  - destruct (heading_title (heading (objects reader) id)) as [raw|]; [|discriminate].
    destruct (bool_decide (raw = EmptyString)) eqn:Hraw; [discriminate|].
    apply bool_decide_eq_false in Hraw.
    destruct (get_destination_page_number reader id) as [|page]; [discriminate|].
    intros [= <-]. now exists raw, page.
  - intros (raw & page & -> & Hraw & -> & ->).
    now rewrite (bool_decide_eq_false_2 _ Hraw).
Qed.

Lemma omap_entry_of_emitted (reader : PdfReader) (yielded : list (Z * nat)) :
  emitted reader yielded (omap (entry_of reader) yielded).
Proof.
  induction yielded as [|di yielded IH]; [constructor|].
  cbn [omap list_omap]. destruct (entry_of reader di) as [entry|] eqn:He.
  - apply emitted_keep; [now apply entry_of_emits | exact IH].
  - apply emitted_skip; [|exact IH].
    intros entry Hentry. apply entry_of_emits in Hentry. congruence.
Qed.

Lemma emitted_from (reader : PdfReader) (yielded : list (Z * nat))
      (entries : list StoredEntry) :
  emitted reader yielded entries ->
  forall entry, In entry entries -> exists di, In di yielded /\ emits reader di entry.
Proof.
  induction 1 as [|di yielded entries _ _ IH|di yielded e entries He _ IH];
    intros entry Hin.
  - destruct Hin.
  - destruct (IH entry Hin) as (di' & Hdi & Hem). exists di'. split; [now right | exact Hem].
  - destruct Hin as [<-|Hin].
    + exists di. split; [now left | exact He].
    + destruct (IH entry Hin) as (di' & Hdi & Hem). exists di'.
      split; [now right | exact Hem].
Qed.

(** With no [None] among the pages the resolver returns for the yielded
    objects, the sort has only [int] keys to compare. *)
Lemma collected_int_pages (reader : PdfReader) (yielded : list (Z * nat)) :
  (forall id, In id (yielded_ids yielded) ->
              get_destination_page_number reader id <> Returns None) ->
  exists typed,
    omap (entry_of reader) yielded = map stored typed
    /\ sort_by_page_index (omap (entry_of reader) yielded)
       = inr (map stored (sorted_by page_index typed)).
Proof.
  intros Hint.
  destruct (int_pages_total (omap (entry_of reader) yielded)) as [typed Htyped].
  { intros entry Hin Hnone.
    destruct (emitted_from _ _ _ (omap_entry_of_emitted reader yielded) entry Hin)
      as ([d id] & Hdi & raw & page & _ & _ & Hpage & ->).
    cbn [fst snd page_index] in *. subst page.
    apply (Hint id); [|exact Hpage].
    unfold yielded_ids. apply in_map_iff. now exists (d, id). }
  exists typed. split; [now apply int_pages_Some | now apply sort_by_page_index_int].
Qed.

(** C3.  Let no list object of the reader hold an endless chain of lists
    inside lists.  Then, whatever cycles the children of its heading objects
    form, the walk returns (for every large enough bound on the recursion
    depth, with one and the same result); no object is yielded twice; the
    objects yielded are the reachable ones, so an object that is its own
    child, like any other reachable object, is yielded exactly once; and when
    the resolver returns no [None] for a reachable object, the collected
    entries are the entries of the yielded objects, ordered by page index. *)
Theorem walk_terminates_visiting_once (reader : PdfReader) :
  (forall list_id, finitely_nested (list_objects reader) list_id) ->
  exists (yielded : list (Z * nat)) (seen : gset nat) (fuel0 : nat),
    (forall fuel, (fuel0 <= fuel)%nat ->
       _iter_outline_items fuel (list_objects reader) (objects reader)
                           (reader_outline reader) 0 ∅
       = Some (yielded, seen))
    /\ NoDup (yielded_ids yielded)
    /\ (forall id, reachable (list_objects reader) (objects reader)
                             (reader_outline reader) id
                   <-> In id (yielded_ids yielded))
    /\ (forall id, reachable (list_objects reader) (objects reader)
                             (reader_outline reader) id ->
          count_occ Nat.eq_dec (yielded_ids yielded) id = 1%nat)
    /\ ((forall id, reachable (list_objects reader) (objects reader)
                              (reader_outline reader) id ->
           get_destination_page_number reader id <> Returns None) ->
        exists (unsorted : list StoredEntry) (entries : list OutlineEntry),
          emitted reader yielded unsorted
          /\ (forall fuel, (fuel0 <= fuel)%nat ->
                collect_outline_entries fuel reader = Some (inr (map stored entries)))
          /\ Permutation (map stored entries) unsorted
          /\ ordered_by page_index entries).
Proof.
  intros Hfinite.
  destruct (walk_returns (list_objects reader) (objects reader) Hfinite
                         (reader_outline reader) 0 ∅)
    as [[yielded seen] Hret].
  pose proof (returns_ok _ _ _ _ _ _ Hret) as Hok.
  destruct Hret as [fuel0 Hfuel].
  exists yielded, seen, fuel0.
  pose proof (fun id => reachable_yielded _ _ _ _ id Hok) as Hreach.
  cbn [fst] in Hreach.
  split; [|split; [|split; [|split]]].
  - exact Hfuel.
  - apply Hok.
  - exact Hreach.
  - intros id Hid. apply NoDup_count_occ'.
    + apply NoDup_ListNoDup, Hok.
    + now apply Hreach.
  - intros Hint.
    destruct (collected_int_pages reader yielded) as (typed & Htyped & Hsort).
    { intros id Hid. now apply Hint, Hreach. }
    exists (omap (entry_of reader) yielded), (sorted_by page_index typed).
    split; [apply omap_entry_of_emitted|]. split; [|split].
    + intros fuel Hle. now rewrite collect_unfold, (Hfuel fuel Hle), Hsort.
    + rewrite Htyped. apply Permutation_map, sorted_by_perm.
    + apply sorted_by_ordered.
Qed.

(** A list that holds itself: the walk enters it again and again, whatever
    the bound on the recursion depth, and nothing is collected. *)
Lemma list_holding_itself_never_returns :
  let lists : gmap nat (list item) := {[ 0%nat := [ItemList 0] ]} in
  let reader := mkReader (Some [ItemList 0]) None lists ∅ (fun _ => Raises) 1 in
  (forall fuel, _iter_outline_items fuel lists ∅ [ItemList 0] 0 ∅ = None)
  /\ (forall fuel, collect_outline_entries fuel reader = None).
Proof.
  intros lists reader.
  assert (H : forall fuel, _iter_outline_items fuel lists ∅ [ItemList 0] 0 ∅ = None).
  { induction fuel as [|fuel IH]; [reflexivity|].
    cbn [_iter_outline_items iter_loop].
    replace (list_items lists 0) with [ItemList 0] by reflexivity.
    now rewrite IH. }
  split; [exact H|]. intros fuel. rewrite collect_unfold. apply (f_equal (fun o =>
    match o with Some (yielded, _) =>
      Some (sort_by_page_index (omap (entry_of reader) yielded)) | None => None end)
    (H fuel)).
Qed.

Lemma finitely_nested_flat (lists : gmap nat (list item)) :
  (forall outer inner, ~ In (ItemList inner) (list_items lists outer)) ->
  forall list_id, finitely_nested lists list_id.
Proof.
  intros Hflat. apply (finitely_nested_ranked lists (fun _ => 0%nat)).
  intros outer inner Hin. now apply Hflat in Hin.
Qed.

Lemma finitely_nested_empty (list_id : nat) : finitely_nested ∅ list_id.
Proof.
  revert list_id. apply finitely_nested_flat. intros outer inner.
  unfold list_items. rewrite lookup_empty. exact (fun H => H).
Qed.

Lemma walk_terminates_visiting_once_witness :
  let reader :=
    mkReader (Some [ItemList 10; ItemObj 3; ItemObj 4; ItemObj 2]) None
      {[ 10%nat := [ItemObj 1; ItemList 11]; 11%nat := [ItemObj 2] ]}
      {[ 1%nat := mkHeading (Some "Part"%string)
                            (ChildCall (Some [ItemList 11; ItemObj 1]));
         2%nat := mkHeading (Some "Chapter 1"%string)
                            (ChildItems [ItemObj 1; ItemObj 3; ItemObj 2]);
         3%nat := mkHeading None (ChildCall None);
         4%nat := mkHeading (Some "Chapter 2"%string) NoChildren ]}
      (fun id => if Nat.eqb id 1 then Returns (Some 30)
                 else if Nat.eqb id 2 then Returns (Some 4)
                 else Raises)
      100 in
  exists (yielded : list (Z * nat)) (entries : list OutlineEntry) (fuel0 : nat),
    (forall fuel, (fuel0 <= fuel)%nat ->
       collect_outline_entries fuel reader = Some (inr (map stored entries)))
    /\ NoDup (yielded_ids yielded)
    /\ (forall id, reachable (list_objects reader) (objects reader)
                             (reader_outline reader) id
                   <-> In id (yielded_ids yielded))
    /\ ordered_by page_index entries.
Proof.
  intros reader.
  destruct (walk_terminates_visiting_once reader)
    as (yielded & seen & fuel0 & _ & Hnd & Hreach & _ & Hsorted).
  { apply (finitely_nested_ranked _ (fun a => if Nat.eqb a 10 then 1%nat else 0%nat)).
    intros outer inner. unfold list_items. cbn [list_objects reader].
    destruct (decide (outer = 10%nat)) as [->|H10].
    - vm_compute. intros [[=]|[[= <-]|[]]]. lia.
    - rewrite lookup_insert_ne by congruence.
      destruct (decide (outer = 11%nat)) as [->|H11].
      + vm_compute. intros [[=]|[]].
      + rewrite lookup_singleton_ne by congruence. intros []. }
  destruct Hsorted as (unsorted & entries & _ & Hcollect & _ & Hordered).
  { intros id _. cbn [get_destination_page_number reader].
    destruct (Nat.eqb id 1); [discriminate|]. destruct (Nat.eqb id 2); discriminate. }
  exists yielded, entries, fuel0. auto.
Defined.

Example walk_self_child :
  let objs : gmap nat Heading :=
    {[ 7%nat := mkHeading (Some "Chapter 1"%string) (ChildItems [ItemObj 7]) ]} in
  _iter_outline_items 2 ∅ objs [ItemObj 7] 0 ∅ = Some ([(0, 7%nat)], {[ 7%nat ]}).
Proof. vm_compute. reflexivity. Qed.

Example walk_cycle_through_lists :
  let lists : gmap nat (list item) :=
    {[ 10%nat := [ItemObj 1]; 11%nat := [ItemObj 2; ItemObj 1] ]} in
  let objs : gmap nat Heading :=
    {[ 1%nat := mkHeading (Some "Part"%string) (ChildCall (Some [ItemList 11]));
       2%nat := mkHeading (Some "Chapter 1"%string) (ChildItems [ItemObj 1; ItemObj 3]);
       3%nat := mkHeading None (ChildCall None) ]} in
  fst <$> _iter_outline_items 5 lists objs [ItemList 10; ItemObj 3; ItemObj 2] 0 ∅
  = Some [(0, 1%nat); (1, 2%nat); (2, 3%nat)].
Proof. vm_compute. reflexivity. Qed.

(** A list shared by two places is walked at both; the objects it holds are
    yielded once. *)
Example walk_shared_list :
  let lists : gmap nat (list item) := {[ 10%nat := [ItemObj 1; ItemObj 2] ]} in
  fst <$> _iter_outline_items 2 lists ∅ [ItemList 10; ItemObj 3; ItemList 10] 0 ∅
  = Some [(0, 1%nat); (0, 2%nat); (0, 3%nat)].
Proof. vm_compute. reflexivity. Qed.

Lemma collect_outline_entries_mono (fuel fuel' : nat) (reader : PdfReader)
      (outcome : type_error + list StoredEntry) :
  (fuel <= fuel')%nat ->
  collect_outline_entries fuel reader = Some outcome ->
  collect_outline_entries fuel' reader = Some outcome.
Proof.
  intros Hle. rewrite !collect_unfold.
  destruct (_iter_outline_items fuel (list_objects reader) (objects reader)
                                (reader_outline reader) 0 ∅)
    as [[yielded seen]|] eqn:Hwalk; [|discriminate].
  now rewrite (iter_outline_items_mono _ _ _ _ _ _ _ _ Hle Hwalk).
Qed.

Lemma extract_chapter_ranges_mono (fuel fuel' : nat) (reader : PdfReader)
      (outcome : type_error + list ChapterRange) :
  (fuel <= fuel')%nat ->
  extract_chapter_ranges fuel reader = Some outcome ->
  extract_chapter_ranges fuel' reader = Some outcome.
Proof.
  intros Hle. unfold extract_chapter_ranges.
  destruct (collect_outline_entries fuel reader) as [collected|] eqn:Hc; [|discriminate].
  now rewrite (collect_outline_entries_mono _ _ _ _ Hle Hc).
Qed.

(** C9.  A resolver that returns [None] for one of two titled bookmarks: no
    exception is raised where the loop would catch it, the entry is kept with
    [page_index] [None], and the sort raises TypeError out of
    [collect_outline_entries].  With that bookmark alone the entry is
    returned and [build_chapter_ranges] raises.  Had the resolver raised, the
    entry alone would have been left out. *)
Theorem collect_none_page_raises :
  let objs : gmap nat Heading :=
    {[ 1%nat := mkHeading (Some "Chapter 1"%string) NoChildren;
       2%nat := mkHeading (Some "Chapter 2"%string) NoChildren ]} in
  let resolver := fun id : nat => if Nat.eqb id 2 then Returns None else Returns (Some 4) in
  let reader := mkReader (Some [ItemObj 1; ItemObj 2]) None ∅ objs resolver 100 in
  let alone := mkReader (Some [ItemObj 2]) None ∅ objs resolver 100 in
  (forall fuel, (1 <= fuel)%nat ->
     collect_outline_entries fuel reader = Some (inl TypeError)
     /\ extract_chapter_ranges fuel reader = Some (inl TypeError))
  /\ (forall fuel, (1 <= fuel)%nat ->
        collect_outline_entries fuel alone
        = Some (inr [mkOutlineEntry "Chapter 2" None 0])
        /\ extract_chapter_ranges fuel alone = Some (inl TypeError))
  /\ (forall fuel, (1 <= fuel)%nat ->
        collect_outline_entries fuel (fail_at 2 reader)
        = Some (inr [mkOutlineEntry "Chapter 1" (Some 4) 0])).
Proof.
  intros objs resolver reader alone.
  split; [|split]; intros fuel Hle; [split | split |].
  - now apply (collect_outline_entries_mono 1).
  - now apply (extract_chapter_ranges_mono 1).
  - now apply (collect_outline_entries_mono 1).
  - now apply (extract_chapter_ranges_mono 1).
  - now apply (collect_outline_entries_mono 1).
Qed.

Example collect_with_one_failure :
  let reader :=
    mkReader (Some [ItemObj 1; ItemList 10; ItemObj 4]) None
      {[ 10%nat := [ItemObj 2; ItemObj 3] ]}
      {[ 1%nat := mkHeading (Some "Chapter 2"%string) NoChildren;
         2%nat := mkHeading (Some " Broken "%string) (ChildItems [ItemObj 5]);
         3%nat := mkHeading (Some EmptyString) NoChildren;
         5%nat := mkHeading (Some " Chapter 1 "%string) NoChildren ]}
      (fun id => if Nat.eqb id 1 then Returns (Some 30)
                 else if Nat.eqb id 5 then Returns (Some 4)
                 else Raises)
      100 in
  collect_outline_entries 3 reader
  = Some (inr [mkOutlineEntry "Chapter 1" (Some 4) 1;
               mkOutlineEntry "Chapter 2" (Some 30) 0]).
Proof. vm_compute. reflexivity. Qed.

(** ** Chapter selector *)

Lemma py_min_spec (x : Z) (xs : list Z) :
  In (py_min x xs) (x :: xs) /\ forall y, In y (x :: xs) -> py_min x xs <= y.
Proof.
  unfold py_min. revert x. induction xs as [|z xs IH]; intros x; simpl.
  - split; [now left|]. intros y [<-|[]]. lia.
  - destruct (IH (Z.min x z)) as [Hin Hle]. split.
    + destruct Hin as [Hm|Hin]; [|now right; right].
      rewrite <- Hm. destruct (Z.min_spec x z) as [[_ ->]|[_ ->]]; auto.
    + intros y Hy.
      assert (fold_left Z.min xs (Z.min x z) <= Z.min x z) by (apply Hle; now left).
      destruct Hy as [<-|[<-|Hy]]; [lia | lia |].
      apply Hle. now right.
Qed.

Lemma filter_sublist {A : Type} (f : A -> bool) (l : list A) :
  sublist (List.filter f l) l.
Proof.
  induction l as [|x l IH]; simpl; [constructor|].
  destruct (f x); now constructor.
Qed.

(** C5.  The selector returns the entries the classifier accepts when there
    are any; otherwise nothing for an empty input; otherwise exactly the
    entries at the least depth.  In every case the result keeps the order of
    the input. *)
Theorem pick_chapter_entries_policy (entries : list OutlineEntry) :
  let chapters := List.filter (fun e => is_chapter_title (title e)) entries in
  (chapters <> [] -> pick_chapter_entries entries = chapters)
  /\ (chapters = [] -> entries = [] -> pick_chapter_entries entries = [])
  /\ (chapters = [] -> entries <> [] ->
        exists min_depth,
          (exists e, e ∈ entries /\ depth e = min_depth)
          /\ (forall e, e ∈ entries -> min_depth <= depth e)
          /\ pick_chapter_entries entries
             = List.filter (fun e => depth e =? min_depth) entries
          /\ pick_chapter_entries entries <> [])
  /\ sublist (pick_chapter_entries entries) entries.
Proof.
  intros chapters. unfold pick_chapter_entries. fold chapters.
  split; [|split; [|split]].
  - destruct chapters; [congruence | reflexivity].
  - intros -> ->. reflexivity.
  - intros -> Hne. destruct entries as [|first others]; [congruence|].
    set (m := py_min (depth first) (map depth others)).
    destruct (py_min_spec (depth first) (map depth others)) as [Hin Hle].
    fold m in Hin, Hle.
    assert (Hex : exists e, e ∈ first :: others /\ depth e = m).
    { change (depth first :: map depth others) with (map depth (first :: others)) in Hin.
      apply in_map_iff in Hin as (e & He & Hin). exists e.
      split; [now apply list_elem_of_In | exact He]. }
    exists m. repeat split.
    + exact Hex.
    + intros e He. apply Hle.
      change (depth first :: map depth others) with (map depth (first :: others)).
      apply in_map, list_elem_of_In, He.
    + destruct Hex as (e & He & Hd). intros Hnil.
      assert (Hin' : In e (List.filter (fun e => depth e =? m) (first :: others))).
      { apply filter_In. split; [now apply list_elem_of_In | now apply Z.eqb_eq]. }
      rewrite Hnil in Hin'. destruct Hin'.
  - destruct chapters eqn:Hc.
    + destruct entries; [constructor | apply filter_sublist].
    + rewrite <- Hc. apply filter_sublist.
Qed.

Example pick_falls_back_to_least_depth :
  let preface := mkOutlineEntry "Preface" 0 1 in
  let intro := mkOutlineEntry "Introduction" 4 1 in
  let background := mkOutlineEntry "Background" 9 2 in
  pick_chapter_entries [preface; intro; background] = [preface; intro].
Proof. vm_compute. reflexivity. Qed.

Example pick_prefers_chapter_titles :
  let preface := mkOutlineEntry "Preface" 0 0 in
  let one := mkOutlineEntry "Chapter 1" 4 1 in
  let two := mkOutlineEntry "Chapter II" 9 2 in
  pick_chapter_entries [preface; one; two] = [one; two].
Proof. vm_compute. reflexivity. Qed.

(** ** Range builder *)

(** The range emitted for entry [e] when the next sorted entry is [next]. *)
Lemma build_lookup (entries : list OutlineEntry) (total_pages : Z) (i : nat) :
  let sorted := sorted_by page_index entries in
  build_chapter_ranges entries total_pages !! i =
  (fun e => mkChapterRange (title e) (page_index e + 1)
              (match sorted !! S i with
               | Some next => page_index next
               | None => total_pages
               end)) <$> sorted !! i.
Proof.
  intros sorted. unfold build_chapter_ranges.
  destruct entries as [|e0 entries]; [reflexivity|].
  fold sorted. rewrite list_lookup_imap.
  destruct (sorted !! i) as [e|] eqn:He; [|reflexivity]. simpl. f_equal.
  replace (i + 1)%nat with (S i) by lia.
  destruct (sorted !! S i) as [next|] eqn:Hn.
  - rewrite bool_decide_eq_true_2 by (eapply lookup_lt_Some; exact Hn).
    rewrite (nth_lookup_Some _ _ _ _ Hn). f_equal. lia.
  - rewrite bool_decide_eq_false_2
      by (apply lookup_ge_None in Hn; unfold sorted in *; lia).
    f_equal. lia.
Qed.

Lemma build_length (entries : list OutlineEntry) (total_pages : Z) :
  length (build_chapter_ranges entries total_pages) = length entries.
Proof.
  unfold build_chapter_ranges. destruct entries as [|e0 entries]; [reflexivity|].
  rewrite length_imap. apply sorted_by_length.
Qed.

Lemma StronglySorted_of_lookup {A : Type} (R : A -> A -> Prop) (l : list A) :
  (forall i j a b, (i < j)%nat -> l !! i = Some a -> l !! j = Some b -> R a b) ->
  StronglySorted R l.
Proof.
  induction l as [|x l IH]; intros H; constructor.
  - apply IH. intros i j a b Hij Ha Hb. apply (H (S i) (S j)); [lia | assumption..].
  - apply Forall_forall. intros y Hy.
    apply list_elem_of_lookup in Hy as [j Hj].
    apply (H 0%nat (S j)); [lia | reflexivity | exact Hj].
Qed.

(** A page between the first start and [total_pages] lies in some range. *)
Lemma ordered_cover (l : list OutlineEntry) (h : OutlineEntry) (total_pages p : Z) :
  ordered_by page_index l -> l !! 0%nat = Some h ->
  page_index h + 1 <= p <= total_pages ->
  exists i e, l !! i = Some e /\ page_index e + 1 <= p /\
    p <= match l !! S i with Some next => page_index next | None => total_pages end.
Proof.
  intros Hs. revert h. induction Hs as [|x l Hl IH Hx]; intros h Hh Hp; [discriminate|].
  injection Hh as ->.
  destruct l as [|y l].
  - exists 0%nat, h. simpl. repeat split; [lia..].
  - destruct (Z_le_gt_dec p (page_index y)) as [Hle|Hgt].
    + exists 0%nat, h. simpl. repeat split; [lia | exact Hle].
    + destruct (IH y eq_refl ltac:(lia)) as (i & e & He & H1 & H2).
      exists (S i), e. simpl. auto.
Qed.

(** C1 (amended).  The builder works on the entries stably sorted by position;
    the range at index [i] is titled like the [i]-th sorted entry, starts on page
    [position(i) + 1] and ends on page [position(i+1)] (one page before the
    next start) when a next entry exists, else on [total_pages]; no entries
    give no ranges. *)
Theorem build_boundary_arithmetic (entries : list OutlineEntry) (total_pages : Z) :
  let sorted := sorted_by page_index entries in
  let ranges := build_chapter_ranges entries total_pages in
  (Permutation sorted entries /\ ordered_by page_index sorted /\
   forall k, with_key page_index k sorted = with_key page_index k entries)
  /\ length ranges = length sorted
  /\ (forall i e, sorted !! i = Some e ->
        exists r, ranges !! i = Some r /\ range_title r = title e /\
          start_page r = page_index e + 1 /\
          end_page r = match sorted !! S i with
                       | Some next => page_index next
                       | None => total_pages
                       end)
  /\ build_chapter_ranges [] total_pages = [].
Proof.
  intros sorted ranges. split; [|split; [|split]].
  - split; [apply sorted_by_perm|]. split; [apply sorted_by_ordered|].
    intros k. apply sorted_by_stable.
  - unfold ranges, sorted. now rewrite build_length, sorted_by_length.
  - intros i e He. unfold ranges. rewrite build_lookup. fold sorted. rewrite He.
    eexists. split; [reflexivity|]. simpl. auto.
  - reflexivity.
Qed.

(** C1 as stated fails: for positions 0, 50, 120 the first range ends on page
    50, the position of the next entry, not on page 49. *)
Lemma build_end_is_next_position_not_one_less :
  let entries := [entry_at 0; entry_at 50; entry_at 120] in
  let sorted := sorted_by page_index entries in
  let ranges := build_chapter_ranges entries 200 in
  exists r next, ranges !! 0%nat = Some r /\ sorted !! 1%nat = Some next /\
    end_page r = 50 /\ end_page r <> page_index next - 1.
Proof.
  exists (mkChapterRange EmptyString 1 50), (entry_at 50).
  repeat split; simpl; lia.
Qed.

Example build_three_chapters :
  map (fun r => (start_page r, end_page r))
      (build_chapter_ranges [entry_at 0; entry_at 50; entry_at 120] 200)
  = [(1, 50); (51, 120); (121, 200)].
Proof. reflexivity. Qed.

Example build_sorts_first :
  build_chapter_ranges [entry_at 120; entry_at 0; entry_at 50] 200
  = build_chapter_ranges [entry_at 0; entry_at 50; entry_at 120] 200.
Proof. reflexivity. Qed.

(** Facts shared by the range-builder theorems: the first sorted entry has the
    least position, consecutive ranges abut, the last range ends on
    [total_pages]. *)
Lemma sorted_head_min (entries : list OutlineEntry) :
  entries <> [] ->
  exists first, sorted_by page_index entries !! 0%nat = Some first /\
    first ∈ entries /\
    forall e, e ∈ entries -> page_index first <= page_index e.
Proof.
  intros Hne.
  destruct (sorted_by page_index entries) as [|first rest] eqn:Hs.
  { apply (f_equal length) in Hs. rewrite sorted_by_length in Hs.
    destruct entries; [congruence | discriminate]. }
  exists first. split; [reflexivity|].
  pose proof (sorted_by_perm page_index entries) as Hp. rewrite Hs in Hp.
  pose proof (sorted_by_ordered page_index entries) as Ho. rewrite Hs in Ho.
  split.
  - rewrite <- Hp. now left.
  - intros e He. eapply ordered_by_head_le; [exact Ho|].
    apply list_elem_of_In. now rewrite Hp.
Qed.

Lemma build_last (entries : list OutlineEntry) (total_pages : Z) :
  entries <> [] ->
  exists final, last (build_chapter_ranges entries total_pages) = Some final /\
    end_page final = total_pages.
Proof.
  intros Hne.
  pose proof (build_length entries total_pages) as Hlen.
  set (ranges := build_chapter_ranges entries total_pages) in *.
  destruct (last ranges) as [final|] eqn:Hl.
  - exists final. split; [reflexivity|].
    rewrite last_lookup in Hl. unfold ranges in Hl. rewrite build_lookup in Hl.
    fold ranges in Hl.
    assert (Hn : S (Nat.pred (length ranges)) = length (sorted_by page_index entries)).
    { rewrite sorted_by_length, Hlen. destruct entries; [congruence | simpl; lia]. }
    rewrite Hn in Hl.
    rewrite (lookup_ge_None_2 _ (length _)) in Hl by lia.
    destruct (sorted_by page_index entries !! _); [|discriminate].
    simpl in Hl. injection Hl as <-. reflexivity.
  - apply last_None in Hl. rewrite Hl in Hlen. destruct entries; [congruence | discriminate].
Qed.

Lemma build_consecutive (entries : list OutlineEntry) (total_pages : Z)
      (i : nat) (r r' : ChapterRange) :
  build_chapter_ranges entries total_pages !! i = Some r ->
  build_chapter_ranges entries total_pages !! S i = Some r' ->
  start_page r' = end_page r + 1.
Proof.
  rewrite !build_lookup. intros Hr Hr'.
  destruct (sorted_by page_index entries !! i) as [e|]; [|discriminate].
  destruct (sorted_by page_index entries !! S i) as [e'|]; [|discriminate].
  simpl in *. injection Hr as <-. injection Hr' as <-. reflexivity.
Qed.

(** A range lies between the positions of its entry and of the next one. *)
Lemma build_range_bounds (entries : list OutlineEntry) (total_pages : Z)
      (i : nat) (r : ChapterRange) :
  build_chapter_ranges entries total_pages !! i = Some r ->
  exists e, sorted_by page_index entries !! i = Some e /\
    start_page r = page_index e + 1 /\
    forall j e', (i < j)%nat -> sorted_by page_index entries !! j = Some e' ->
      end_page r <= page_index e'.
Proof.
  rewrite build_lookup. intros Hr.
  destruct (sorted_by page_index entries !! i) as [e|] eqn:He; [|discriminate].
  simpl in Hr. injection Hr as <-. exists e. simpl. repeat split.
  intros j e' Hij He'.
  destruct (sorted_by page_index entries !! S i) as [next|] eqn:Hn.
  - eapply (ordered_by_lookup_le page_index _ (S i) j);
      [apply sorted_by_ordered | lia | exact Hn | exact He'].
  - apply lookup_ge_None in Hn. apply lookup_lt_Some in He'. lia.
Qed.

(** C2 (amended).  For a non-empty entry list and [total_pages >= 1] the
    ranges are ordered by [start_page], no page lies in two of them, the last
    one ends on [total_pages], and together they cover every page from the
    least position plus one up to [total_pages] and no page before it: pages
    up to the first heading belong to no range. *)
Theorem build_ranges_partition (entries : list OutlineEntry) (total_pages : Z) :
  entries <> [] -> 1 <= total_pages ->
  let ranges := build_chapter_ranges entries total_pages in
  StronglySorted (fun a b => start_page a <= start_page b) ranges
  /\ (forall i j a b p, (i < j)%nat -> ranges !! i = Some a -> ranges !! j = Some b ->
        in_range p a -> ~ in_range p b)
  /\ (exists first, first ∈ entries /\
        (forall e, e ∈ entries -> page_index first <= page_index e) /\
        (forall p, page_index first + 1 <= p <= total_pages ->
           exists r, r ∈ ranges /\ in_range p r) /\
        (forall p r, r ∈ ranges -> in_range p r -> page_index first + 1 <= p))
  /\ (exists final, last ranges = Some final /\ end_page final = total_pages).
Proof.
  intros Hne _ ranges. split; [|split; [|split]].
  - apply StronglySorted_of_lookup. intros i j a b Hij Ha Hb.
    apply build_range_bounds in Ha as (ea & Hea & Hsa & _).
    apply build_range_bounds in Hb as (eb & Heb & Hsb & _).
    rewrite Hsa, Hsb.
    enough (page_index ea <= page_index eb) by lia.
    eapply (ordered_by_lookup_le page_index _ i j);
      [apply sorted_by_ordered | lia | eassumption..].
  - intros i j a b p Hij Ha Hb [_ Hpa] [Hpb _].
    apply build_range_bounds in Ha as (ea & Hea & Hsa & Hend).
    apply build_range_bounds in Hb as (eb & Heb & Hsb & _).
    specialize (Hend j eb Hij Heb). lia.
  - destruct (sorted_head_min entries Hne) as (first & Hfirst & Hin & Hmin).
    exists first. repeat split; [exact Hin | exact Hmin | |].
    + intros p Hp.
      destruct (ordered_cover _ first total_pages p
                  (sorted_by_ordered page_index entries) Hfirst Hp)
        as (i & e & He & H1 & H2).
      eexists. split.
      * eapply list_elem_of_lookup_2. unfold ranges. rewrite build_lookup, He.
        reflexivity.
      * split; simpl; assumption.
    + intros p r Hr [Hp _]. apply list_elem_of_lookup in Hr as [i Hi].
      apply build_range_bounds in Hi as (e & He & Hs & _).
      enough (page_index first <= page_index e) by lia.
      apply Hmin. rewrite <- (sorted_by_perm page_index entries).
      eapply list_elem_of_lookup_2; exact He.
  - now apply build_last.
Qed.

Lemma build_ranges_partition_witness :
  exists final,
    last (build_chapter_ranges [entry_at 120; entry_at 0; entry_at 50] 200) = Some final
    /\ end_page final = 200.
Proof.
  apply (build_ranges_partition [entry_at 120; entry_at 0; entry_at 50] 200);
    [discriminate | lia].
Defined.

(** C2 as stated fails: with a single heading at position 5 of a 10-page
    document the only range is pages 6-10, and page 1 lies in no range. *)
Lemma build_leaves_front_pages_uncovered :
  let ranges := build_chapter_ranges [entry_at 5] 10 in
  ranges = [mkChapterRange EmptyString 6 10]
  /\ 1 <= 1 <= 10
  /\ forall r, r ∈ ranges -> ~ in_range 1 r.
Proof.
  simpl. split; [reflexivity|]. split; [lia|].
  intros r Hr [H1 _]. apply list_elem_of_singleton in Hr. subst r. simpl in H1. lia.
Qed.

(** C8.  When two consecutive sorted entries share a position, the range of
    the first of them is emitted as computed, one page short of its own start
    ([end_page = start_page - 1]); nothing is dropped from the output. *)
Theorem build_keeps_degenerate_range (entries : list OutlineEntry) (total_pages : Z)
        (i : nat) (a b : OutlineEntry) :
  sorted_by page_index entries !! i = Some a ->
  sorted_by page_index entries !! S i = Some b ->
  page_index b = page_index a ->
  exists r, build_chapter_ranges entries total_pages !! i = Some r
    /\ start_page r = page_index a + 1
    /\ end_page r = page_index b
    /\ end_page r < start_page r
    /\ length (build_chapter_ranges entries total_pages) = length entries.
Proof.
  intros Ha Hb Hab. rewrite build_lookup, Ha, Hb. simpl.
  eexists. split; [reflexivity|]. simpl. repeat split; [lia|]. apply build_length.
Qed.

Lemma build_keeps_degenerate_range_witness :
  exists r, build_chapter_ranges [entry_at 10; entry_at 10] 50 !! 0%nat = Some r
    /\ start_page r = 11 /\ end_page r = 10 /\ end_page r < start_page r
    /\ length (build_chapter_ranges [entry_at 10; entry_at 10] 50) = 2%nat.
Proof.
  apply (build_keeps_degenerate_range [entry_at 10; entry_at 10] 50 0
           (entry_at 10) (entry_at 10)); reflexivity.
Defined.

Example build_duplicate_positions :
  map (fun r => (start_page r, end_page r))
      (build_chapter_ranges [entry_at 10; entry_at 10] 50)
  = [(11, 10); (11, 50)].
Proof. reflexivity. Qed.

(** C10.  For a non-empty entry list consecutive ranges abut
    ([r_{i+1}.start_page = r_i.end_page + 1], degenerate or not), the first
    range starts on the least position plus one and the last range ends on
    [total_pages]. *)
Theorem build_ranges_abut (entries : list OutlineEntry) (total_pages : Z) :
  entries <> [] ->
  let ranges := build_chapter_ranges entries total_pages in
  (forall i r r', ranges !! i = Some r -> ranges !! S i = Some r' ->
     start_page r' = end_page r + 1)
  /\ (exists r0 first, ranges !! 0%nat = Some r0 /\ first ∈ entries /\
        (forall e, e ∈ entries -> page_index first <= page_index e) /\
        start_page r0 = page_index first + 1)
  /\ (exists final, last ranges = Some final /\ end_page final = total_pages).
Proof.
  intros Hne ranges. split; [|split].
  - intros i r r'. apply build_consecutive.
  - destruct (sorted_head_min entries Hne) as (first & Hfirst & Hin & Hmin).
    eexists; exists first. split.
    + unfold ranges. rewrite build_lookup, Hfirst. reflexivity.
    + auto.
  - now apply build_last.
Qed.

Lemma build_ranges_abut_witness :
  exists r0 first,
    build_chapter_ranges [entry_at 10; entry_at 3; entry_at 10] 50 !! 0%nat = Some r0
    /\ first ∈ [entry_at 10; entry_at 3; entry_at 10]
    /\ (forall e, e ∈ [entry_at 10; entry_at 3; entry_at 10] ->
          page_index first <= page_index e)
    /\ start_page r0 = page_index first + 1.
Proof.
  apply (build_ranges_abut [entry_at 10; entry_at 3; entry_at 10] 50); discriminate.
Defined.

(** ** Selection parser *)

Lemma parse_tokens_nonempty (tokens : list text) (acc : list (Z * Z)) :
  parse_tokens tokens acc = parse_tokens (List.filter nonempty tokens) acc.
Proof.
  revert acc. induction tokens as [|tok tokens IH]; intros acc; [reflexivity|].
  destruct tok as [|c tok]; simpl; [apply IH|].
  destruct (parse_token (c :: tok)); [reflexivity | apply IH].
Qed.

Lemma parse_tokens_ok (tokens : list text) (acc ranges : list (Z * Z)) :
  Forall (fun tok => nonempty tok = true) tokens ->
  parse_tokens tokens acc = inr ranges <->
  exists new, Forall2 (fun tok r => parse_token tok = inr r) tokens new
              /\ ranges = acc ++ new.
Proof.
  intros Hne. revert acc. induction Hne as [|tok tokens Htok Hne IH]; intros acc; simpl.
  - split.
    + intros [= <-]. exists []. split; [constructor | now rewrite app_nil_r].
    + intros (new & Hf & ->). inversion Hf; subst. now rewrite app_nil_r.
  - destruct tok as [|c tok]; [discriminate|].
    destruct (parse_token (c :: tok)) as [e|r] eqn:Hp.
    + split; [discriminate|]. intros (new & Hf & _).
      inversion Hf; subst. congruence.
    + rewrite IH. split.
      * intros (new & Hf & ->). exists (r :: new). split; [now constructor|].
        now rewrite <- app_assoc.
      * intros (new & Hf & ->). inversion Hf as [|? r' ? new' Hr Hf']; subst.
        assert (r' = r) as -> by congruence.
        exists new'. split; [exact Hf'|]. now rewrite <- app_assoc.
Qed.

Lemma parse_tokens_err (tokens : list text) (acc : list (Z * Z)) (e : exn) :
  Forall (fun tok => nonempty tok = true) tokens ->
  parse_tokens tokens acc = inl e <->
  exists pre tok post, tokens = pre ++ tok :: post
    /\ Forall (fun tok => exists r, parse_token tok = inr r) pre
    /\ parse_token tok = inl e.
Proof.
  intros Hne. revert acc. induction Hne as [|tok tokens Htok Hne IH]; intros acc; simpl.
  - split; [discriminate|]. intros (pre & tok & post & Heq & _).
    now destruct pre.
  - destruct tok as [|c tok]; [discriminate|].
    destruct (parse_token (c :: tok)) as [e'|r] eqn:Hp.
    + split.
      * intros [= ->]. exists [], (c :: tok), tokens. repeat split; [constructor | exact Hp].
      * intros (pre & tok' & post & Heq & Hpre & He).
        destruct pre as [|p pre]; simpl in Heq; injection Heq as <- ->.
        -- congruence.
        -- inversion Hpre as [|? ? [r Hr] _]; subst. congruence.
    + rewrite IH. split.
      * intros (pre & tok' & post & -> & Hpre & He).
        exists ((c :: tok) :: pre), tok', post. repeat split; [|exact He].
        constructor; [now exists r | exact Hpre].
      * intros (pre & tok' & post & Heq & Hpre & He).
        destruct pre as [|p pre]; simpl in Heq; injection Heq as <- ->.
        -- congruence.
        -- exists pre, tok', post. repeat split; [|exact He]. now inversion Hpre.
Qed.

Lemma tokens_of_nonempty (selection : string) :
  Forall (fun tok => nonempty tok = true) (tokens_of selection).
Proof.
  apply List.Forall_forall. intros tok Hin. now apply filter_In in Hin.
Qed.

Lemma parse_selection_tokens (selection : string) :
  parse_selection selection =
  match parse_tokens (tokens_of selection) [] with
  | inl e => inl e
  | inr [] => inl none_detected
  | inr ranges => inr ranges
  end.
Proof. unfold parse_selection, tokens_of. now rewrite parse_tokens_nonempty. Qed.

Lemma parse_token_inr (token : text) (r : Z * Z) :
  parse_token token = inr r <->
  exists a b, token_ints token = Some (a, b) /\ 1 <= a /\ 1 <= b
              /\ r = (Z.min a b, Z.max a b).
Proof.
  unfold parse_token. destruct (token_ints token) as [[a b]|].
  - destruct (Z.ltb_spec a 1), (Z.ltb_spec b 1); simpl;
      try (split; [discriminate | intros (? & ? & [= <- <-] & ? & ? & _); lia]).
    destruct (Z.gtb_spec a b); (split;
      [ intros [= <-]; exists a, b; repeat split; try lia; f_equal; lia
      | intros (? & ? & [= <- <-] & _ & _ & ->); do 2 f_equal; lia ]).
  - split; [discriminate | intros (? & ? & [=] & _)].
Qed.

Lemma parse_token_inl (token : text) (e : exn) :
  parse_token token = inl e <->
  (token_ints token = None /\ e = use_chapter_numbers)
  \/ (exists a b, token_ints token = Some (a, b) /\ (a < 1 \/ b < 1)
                  /\ e = must_be_positive).
Proof.
  unfold parse_token. destruct (token_ints token) as [[a b]|].
  - destruct (Z.ltb_spec a 1), (Z.ltb_spec b 1); simpl;
      try (split; [ intros [= <-]; right; exists a, b; repeat split; lia
                  | intros [[[=] _]|(? & ? & _ & _ & ->)]; reflexivity ]).
    destruct (a >? b); (split;
      [ discriminate | intros [[[=] _]|(? & ? & [= <- <-] & ? & _)]; lia ]).
  - split; [intros [= <-]; now left|].
    intros [[_ ->]|(? & ? & [=] & _)]; reflexivity.
Qed.

Lemma isspace_int_isspace (c : ascii) : isspace_int c = true -> isspace c = true.
Proof. by_ascii_cases c. Qed.

Lemma digit_not_space (c : ascii) : isdigit c = true -> isspace c = false.
Proof. by_ascii_cases c. Qed.

Lemma isspace_not_int (c : ascii) : isspace c = false -> isspace_int c = false.
Proof. by_ascii_cases c. Qed.

Lemma remove_whitespace_app (s1 s2 : text) :
  remove_whitespace (s1 ++ s2) = remove_whitespace s1 ++ remove_whitespace s2.
Proof. apply List.filter_app. Qed.

Lemma remove_whitespace_spaceless (s : text) : spaceless s -> remove_whitespace s = s.
Proof.
  induction 1 as [|c s Hc _ IH]; [reflexivity|].
  unfold remove_whitespace in *. simpl. now rewrite Hc, IH.
Qed.

Lemma remove_whitespace_spaces (s : text) :
  Forall (fun c => isspace_int c = true) s -> remove_whitespace s = [].
Proof.
  induction 1 as [|c s Hc _ IH]; [reflexivity|].
  unfold remove_whitespace in *. simpl.
  now rewrite (isspace_int_isspace c Hc).
Qed.

Lemma lstrip_int_split (s : text) :
  exists ws, s = ws ++ lstrip_int s /\ Forall (fun c => isspace_int c = true) ws.
Proof.
  induction s as [|c s (ws & Hs & Hws)]; simpl.
  - now exists [].
  - destruct (isspace_int c) eqn:Hc.
    + exists (c :: ws). split; [simpl; now f_equal | now constructor].
    + now exists [].
Qed.

Lemma lstrip_int_spaceless (s : text) : spaceless s -> lstrip_int s = s.
Proof.
  intros Hs. destruct Hs as [|c s Hc _]; [reflexivity|].
  simpl. now rewrite (isspace_not_int c Hc).
Qed.

Lemma int_core_split (s : text) :
  exists ws1 ws2, s = ws1 ++ int_core s ++ ws2
    /\ Forall (fun c => isspace_int c = true) ws1
    /\ Forall (fun c => isspace_int c = true) ws2.
Proof.
  destruct (lstrip_int_split s) as (ws1 & Hs & H1).
  destruct (lstrip_int_split (rev (lstrip_int s))) as (ws2 & Hr & H2).
  exists ws1, (rev ws2). repeat split; [|exact H1|].
  - rewrite Hs at 1. f_equal. unfold int_core.
    rewrite <- rev_app_distr, <- Hr. now rewrite rev_involutive.
  - apply Forall_rev, H2.
Qed.

Lemma int_digits_spaceless (s : text) (acc v : Z) :
  int_digits acc s = Some v -> spaceless s.
Proof.
  remember (length s) as n eqn:Hn. revert s acc Hn.
  induction n as [n IH] using lt_wf_ind. intros s acc -> H.
  destruct s as [|c s]; [constructor|]. simpl in H.
  destruct (isdigit c) eqn:Hc.
  - constructor; [now apply digit_not_space|].
    eapply (IH (length s)); [simpl; lia | reflexivity | exact H].
  - destruct (Ascii.eqb_spec c "_"); [subst c | discriminate].
    destruct s as [|d s]; [discriminate|].
    destruct (isdigit d) eqn:Hd; [|discriminate].
    constructor; [reflexivity|]. constructor; [now apply digit_not_space|].
    eapply (IH (length s)); [simpl; lia | reflexivity | exact H].
Qed.

Lemma int_body_spaceless (s : text) (v : Z) : int_body s = Some v -> spaceless s.
Proof.
  destruct s as [|c s]; [discriminate|]. simpl.
  destruct (isdigit c) eqn:Hc; [|discriminate]. intros H.
  constructor; [now apply digit_not_space | eapply int_digits_spaceless, H].
Qed.

Lemma int_body_nonempty (s : text) (v : Z) : int_body s = Some v -> s <> [].
Proof. now destruct s. Qed.

Lemma int_unfold (s : text) : int s = int_signed (int_core s).
Proof.
  unfold int, int_signed, int_core.
  destruct (rev (lstrip_int (rev (lstrip_int s)))) as [|c body]; [reflexivity|].
  destruct c as [[] [] [] [] [] [] [] []]; reflexivity.
Qed.

Lemma int_signed_spaceless (core : text) (v : Z) :
  int_signed core = Some v -> spaceless core /\ core <> [].
Proof.
  intros H. split; [|now destruct core].
  destruct core as [|c body]; [constructor|].
  destruct (Ascii.eqb_spec c "+") as [->|Hp]; [|destruct (Ascii.eqb_spec c "-") as [->|Hm]].
  - simpl in H. constructor; [reflexivity | eapply int_body_spaceless, H].
  - simpl in H. destruct (int_body body) eqn:Hb; [|discriminate].
    constructor; [reflexivity | eapply int_body_spaceless, Hb].
  - assert (Hc : int_body (c :: body) = Some v).
    { revert H. clear -Hp Hm. unfold int_signed.
      destruct c as [[] [] [] [] [] [] [] []]; try exact (fun H => H); congruence. }
    eapply int_body_spaceless, Hc.
Qed.

Lemma int_core_spaceless (s : text) : spaceless s -> int_core s = s.
Proof.
  intros Hs. unfold int_core. rewrite (lstrip_int_spaceless s Hs).
  rewrite lstrip_int_spaceless by now apply Forall_rev.
  apply rev_involutive.
Qed.

(** Blanks around a numeral are all the white space [int] accepts: removing
    every white-space character from an accepted argument leaves its value. *)
Lemma int_remove_whitespace (s : text) (v : Z) :
  int s = Some v ->
  int (remove_whitespace s) = Some v /\ remove_whitespace s <> [].
Proof.
  rewrite int_unfold. intros H.
  destruct (int_signed_spaceless _ _ H) as [Hsp Hne].
  destruct (int_core_split s) as (ws1 & ws2 & Hs & H1 & H2).
  assert (Hrw : remove_whitespace s = int_core s).
  { rewrite Hs at 1. rewrite !remove_whitespace_app.
    rewrite (remove_whitespace_spaces ws1 H1), (remove_whitespace_spaces ws2 H2).
    rewrite (remove_whitespace_spaceless _ Hsp). now rewrite app_nil_r. }
  rewrite Hrw. split; [|exact Hne].
  rewrite int_unfold. now rewrite (int_core_spaceless _ Hsp).
Qed.

Lemma split_not_nil (sep : ascii) (s : text) : split sep s <> [].
Proof.
  destruct s as [|c s]; simpl; [discriminate|].
  destruct (Ascii.eqb c sep); [discriminate|].
  destruct (split sep s); discriminate.
Qed.

Lemma split_filter (p : ascii -> bool) (sep : ascii) (s : text) :
  p sep = true ->
  split sep (List.filter p s) = map (List.filter p) (split sep s).
Proof.
  intros Hsep. induction s as [|c s IH]; [reflexivity|]. simpl.
  destruct (Ascii.eqb_spec c sep) as [->|Hc].
  - rewrite Hsep. simpl. rewrite Ascii.eqb_refl. now rewrite IH.
  - pose proof (split_not_nil sep s) as Hne.
    destruct (p c) eqn:Hp; simpl.
    + destruct (Ascii.eqb_spec c sep); [contradiction|].
      rewrite IH. destruct (split sep s); [contradiction|]. simpl. now rewrite Hp.
    + rewrite IH. destruct (split sep s); [contradiction|]. simpl. now rewrite Hp.
Qed.

Lemma split_once_filter (p : ascii -> bool) (sep : ascii) (s : text) :
  p sep = true ->
  split_once sep (List.filter p s) =
  (fun ab => (List.filter p (fst ab), List.filter p (snd ab))) <$> split_once sep s.
Proof.
  intros Hsep. induction s as [|c s IH]; [reflexivity|]. simpl.
  destruct (Ascii.eqb_spec c sep) as [->|Hc].
  - rewrite Hsep. simpl. now rewrite Ascii.eqb_refl.
  - destruct (p c) eqn:Hp; simpl.
    + destruct (Ascii.eqb_spec c sep); [contradiction|].
      rewrite IH. destruct (split_once sep s) as [[a b]|]; simpl; [|reflexivity].
      now rewrite Hp.
    + rewrite IH. destruct (split_once sep s) as [[a b]|]; simpl; [|reflexivity].
      now rewrite Hp.
Qed.

Lemma remove_spaces_whitespace (s : text) :
  remove_spaces (remove_whitespace s) = remove_whitespace (remove_spaces s).
Proof.
  induction s as [|c s IH]; [reflexivity|].
  unfold remove_spaces, remove_whitespace in *. simpl.
  destruct (isspace c) eqn:Hw, (Ascii.eqb c " ") eqn:Hs; simpl;
    rewrite ?Hw, ?Hs; simpl; now rewrite ?IH.
Qed.

Lemma token_ints_remove_whitespace (token : text) (ab : Z * Z) :
  token_ints token = Some ab ->
  token_ints (remove_whitespace token) = Some ab /\ remove_whitespace token <> [].
Proof.
  pose proof (split_once_filter (fun c => negb (isspace c)) "-" token eq_refl) as Hsplit.
  fold (remove_whitespace token) in Hsplit.
  unfold token_ints. rewrite Hsplit.
  destruct (split_once "-" token) as [[a b]|] eqn:Hsp; simpl.
  - destruct (int a) as [x|] eqn:Ha; [|discriminate].
    destruct (int b) as [y|] eqn:Hb; [|discriminate].
    intros [= <-].
    destruct (int_remove_whitespace a x Ha) as [Ha' _].
    destruct (int_remove_whitespace b y Hb) as [Hb' _].
    unfold remove_whitespace in Ha', Hb'. rewrite Ha', Hb'.
    split; [reflexivity|]. intros Hnil. rewrite Hnil in Hsplit. discriminate.
  - destruct (int token) as [n|] eqn:Hn; [|discriminate].
    intros [= <-].
    destruct (int_remove_whitespace token n Hn) as [Hi Hne].
    now rewrite Hi.
Qed.

Lemma parse_token_remove_whitespace (token : text) (r : Z * Z) :
  parse_token token = inr r ->
  parse_token (remove_whitespace token) = inr r /\ remove_whitespace token <> [].
Proof.
  unfold parse_token. destruct (token_ints token) as [ab|] eqn:Hab; [|discriminate].
  destruct (token_ints_remove_whitespace token ab Hab) as [-> Hne]. auto.
Qed.

Lemma parse_tokens_remove_whitespace (tokens : list text) (acc ranges : list (Z * Z)) :
  parse_tokens tokens acc = inr ranges ->
  parse_tokens (map remove_whitespace tokens) acc = inr ranges.
Proof.
  revert acc. induction tokens as [|tok tokens IH]; intros acc; [exact (fun H => H)|].
  destruct tok as [|c tok]; [apply IH|]. simpl parse_tokens at 1.
  destruct (parse_token (c :: tok)) as [e|r] eqn:Hp; [discriminate|].
  destruct (parse_token_remove_whitespace _ _ Hp) as [Hp' Hne].
  intros H.
  change (map remove_whitespace ((c :: tok) :: tokens))
    with (remove_whitespace (c :: tok) :: map remove_whitespace tokens).
  destruct (remove_whitespace (c :: tok)) as [|c' tok'] eqn:Hrw; [congruence|].
  cbn [parse_tokens]. rewrite Hp'. now apply IH.
Qed.

(** A selection that parses gives the same ranges once every white-space
    character is removed from it. *)
Lemma parse_selection_whitespace (selection : string) (ranges : list (Z * Z)) :
  parse_selection selection = inr ranges ->
  parse_selection (string_of_list_ascii (remove_whitespace (text_of selection)))
  = inr ranges.
Proof.
  assert (Htoks :
    split "," (remove_spaces (text_of (string_of_list_ascii (remove_whitespace (text_of selection)))))
    = map remove_whitespace (split "," (remove_spaces (text_of selection)))).
  { unfold text_of at 1. rewrite list_ascii_of_string_of_list_ascii.
    rewrite remove_spaces_whitespace. apply (split_filter _ "," _ eq_refl). }
  unfold parse_selection. rewrite Htoks.
  destruct (parse_tokens (split "," (remove_spaces (text_of selection))) [])
    as [e|rs] eqn:Hp; [discriminate|].
  now rewrite (parse_tokens_remove_whitespace _ _ _ Hp).
Qed.

(** A selection that parses has accepted every token, in order. *)
Lemma parse_selection_pairs (selection : string) (ranges : list (Z * Z)) :
  parse_selection selection = inr ranges ->
  Forall2 (fun token range => parse_token token = inr range)
          (tokens_of selection) ranges
  /\ ranges <> [].
Proof.
  intros H. rewrite parse_selection_tokens in H.
  destruct (parse_tokens (tokens_of selection) []) as [e|rs] eqn:Hp; [discriminate|].
  assert (rs = ranges) as -> by (destruct rs; [discriminate | congruence]).
  apply (parse_tokens_ok _ _ _ (tokens_of_nonempty selection)) in Hp
    as (new & Hf & ->).
  split; [exact Hf|]. destruct new; [discriminate H | discriminate].
Qed.

(** C6.  When a selection parses, the result has one pair per non-empty
    comma-separated token, in token order (nothing is merged or dropped); the
    pair of a token is its two integers, both at least 1, the smaller first
    (a pair given as [start > end] is swapped); a token without hyphen gives
    [(n, n)]; the result is not empty; and white space is immaterial: the
    selection with all white space removed parses to the same result. *)
Theorem parse_selection_success (selection : string) (ranges : list (Z * Z)) :
  parse_selection selection = inr ranges ->
  Forall2 (fun token range =>
             exists a b, token_ints token = Some (a, b) /\ 1 <= a /\ 1 <= b
               /\ range = (Z.min a b, Z.max a b)
               /\ (split_once "-" token = None -> int token = Some a /\ range = (a, a)))
          (tokens_of selection) ranges
  /\ ranges <> []
  /\ parse_selection (string_of_list_ascii (remove_whitespace (text_of selection)))
     = inr ranges.
Proof.
  intros H. destruct (parse_selection_pairs selection ranges H) as [Hf Hne].
  split; [|split].
  - eapply Forall2_impl; [exact Hf|]. simpl. intros tok r Hr.
    apply parse_token_inr in Hr as (a & b & Hab & Ha & Hb & ->).
    exists a, b. repeat split; try assumption.
    + unfold token_ints in Hab. rewrite H0 in Hab.
      destruct (int tok); [congruence | discriminate].
    + unfold token_ints in Hab. rewrite H0 in Hab.
      destruct (int tok); [|discriminate]. injection Hab as <- <-.
      f_equal; lia.
  - exact Hne.
  - now apply parse_selection_whitespace.
Qed.

Lemma parse_selection_success_witness :
  parse_selection (string_of_list_ascii (remove_whitespace (text_of "1,3-5, 2")))
  = inr [(1, 1); (3, 5); (2, 2)].
Proof.
  apply (parse_selection_success "1,3-5, 2" [(1, 1); (3, 5); (2, 2)]).
  vm_compute. reflexivity.
Defined.

Example parse_spec_example :
  parse_selection "1,3-5, 2" = inr [(1, 1); (3, 5); (2, 2)].
Proof. vm_compute. reflexivity. Qed.

Example parse_swaps_and_keeps_duplicates :
  parse_selection "5-3,2,2,1-4" = inr [(3, 5); (2, 2); (2, 2); (1, 4)].
Proof. vm_compute. reflexivity. Qed.

(** C7.  [parse_selection] fails exactly when some token is not an integer
    (or integer pair), when some parsed value is below 1, or when no token is
    left; the error is decided by the first token that is not accepted: the
    "use chapter numbers" error when it does not read as integers, the
    positivity error when a value of it is below 1, and the "no chapter
    numbers detected" error when there is no token at all. *)
Theorem parse_selection_failure (selection : string) :
  let tokens := tokens_of selection in
  let accepted := fun tok => exists r, parse_token tok = inr r in
  (forall e, parse_selection selection = inl e <->
     (e = use_chapter_numbers /\
      exists pre tok post, tokens = pre ++ tok :: post /\ Forall accepted pre
        /\ token_ints tok = None)
     \/ (e = must_be_positive /\
         exists pre tok post a b, tokens = pre ++ tok :: post /\ Forall accepted pre
           /\ token_ints tok = Some (a, b) /\ (a < 1 \/ b < 1))
     \/ (e = none_detected /\ tokens = []))
  /\ ((exists e, parse_selection selection = inl e) <->
      Exists (fun tok => token_ints tok = None) tokens
      \/ Exists (fun tok => exists a b, token_ints tok = Some (a, b)
                                        /\ (a < 1 \/ b < 1)) tokens
      \/ tokens = [])
  /\ (reason use_chapter_numbers = "use chapter numbers like 1 or 1-3"
      /\ reason must_be_positive = "chapter numbers must be positive"
      /\ reason none_detected = "no chapter numbers detected")%string
  /\ (parse_selection "0-2" = inl must_be_positive
      /\ parse_selection EmptyString = inl none_detected).
Proof.
  intros tokens accepted.
  assert (Hfirst : forall e, parse_selection selection = inl e <->
     (e = use_chapter_numbers /\
      exists pre tok post, tokens = pre ++ tok :: post /\ Forall accepted pre
        /\ token_ints tok = None)
     \/ (e = must_be_positive /\
         exists pre tok post a b, tokens = pre ++ tok :: post /\ Forall accepted pre
           /\ token_ints tok = Some (a, b) /\ (a < 1 \/ b < 1))
     \/ (e = none_detected /\ tokens = [])).
  { intros e. rewrite parse_selection_tokens. fold tokens.
    pose proof (parse_tokens_err tokens [] e (tokens_of_nonempty selection)) as Herr.
    pose proof (fun rs => parse_tokens_ok tokens [] rs (tokens_of_nonempty selection))
      as Hok.
    destruct (parse_tokens tokens []) as [e'|rs] eqn:Hp.
    - split.
      + intros [= ->]. destruct Herr as [Herr _].
        destruct (Herr eq_refl) as (pre & tok & post & Heq & Hpre & He).
        apply parse_token_inl in He as [[Hn ->]|(a & b & Hab & Hlt & ->)].
        * left. split; [reflexivity|]. now exists pre, tok, post.
        * right; left. split; [reflexivity|]. now exists pre, tok, post, a, b.
      + intros [(-> & pre & tok & post & Heq & Hpre & Hn)
               |[(-> & pre & tok & post & a & b & Heq & Hpre & Hab & Hlt)
                |(-> & Hnil)]].
        * f_equal.
          enough (H : @inl exn (list (Z * Z)) e' = inl use_chapter_numbers) by congruence.
          apply Herr. exists pre, tok, post. repeat split; try assumption.
          apply parse_token_inl. now left.
        * f_equal.
          enough (H : @inl exn (list (Z * Z)) e' = inl must_be_positive) by congruence.
          apply Herr. exists pre, tok, post. repeat split; try assumption.
          apply parse_token_inl. right. now exists a, b.
        * rewrite Hnil in Hp. discriminate.
    - destruct (proj1 (Hok rs) eq_refl) as (new & Hf & ->). simpl.
      assert (Hacc : Forall accepted tokens).
      { clear -Hf. induction Hf as [|tok r toks rs' Hr _ IH].
        - apply Forall_nil_2.
        - apply Forall_cons_2; [now exists r | exact IH]. }
      assert (Hno : forall pre tok post, tokens = pre ++ tok :: post -> accepted tok).
      { intros pre tok post Heq. rewrite Heq in Hacc.
        apply Forall_app in Hacc as [_ Hacc]. now inversion Hacc. }
      destruct new as [|r new].
      + assert (Hnil : tokens = []) by (now inversion Hf). split.
        * intros [= <-]. right; right. now split.
        * intros [(-> & pre & tok & post & Heq & _)
                 |[(-> & pre & tok & post & a & b & Heq & _)|(-> & _)]];
            [rewrite Hnil in Heq; destruct pre; discriminate..| reflexivity].
      + split; [discriminate|].
        intros [(-> & pre & tok & post & Heq & _ & Hn)
               |[(-> & pre & tok & post & a & b & Heq & _ & Hab & Hlt)
                |(-> & Hnil)]].
        * destruct (Hno _ _ _ Heq) as [r' Hr'].
          apply parse_token_inr in Hr' as (? & ? & ? & _). congruence.
        * destruct (Hno _ _ _ Heq) as [r' Hr'].
          apply parse_token_inr in Hr' as (a' & b' & Hab' & ? & ? & _).
          rewrite Hab in Hab'. injection Hab' as <- <-. lia.
        * rewrite Hnil in Hf. inversion Hf. }
  split; [exact Hfirst|].
  split; [|split; [repeat split | split; vm_compute; reflexivity]].
  split.
  - intros [e He]. apply Hfirst in He
      as [(_ & pre & tok & post & Heq & _ & Hn)
         |[(_ & pre & tok & post & a & b & Heq & _ & Hab & Hlt)|(_ & Hnil)]].
    + left. rewrite Heq. apply Exists_app. right. now left.
    + right; left. rewrite Heq. apply Exists_app. right. left. now exists a, b.
    + now right; right.
  - intros Hbad.
    destruct (parse_selection selection) as [e|rs] eqn:Hp; [now exists e|].
    exfalso.
    destruct (parse_selection_pairs selection rs Hp) as (Hf & Hne).
    fold tokens in Hf.
    destruct Hbad as [Hex|[Hex|Hnil]].
    + clear -Hf Hex. induction Hf as [|tok r toks rs' Hr _ IH].
      * inversion Hex.
      * apply parse_token_inr in Hr as (a & b & Hab & _).
        inversion Hex; subst; [congruence | auto].
    + clear -Hf Hex. induction Hf as [|tok r toks rs' Hr _ IH].
      * inversion Hex.
      * apply parse_token_inr in Hr as (a & b & Hab & Ha & Hb & _).
        inversion Hex as [? ? (a' & b' & Hab' & Hlt)|]; subst; [|auto].
        rewrite Hab in Hab'. injection Hab' as <- <-. lia.
    + rewrite Hnil in Hf. inversion Hf. congruence.
Qed.

Example parse_first_offender_decides :
  parse_selection "0,x" = inl must_be_positive
  /\ parse_selection "x,0" = inl use_chapter_numbers
  /\ parse_selection "0-x" = inl use_chapter_numbers
  /\ parse_selection "3-" = inl use_chapter_numbers
  /\ parse_selection " , ," = inl none_detected
  /\ parse_selection "2--1" = inl must_be_positive.
Proof. vm_compute. repeat split. Qed.

(** * Further properties *)

(** ** Range builder *)

Lemma ranges_of_lookup (sorted : list OutlineEntry) (total_pages : Z) (i : nat) :
  ranges_of sorted total_pages !! i =
  (fun e => mkChapterRange (title e) (page_index e + 1)
              (match sorted !! S i with
               | Some next => page_index next
               | None => total_pages
               end)) <$> sorted !! i.
Proof.
  revert i. induction sorted as [|e rest IH]; intros i; [reflexivity|].
  destruct i as [|i]; simpl.
  - destruct rest; reflexivity.
  - apply IH.
Qed.

Lemma build_ranges_of (entries : list OutlineEntry) (total_pages : Z) :
  build_chapter_ranges entries total_pages
  = ranges_of (sorted_by page_index entries) total_pages.
Proof.
  apply list_eq. intros i. now rewrite build_lookup, ranges_of_lookup.
Qed.

Lemma with_key_short {A : Type} (key : A -> Z) (k : Z) (l : list A) :
  NoDup (map key l) -> (length (with_key key k l) <= 1)%nat.
Proof.
  unfold with_key. induction l as [|a l IH]; intros Hnd; simpl; [lia|].
  apply NoDup_cons in Hnd as [Hnin Hnd]. specialize (IH Hnd).
  destruct (Z.eqb_spec (key a) k) as [Hk|Hk]; [|lia].
  assert (Hnil : List.filter (fun a => key a =? k) l = []).
  { destruct (List.filter _ l) as [|b bs] eqn:Hf; [reflexivity|].
    exfalso. apply Hnin. assert (Hb : In b (List.filter (fun a => key a =? k) l))
      by (rewrite Hf; now left).
    apply filter_In in Hb as [Hb Hkb]. apply Z.eqb_eq in Hkb.
    apply list_elem_of_In. rewrite Hk, <- Hkb. now apply in_map. }
  rewrite Hnil. simpl. lia.
Qed.

Lemma sorted_by_permutation_invariant {A : Type} (key : A -> Z) (l l' : list A) :
  Permutation l l' -> NoDup (map key l) -> sorted_by key l' = sorted_by key l.
Proof.
  intros Hp Hnd. apply (sorted_by_unique key l (sorted_by key l')).
  - now rewrite sorted_by_perm.
  - apply sorted_by_ordered.
  - intros k. rewrite sorted_by_stable.
    assert (Hpk : Permutation (with_key key k l') (with_key key k l)).
    { unfold with_key. clear Hnd. symmetry.
      induction Hp as [|x l1 l2 _ IH|x y l1|l1 l2 l3 _ IH1 _ IH2]; simpl.
      - constructor.
      - destruct (key x =? k); [now constructor | assumption].
      - destruct (key x =? k), (key y =? k); try reflexivity. apply perm_swap.
      - now rewrite IH1. }
    pose proof (with_key_short key k l Hnd) as Hlen.
    pose proof (Permutation_length Hpk) as Hlen'.
    destruct (with_key key k l) as [|a [|b bs]]; simpl in *; try lia.
    + now apply Permutation_nil_r in Hpk.
    + now apply Permutation_singleton_r in Hpk.
Qed.

(** X1.  When no two entries share a position, the ranges do not depend on
    the order in which the entries are given. *)
Theorem build_order_irrelevant (entries entries' : list OutlineEntry)
        (total_pages : Z) :
  Permutation entries entries' ->
  NoDup (map page_index entries) ->
  build_chapter_ranges entries' total_pages
  = build_chapter_ranges entries total_pages.
Proof.
  intros Hp Hnd. rewrite !build_ranges_of.
  now rewrite (sorted_by_permutation_invariant page_index entries entries' Hp Hnd).
Qed.

Lemma build_order_irrelevant_witness :
  build_chapter_ranges [entry_at 50; entry_at 0; entry_at 120] 200
  = build_chapter_ranges [entry_at 0; entry_at 50; entry_at 120] 200.
Proof.
  apply build_order_irrelevant.
  - apply perm_swap.
  - compute_done.
Defined.

(** With equal positions the order matters: the earlier entry keeps the
    degenerate range. *)
Example build_order_matters_on_ties :
  let a := mkOutlineEntry "A" 10 0 in
  let b := mkOutlineEntry "B" 10 0 in
  map range_title (build_chapter_ranges [a; b] 50) = ["A"; "B"]%string
  /\ map range_title (build_chapter_ranges [b; a] 50) = ["B"; "A"]%string.
Proof. split; reflexivity. Qed.

Lemma build_well_formed (entries : list OutlineEntry) (total_pages : Z) :
  NoDup (map page_index entries) ->
  (forall e, e ∈ entries -> 0 <= page_index e < total_pages) ->
  forall r, r ∈ build_chapter_ranges entries total_pages -> well_formed total_pages r.
Proof.
  intros Hnd Hin r Hr.
  apply list_elem_of_lookup in Hr as [i Hi].
  rewrite build_lookup in Hi.
  set (sorted := sorted_by page_index entries) in *.
  assert (Hp : Permutation sorted entries) by apply sorted_by_perm.
  assert (Hnd' : NoDup (map page_index sorted)) by (now rewrite Hp).
  destruct (sorted !! i) as [e|] eqn:He; [|discriminate].
  simpl in Hi. injection Hi as <-. unfold well_formed. simpl.
  assert (He' : 0 <= page_index e < total_pages).
  { apply Hin. rewrite <- Hp. eapply list_elem_of_lookup_2; exact He. }
  destruct (sorted !! S i) as [next|] eqn:Hn; [|lia].
  assert (Hn' : 0 <= page_index next < total_pages).
  { apply Hin. rewrite <- Hp. eapply list_elem_of_lookup_2; exact Hn. }
  assert (Hle : page_index e <= page_index next).
  { eapply (ordered_by_lookup_le page_index sorted i (S i));
      [apply sorted_by_ordered | lia | eassumption..]. }
  assert (Hne : page_index e <> page_index next).
  { intros Heq.
    assert (H1 : map page_index sorted !! i = Some (page_index e))
      by (now rewrite list_lookup_fmap, He).
    assert (H2 : map page_index sorted !! S i = Some (page_index e))
      by (now rewrite list_lookup_fmap, Hn, Heq).
    pose proof (NoDup_lookup _ _ _ _ Hnd' H1 H2). lia. }
  lia.
Qed.

(** X2.  When the positions are pairwise distinct and lie within the
    document ([0 <= position < total_pages]), every range is well formed:
    [1 <= start_page <= end_page <= total_pages]. *)
Theorem build_ranges_well_formed (entries : list OutlineEntry) (total_pages : Z) :
  NoDup (map page_index entries) ->
  (forall e, e ∈ entries -> 0 <= page_index e < total_pages) ->
  forall r, r ∈ build_chapter_ranges entries total_pages -> well_formed total_pages r.
Proof. apply build_well_formed. Qed.

Lemma build_ranges_well_formed_witness :
  well_formed 200 (mkChapterRange EmptyString 51 120).
Proof.
  apply (build_ranges_well_formed [entry_at 120; entry_at 0; entry_at 50] 200).
  - compute_done.
  - intros e He. repeat (apply elem_of_cons in He as [->|He]); simpl; try lia.
    now apply elem_of_nil in He.
  - apply list_elem_of_In. vm_compute. auto.
Defined.

Lemma ranges_of_page_count (e : OutlineEntry) (rest : list OutlineEntry)
      (total_pages : Z) :
  sum_Z (map page_count (ranges_of (e :: rest) total_pages))
  = total_pages - page_index e.
Proof.
  revert e. induction rest as [|next rest IH]; intros e.
  - unfold page_count. simpl. lia.
  - change (ranges_of (e :: next :: rest) total_pages)
      with (mkChapterRange (title e) (page_index e + 1) (page_index next)
            :: ranges_of (next :: rest) total_pages).
    cbn [map sum_Z fold_right]. fold (sum_Z (map page_count (ranges_of (next :: rest) total_pages))).
    rewrite IH. unfold page_count. simpl. lia.
Qed.

(** X3.  For a non-empty entry list the page counts of the ranges
    ([end_page - start_page + 1], zero for a degenerate range) add up to
    [total_pages] minus the least position: the ranges account for every
    page after the first heading once, and for no other page. *)
Theorem build_page_counts_add_up (entries : list OutlineEntry) (total_pages : Z) :
  entries <> [] ->
  exists first, first ∈ entries
    /\ (forall e, e ∈ entries -> page_index first <= page_index e)
    /\ sum_Z (map page_count (build_chapter_ranges entries total_pages))
       = total_pages - page_index first.
Proof.
  intros Hne. destruct (sorted_head_min entries Hne) as (first & Hfirst & Hin & Hmin).
  exists first. split; [exact Hin|]. split; [exact Hmin|].
  rewrite build_ranges_of.
  destruct (sorted_by page_index entries) as [|e rest]; [discriminate|].
  injection Hfirst as ->. apply ranges_of_page_count.
Qed.

Lemma build_page_counts_add_up_witness :
  exists first, first ∈ [entry_at 10; entry_at 3; entry_at 10]
    /\ (forall e, e ∈ [entry_at 10; entry_at 3; entry_at 10] ->
          page_index first <= page_index e)
    /\ sum_Z (map page_count
                  (build_chapter_ranges [entry_at 10; entry_at 3; entry_at 10] 50))
       = 50 - page_index first.
Proof.
  apply (build_page_counts_add_up [entry_at 10; entry_at 3; entry_at 10] 50).
  discriminate.
Defined.

(** ** Chapter selector and the pipeline *)

Lemma filter_all {A : Type} (f : A -> bool) (l : list A) :
  (forall a, In a l -> f a = true) -> List.filter f l = l.
Proof.
  induction l as [|a l IH]; intros H; [reflexivity|]. simpl.
  rewrite (H a) by now left. f_equal. apply IH. intros b Hb. apply H. now right.
Qed.

Lemma filter_none {A : Type} (f : A -> bool) (l : list A) :
  List.filter f l = [] -> forall a, In a l -> f a = false.
Proof.
  induction l as [|a l IH]; intros H b Hb; [destruct Hb|]. simpl in H.
  destruct (f a) eqn:Ha; [discriminate|].
  destruct Hb as [<-|Hb]; [exact Ha | now apply IH].
Qed.

(** The selector, case by case. *)
Lemma pick_cases {page : Type} (entries : list (OutlineEntryOf page)) :
  let chapters := List.filter (fun e => is_chapter_title (title e)) entries in
  (chapters <> [] -> pick_chapter_entries entries = chapters)
  /\ (chapters = [] -> entries = [] -> pick_chapter_entries entries = [])
  /\ (chapters = [] -> entries <> [] ->
        exists min_depth,
          (exists e, e ∈ entries /\ depth e = min_depth)
          /\ (forall e, e ∈ entries -> min_depth <= depth e)
          /\ pick_chapter_entries entries
             = List.filter (fun e => depth e =? min_depth) entries
          /\ pick_chapter_entries entries <> [])
  /\ sublist (pick_chapter_entries entries) entries.
Proof.
  intros chapters. unfold pick_chapter_entries. fold chapters.
  split; [|split; [|split]].
  - destruct chapters; [congruence | reflexivity].
  - intros -> ->. reflexivity.
  - intros -> Hne. destruct entries as [|first others]; [congruence|].
    set (m := py_min (depth first) (map depth others)).
    destruct (py_min_spec (depth first) (map depth others)) as [Hin Hle].
    fold m in Hin, Hle.
    change (depth first :: map depth others) with (map depth (first :: others))
      in Hin, Hle.
    apply in_map_iff in Hin as (e & He & Hin).
    exists m. repeat split.
    + exists e. split; [now apply list_elem_of_In | exact He].
    + intros x Hx. apply Hle, in_map, list_elem_of_In, Hx.
    + intros Hnil.
      assert (Hin' : In e (List.filter (fun e => depth e =? m) (first :: others))).
      { apply filter_In. split; [exact Hin | now apply Z.eqb_eq]. }
      rewrite Hnil in Hin'. destruct Hin'.
  - destruct chapters eqn:Hc.
    + destruct entries; [constructor | apply filter_sublist].
    + rewrite <- Hc. apply filter_sublist.
Qed.

Lemma pick_nil_iff {page : Type} (entries : list (OutlineEntryOf page)) :
  pick_chapter_entries entries = [] <-> entries = [].
Proof.
  split; [|now intros ->].
  intros H. destruct (pick_cases entries) as (H1 & _ & H3 & _).
  destruct (List.filter (fun e => is_chapter_title (title e)) entries) eqn:Hc.
  - destruct entries as [|e entries]; [reflexivity|].
    destruct (H3 eq_refl ltac:(discriminate)) as (m & _ & _ & _ & Hne).
    contradiction.
  - rewrite H1 in H by discriminate. discriminate.
Qed.

(** X4.  Selecting twice changes nothing: the selector returns its own
    output unchanged. *)
Theorem pick_chapter_entries_idempotent (entries : list OutlineEntry) :
  pick_chapter_entries (pick_chapter_entries entries) = pick_chapter_entries entries.
Proof.
  destruct (pick_cases entries) as (H1 & H2 & H3 & _).
  set (accepts := fun e => is_chapter_title (title e)) in *.
  destruct (List.filter accepts entries) as [|c cs] eqn:Hc.
  - destruct entries as [|e0 entries]; [reflexivity|].
    destruct (H3 eq_refl ltac:(discriminate)) as (m & (e & He & Hd) & Hmin & Hpick & Hne).
    set (picked := pick_chapter_entries (e0 :: entries)) in *.
    assert (Hnone : List.filter accepts picked = []).
    { destruct (List.filter accepts picked) as [|b bs] eqn:Hb; [reflexivity|].
      assert (Hin : In b (List.filter accepts picked)) by (rewrite Hb; now left).
      apply filter_In in Hin as [Hin Hacc]. rewrite Hpick in Hin.
      apply filter_In in Hin as [Hin _].
      now rewrite (filter_none _ _ Hc b Hin) in Hacc. }
    destruct (pick_cases picked) as (_ & _ & H3' & _).
    fold accepts in H3'.
    destruct (H3' Hnone Hne) as (m' & (e' & He' & Hd') & Hmin' & Hpick' & _).
    rewrite Hpick'. apply filter_all. intros a Ha. apply Z.eqb_eq.
    assert (Ham : depth a = m).
    { rewrite Hpick in Ha. apply filter_In in Ha as [_ Ha]. now apply Z.eqb_eq. }
    assert (He'm : depth e' = m).
    { apply list_elem_of_In in He'. rewrite Hpick in He'.
      apply filter_In in He' as [_ He']. now apply Z.eqb_eq. }
    assert (m' <= depth a) by (apply Hmin'; now apply list_elem_of_In).
    lia.
  - rewrite (H1 ltac:(discriminate)).
    destruct (pick_cases (c :: cs)) as (H1' & _).
    fold accepts in H1'.
    assert (Hall : List.filter accepts (c :: cs) = c :: cs).
    { apply filter_all. intros a Ha. rewrite <- Hc in Ha.
      now apply filter_In in Ha. }
    rewrite H1' by (rewrite Hall; discriminate). exact Hall.
Qed.

Lemma build_nil_iff (entries : list OutlineEntry) (total_pages : Z) :
  build_chapter_ranges entries total_pages = [] <-> entries = [].
Proof.
  split; [|now intros ->].
  intros H. apply (f_equal length) in H. rewrite build_length in H.
  now destruct entries.
Qed.

(** X5.  When entries are collected, the pipeline raises TypeError exactly
    when one of the selected entries has [page_index] [None]; otherwise it
    yields one chapter range per selected entry: none exactly when no entry
    was collected (the caller then falls back to manual entry), and never
    more than one per collected entry. *)
Theorem extract_empty_iff_no_entries (fuel : nat) (reader : PdfReader)
        (entries : list StoredEntry) :
  collect_outline_entries fuel reader = Some (inr entries) ->
  let chapters := pick_chapter_entries entries in
  ((exists entry, In entry chapters /\ page_index entry = None) ->
   extract_chapter_ranges fuel reader = Some (inl TypeError))
  /\ ((forall entry, In entry chapters -> page_index entry <> None) ->
      exists ranges, extract_chapter_ranges fuel reader = Some (inr ranges)
        /\ (ranges = [] <-> entries = [])
        /\ length ranges = length chapters
        /\ (length ranges <= length entries)%nat).
Proof.
  intros Hc chapters. unfold extract_chapter_ranges, build_stored_ranges.
  rewrite Hc. fold chapters. split.
  - intros Hex. apply int_pages_None in Hex. now rewrite Hex.
  - intros Hint. destruct (int_pages_total chapters Hint) as [typed Htyped].
    rewrite Htyped. eexists. split; [reflexivity|].
    pose proof (int_pages_Some _ _ Htyped) as Hmap.
    assert (Hlen : length typed = length chapters)
      by now rewrite Hmap, length_map.
    rewrite build_nil_iff, build_length, Hlen.
    split; [|split; [reflexivity|]].
    + rewrite <- (pick_nil_iff entries). fold chapters.
      destruct typed, chapters; try discriminate; split; congruence.
    + apply sublist_length, (pick_cases entries).
Qed.

Lemma extract_empty_iff_no_entries_witness :
  let objs : gmap nat Heading :=
    {[ 1%nat := mkHeading (Some "Preface"%string) NoChildren;
       2%nat := mkHeading (Some "Chapter 1"%string) NoChildren;
       3%nat := mkHeading (Some "Chapter 2"%string) NoChildren ]} in
  let outline := Some [ItemObj 1; ItemObj 2; ItemObj 3] in
  let reader :=
    mkReader outline None ∅ objs (fun id => Returns (Some (Z.of_nat id * 10))) 100 in
  let broken :=
    mkReader (Some [ItemObj 3]) None ∅ objs (fun _ => Returns None) 100 in
  (exists ranges, extract_chapter_ranges 1 reader = Some (inr ranges)
     /\ (ranges = [] <->
         [mkOutlineEntry "Preface" (Some 10) 0; mkOutlineEntry "Chapter 1" (Some 20) 0;
          mkOutlineEntry "Chapter 2" (Some 30) 0] = [])
     /\ length ranges = 2%nat
     /\ (length ranges <= 3)%nat)
  /\ extract_chapter_ranges 1 broken = Some (inl TypeError).
Proof.
  intros objs outline reader broken. split.
  - apply (extract_empty_iff_no_entries 1 reader
             [mkOutlineEntry "Preface" (Some 10) 0; mkOutlineEntry "Chapter 1" (Some 20) 0;
              mkOutlineEntry "Chapter 2" (Some 30) 0] eq_refl).
    intros entry Hin. vm_compute in Hin. destruct Hin as [<-|[<-|[]]]; discriminate.
  - apply (extract_empty_iff_no_entries 1 broken [mkOutlineEntry "Chapter 2" None 0]
             eq_refl).
    exists (mkOutlineEntry "Chapter 2" None 0). split; [vm_compute; now left | reflexivity].
Defined.

(** ** Selection parser *)

Lemma text_of_append (a b : string) :
  text_of (a ++ b)%string = text_of a ++ text_of b.
Proof.
  unfold text_of. induction a as [|c a IH]; [reflexivity|]. simpl. now rewrite IH.
Qed.

Lemma split_app (sep : ascii) (s1 s2 : text) :
  split sep (s1 ++ sep :: s2) = split sep s1 ++ split sep s2.
Proof.
  induction s1 as [|c s1 IH]; simpl.
  - now rewrite Ascii.eqb_refl.
  - destruct (Ascii.eqb c sep); [now rewrite IH|].
    rewrite IH. pose proof (split_not_nil sep s1).
    destruct (split sep s1); [contradiction | reflexivity].
Qed.

Lemma parse_tokens_app (l1 l2 : list text) (acc : list (Z * Z)) :
  parse_tokens (l1 ++ l2) acc =
  match parse_tokens l1 acc with
  | inl e => inl e
  | inr ranges => parse_tokens l2 ranges
  end.
Proof.
  revert acc. induction l1 as [|tok l1 IH]; intros acc; [reflexivity|].
  destruct tok as [|c tok]; simpl; [apply IH|].
  destruct (parse_token (c :: tok)); [reflexivity | apply IH].
Qed.

Lemma parse_tokens_acc (l : list text) (acc : list (Z * Z)) :
  parse_tokens l acc =
  match parse_tokens l [] with
  | inl e => inl e
  | inr ranges => inr (acc ++ ranges)
  end.
Proof.
  revert acc. induction l as [|tok l IH]; intros acc.
  - simpl. now rewrite app_nil_r.
  - destruct tok as [|c tok]; simpl; [apply IH|].
    destruct (parse_token (c :: tok)) as [e|r]; [reflexivity|].
    rewrite (IH (acc ++ [r])), (IH [r]).
    destruct (parse_tokens l []); [reflexivity|]. now rewrite <- app_assoc.
Qed.

Lemma parse_tokens_error_kind (l : list text) (acc : list (Z * Z)) (e : exn) :
  parse_tokens l acc = inl e -> e <> none_detected.
Proof.
  rewrite parse_tokens_nonempty. intros H.
  apply parse_tokens_err in H as (pre & tok & post & _ & _ & H).
  - apply parse_token_inl in H as [[_ ->]|(a & b & _ & _ & ->)]; discriminate.
  - apply List.Forall_forall. intros tok Hin. now apply filter_In in Hin.
Qed.

(** X6.  Selections compose at commas: when [a] and [b] both parse, [a,b]
    parses to the ranges of [a] followed by those of [b]; an error in [a]
    other than "no chapter numbers detected" is the error of [a,b]
    whatever [b] is. *)
Theorem parse_selection_concat (a b : string) :
  (forall ra rb, parse_selection a = inr ra -> parse_selection b = inr rb ->
     parse_selection (a ++ "," ++ b)%string = inr (ra ++ rb))
  /\ (forall e, parse_selection a = inl e -> e <> none_detected ->
        parse_selection (a ++ "," ++ b)%string = inl e)
  /\ (parse_selection a = inl none_detected ->
        parse_selection (a ++ "," ++ b)%string = parse_selection b).
Proof.
  assert (Hab : parse_selection (a ++ "," ++ b)%string =
    match parse_tokens (split "," (remove_spaces (text_of a))) [] with
    | inl e => inl e
    | inr ra =>
        match parse_tokens (split "," (remove_spaces (text_of b))) [] with
        | inl e => inl e
        | inr rb =>
            match ra ++ rb with
            | [] => inl none_detected
            | _ :: _ => inr (ra ++ rb)
            end
        end
    end).
  { unfold parse_selection. rewrite !text_of_append.
    change (text_of ",") with [","%char]. unfold remove_spaces.
    rewrite List.filter_app. simpl List.filter at 2.
    change ([","%char] ++ ?x) with (","%char :: x).
    cbn [List.filter app Ascii.eqb negb]. fold remove_spaces.
    change (List.filter (fun c => negb (Ascii.eqb c " ")) (text_of a))
      with (remove_spaces (text_of a)).
    change (List.filter (fun c => negb (Ascii.eqb c " ")) (text_of b))
      with (remove_spaces (text_of b)).
    rewrite split_app, parse_tokens_app.
    destruct (parse_tokens (split "," (remove_spaces (text_of a))) []) as [e|ra];
      [reflexivity|].
    rewrite parse_tokens_acc.
    destruct (parse_tokens (split "," (remove_spaces (text_of b))) []);
      reflexivity. }
  rewrite Hab. unfold parse_selection.
  destruct (parse_tokens (split "," (remove_spaces (text_of a))) []) as [ea|ra] eqn:Ha;
    destruct (parse_tokens (split "," (remove_spaces (text_of b))) []) as [eb|rb].
  - split; [discriminate|]. split; [now intros e [= <-]|].
    intros [= ->]. now apply parse_tokens_error_kind in Ha.
  - split; [discriminate|]. split; [now intros e [= <-]|].
    intros [= ->]. now apply parse_tokens_error_kind in Ha.
  - split; [|split].
    + intros ra' rb'. now destruct rb'.
    + destruct ra; [intros e [= <-] He; congruence | discriminate].
    + destruct ra; [reflexivity | discriminate].
  - split; [|split].
    + intros ra' rb' Hra Hrb. destruct ra as [|r ra]; [discriminate|].
      injection Hra as <-.
      destruct rb as [|r' rb]; [discriminate|]. injection Hrb as <-. reflexivity.
    + destruct ra; [intros e [= <-] He; congruence | discriminate].
    + destruct ra; [|discriminate]. intros _. now destruct rb.
Qed.

(** ** Prompts *)

Lemma lstrip_idem (s : text) : lstrip (lstrip s) = lstrip s.
Proof.
  induction s as [|c s IH]; [reflexivity|]. simpl.
  destruct (isspace c) eqn:Hc; [exact IH|]. simpl. now rewrite Hc.
Qed.

Lemma lstrip_suffix (s : text) : exists ws, s = ws ++ lstrip s.
Proof.
  induction s as [|c s [ws Hs]]; simpl; [now exists []|].
  destruct (isspace c); [|now exists []].
  exists (c :: ws). simpl. now f_equal.
Qed.

Lemma lstrip_fixed_head (c : ascii) (s : text) :
  lstrip (c :: s) = c :: s -> isspace c = false.
Proof.
  simpl. destruct (isspace c); [|reflexivity]. intros H.
  destruct (lstrip_suffix s) as [ws Hws].
  apply (f_equal length) in H. apply (f_equal length) in Hws.
  rewrite length_app in Hws. simpl in H. lia.
Qed.

Lemma strip_trimmed (s : text) : trimmed (strip s).
Proof.
  unfold trimmed, strip. rewrite rev_involutive, lstrip_idem. split; [|reflexivity].
  set (x := lstrip s). assert (Hx : lstrip x = x) by apply lstrip_idem.
  destruct (lstrip_suffix (rev x)) as [ws Hws].
  destruct (lstrip (rev x)) as [|c r] eqn:Hr; [reflexivity|].
  assert (Hxeq : x = rev (c :: r) ++ rev ws).
  { rewrite <- rev_app_distr, <- Hws. now rewrite rev_involutive. }
  destruct (rev (c :: r)) as [|h t] eqn:Hrev.
  { apply (f_equal length) in Hrev. rewrite length_rev in Hrev. discriminate. }
  rewrite Hxeq in Hx. simpl in Hx. apply lstrip_fixed_head in Hx.
  simpl. now rewrite Hx.
Qed.

Lemma strip_of_trimmed (s : text) : trimmed s -> strip s = s.
Proof.
  intros [H1 H2]. unfold strip. rewrite H1, H2. apply rev_involutive.
Qed.

Lemma text_of_string_of (x : text) : text_of (string_of_list_ascii x) = x.
Proof. apply list_ascii_of_string_of_list_ascii. Qed.

Lemma stripped_trimmed (line : string) : trimmed (stripped line).
Proof. apply strip_trimmed. Qed.

Lemma parse_selection_valid (selection : string) (ranges : list (Z * Z)) :
  parse_selection selection = inr ranges ->
  ranges <> [] /\ Forall (fun r => 1 <= fst r /\ fst r <= snd r) ranges.
Proof.
  intros H. destruct (parse_selection_pairs selection ranges H) as [Hf Hne].
  split; [exact Hne|]. clear H Hne.
  induction Hf as [|tok r toks rs Hr _ IH].
  - apply Forall_nil_2.
  - apply Forall_cons_2; [|exact IH].
    apply parse_token_inr in Hr as (a & b & _ & Ha & Hb & ->). simpl. lia.
Qed.

Lemma prompt_selection_spec (total_chapters : Z) (inputs : list string)
        (ranges : list (Z * Z)) (rest : list string) :
  prompt_for_chapter_selection total_chapters inputs = Some (ranges, rest) ->
  Forall (valid_selection total_chapters) ranges
  /\ (exists rejected line, inputs = rejected ++ line :: rest
        /\ (ranges = [] <-> stripped line = [])
        /\ (ranges <> [] ->
            parse_selection (string_of_list_ascii (stripped line)) = inr ranges)
        /\ Forall (fun l =>
             stripped l <> []
             /\ forall rs, parse_selection (string_of_list_ascii (stripped l)) = inr rs ->
                  Exists (fun r => total_chapters < snd r) rs) rejected).
Proof.
  induction inputs as [|line inputs IH]; [discriminate|].
  cbn [prompt_for_chapter_selection].
  destruct (stripped line) as [|c sel] eqn:Hs.
  - intros [= <- <-]. split; [constructor|].
    exists [], line. rewrite Hs. repeat split; try constructor; congruence.
  - assert (Hretry :
      (forall rs, parse_selection (string_of_list_ascii (c :: sel)) = inr rs ->
                  Exists (fun r => total_chapters < snd r) rs) ->
      prompt_for_chapter_selection total_chapters inputs = Some (ranges, rest) ->
      Forall (valid_selection total_chapters) ranges
      /\ (exists rejected line0, line :: inputs = rejected ++ line0 :: rest
            /\ (ranges = [] <-> stripped line0 = [])
            /\ (ranges <> [] ->
                parse_selection (string_of_list_ascii (stripped line0)) = inr ranges)
            /\ Forall (fun l =>
                 stripped l <> []
                 /\ forall rs,
                      parse_selection (string_of_list_ascii (stripped l)) = inr rs ->
                      Exists (fun r => total_chapters < snd r) rs) rejected)).
    { intros Hbad H. destruct (IH H) as (Hv & rejected & line0 & -> & Hb & Hp & Hrej).
      split; [exact Hv|]. exists (line :: rejected), line0.
      repeat split; try tauto.
      constructor; [|exact Hrej]. rewrite Hs. split; [discriminate | exact Hbad]. }
    destruct (parse_selection (string_of_list_ascii (c :: sel))) as [e|rs] eqn:Hp.
    + apply Hretry. discriminate.
    + destruct (existsb (fun r => snd r >? total_chapters) rs) eqn:Hex.
      * apply Hretry. intros rs' [= <-].
        apply existsb_exists in Hex as (r & Hin & Hr).
        apply List.Exists_exists. exists r. split; [exact Hin | lia].
      * intros [= <- <-].
        destruct (parse_selection_valid _ _ Hp) as [Hne Hall].
        split.
        -- apply List.Forall_forall. intros r Hin.
           rewrite List.Forall_forall in Hall. destruct (Hall r Hin) as [H1 H2].
           unfold valid_selection. repeat split; [exact H1 | exact H2 |].
           destruct (Z.gtb_spec (snd r) total_chapters) as [Hgt|Hle]; [|lia].
           exfalso. assert (Hc : existsb (fun r => snd r >? total_chapters) rs = true).
           { apply existsb_exists. exists r. split; [exact Hin|].
             now apply Z.gtb_lt. }
           congruence.
        -- exists [], line. rewrite Hs. repeat split; try constructor; congruence.
Qed.

(** X7.  Whatever is typed, a selection returned by
    [prompt_for_chapter_selection] is either empty (a blank line was
    entered) or consists of ranges with
    [1 <= start <= end <= total_chapters]; lines that do not parse or that
    name a chapter beyond [total_chapters] are asked again, and at least one
    line is consumed. *)
Theorem prompt_selection_in_range (total_chapters : Z) (inputs : list string)
        (ranges : list (Z * Z)) (rest : list string) :
  prompt_for_chapter_selection total_chapters inputs = Some (ranges, rest) ->
  Forall (valid_selection total_chapters) ranges
  /\ (exists rejected line, inputs = rejected ++ line :: rest
        /\ (ranges = [] <-> stripped line = [])
        /\ (ranges <> [] ->
            parse_selection (string_of_list_ascii (stripped line)) = inr ranges)
        /\ Forall (fun l =>
             stripped l <> []
             /\ forall rs, parse_selection (string_of_list_ascii (stripped l)) = inr rs ->
                  Exists (fun r => total_chapters < snd r) rs) rejected).
Proof. apply prompt_selection_spec. Qed.

Lemma prompt_selection_in_range_witness :
  Forall (valid_selection 3) [(1, 2); (3, 3)].
Proof.
  apply (prompt_selection_in_range 3 ["x"; "4"; " 2-1, 3 "; "1"]%string
           [(1, 2); (3, 3)] ["1"%string]).
  vm_compute. reflexivity.
Defined.

Lemma last_cons_default {A : Type} (l : list A) (x d : A) :
  List.last (x :: l) d = List.last l x.
Proof.
  revert x d. induction l as [|y l IH]; intros x d; [reflexivity|].
  change (List.last (x :: y :: l) d) with (List.last (y :: l) d).
  now rewrite !IH.
Qed.

Lemma last_lookup_cons {A : Type} (l : list A) (d : A) :
  (d :: l) !! length l = Some (List.last l d).
Proof.
  revert d. induction l as [|x l IH]; intros d; [reflexivity|].
  change ((d :: x :: l) !! length (x :: l)) with ((x :: l) !! length l).
  rewrite (IH x). f_equal. symmetry. apply last_cons_default.
Qed.

Lemma export_span_of_valid (chapters : list ChapterRange) (start_idx end_idx : Z) :
  valid_selection (Z.of_nat (length chapters)) (start_idx, end_idx) ->
  exists first final,
    chapters !! Z.to_nat (start_idx - 1) = Some first
    /\ chapters !! Z.to_nat (end_idx - 1) = Some final
    /\ export_span chapters (start_idx, end_idx)
       = Some (start_page first, end_page final)
    /\ Z.of_nat (length (py_slice chapters (start_idx - 1) end_idx))
       = end_idx - start_idx + 1.
Proof.
  unfold valid_selection. simpl. intros (H1 & H2 & H3).
  set (a := Z.to_nat (start_idx - 1)).
  set (n := Z.to_nat (end_idx - start_idx + 1)).
  assert (Hslice : py_slice chapters (start_idx - 1) end_idx
                   = firstn n (skipn a chapters)).
  { unfold py_slice, slice_bound.
    destruct (Z.ltb_spec (start_idx - 1) 0); [lia|].
    destruct (Z.ltb_spec end_idx 0); [lia|].
    rewrite !Z.min_l by lia. f_equal. unfold n. f_equal. lia. }
  assert (Hlen : length (firstn n (skipn a chapters)) = n).
  { rewrite length_take, length_drop. unfold a, n. lia. }
  destruct (firstn n (skipn a chapters)) as [|first rest] eqn:Hsub.
  { simpl in Hlen. unfold n in Hlen. lia. }
  assert (Hfirst : chapters !! a = Some first).
  { assert (H0 : (firstn n (skipn a chapters)) !! 0%nat = Some first)
      by now rewrite Hsub.
    rewrite lookup_take_lt in H0 by (unfold n; lia).
    rewrite lookup_drop in H0. now rewrite Nat.add_0_r in H0. }
  assert (Hfinal : chapters !! Z.to_nat (end_idx - 1) = Some (List.last rest first)).
  { pose proof (last_lookup_cons rest first) as Hl. rewrite <- Hsub in Hl.
    simpl in Hlen. rewrite lookup_take_lt in Hl by lia.
    rewrite lookup_drop in Hl. rewrite <- Hl. f_equal. unfold a, n in *. lia. }
  exists first, (List.last rest first). repeat split; try assumption.
  - unfold export_span. now rewrite Hslice.
  - rewrite Hslice, Hlen. unfold n. lia.
Qed.

(** X8.  For a selection with [1 <= start <= end <= len(chapters)] the
    export loop never skips and never indexes out of range: the slice has
    [end - start + 1] chapters and the exported pages run from the start page
    of chapter [start] to the end page of chapter [end]. *)
Theorem export_span_valid (chapters : list ChapterRange) (start_idx end_idx : Z) :
  valid_selection (Z.of_nat (length chapters)) (start_idx, end_idx) ->
  exists first final,
    chapters !! Z.to_nat (start_idx - 1) = Some first
    /\ chapters !! Z.to_nat (end_idx - 1) = Some final
    /\ export_span chapters (start_idx, end_idx)
       = Some (start_page first, end_page final)
    /\ Z.of_nat (length (py_slice chapters (start_idx - 1) end_idx))
       = end_idx - start_idx + 1.
Proof. apply export_span_of_valid. Qed.

Lemma export_span_valid_witness :
  exists first final,
    build_chapter_ranges [entry_at 0; entry_at 50; entry_at 120] 200 !! Z.to_nat (2 - 1)
    = Some first
    /\ build_chapter_ranges [entry_at 0; entry_at 50; entry_at 120] 200 !! Z.to_nat (3 - 1)
       = Some final
    /\ export_span (build_chapter_ranges [entry_at 0; entry_at 50; entry_at 120] 200)
                   (2, 3)
       = Some (start_page first, end_page final)
    /\ Z.of_nat (length (py_slice
          (build_chapter_ranges [entry_at 0; entry_at 50; entry_at 120] 200) (2 - 1) 3))
       = 3 - 2 + 1.
Proof.
  apply (export_span_valid
           (build_chapter_ranges [entry_at 0; entry_at 50; entry_at 120] 200) 2 3).
  vm_compute. repeat split; discriminate.
Defined.

Lemma manual_loop_ok (inputs : list string) (pending : option text)
      (chapters result : list ChapterRange) (rest : list string) :
  manual_loop inputs pending chapters = Some (result, rest) ->
  Forall manual_chapter_ok chapters ->
  (forall title, pending = Some title -> title <> [] /\ trimmed title) ->
  Forall manual_chapter_ok result
  /\ (exists new, result = chapters ++ new)
  /\ (exists used, inputs = used ++ rest /\ used <> []).
Proof.
  revert pending chapters.
  induction inputs as [|line inputs IH]; intros pending chapters; [discriminate|].
  cbn [manual_loop]. intros H Hch Hpend.
  assert (Hstep : forall pending' chapters',
            manual_loop inputs pending' chapters' = Some (result, rest) ->
            Forall manual_chapter_ok chapters' ->
            (forall title, pending' = Some title -> title <> [] /\ trimmed title) ->
            (exists extra, chapters' = chapters ++ extra) ->
            Forall manual_chapter_ok result
            /\ (exists new, result = chapters ++ new)
            /\ (exists used, line :: inputs = used ++ rest /\ used <> [])).
  { intros pending' chapters' H' Hch' Hpend' [extra ->].
    destruct (IH _ _ H' Hch' Hpend') as (Hres & [new ->] & used & -> & _).
    split; [exact Hres|]. split.
    - exists (extra ++ new). now rewrite app_assoc.
    - exists (line :: used). split; [reflexivity | discriminate]. }
  assert (Hsame : exists extra, chapters = chapters ++ extra)
    by (exists []; now rewrite app_nil_r).
  pose proof (stripped_trimmed line) as Htrim.
  destruct pending as [title|].
  - destruct (Hpend title eq_refl) as [Hne Htitle].
    destruct (stripped line) as [|c page_input] eqn:Hs.
    { eapply Hstep; eassumption. }
    destruct (token_ints (c :: page_input)) as [[a b]|].
    2: { eapply Hstep; eassumption. }
    destruct ((a <? 1) || (b <? 1)) eqn:Hpos.
    { eapply Hstep; eassumption. }
    apply orb_false_elim in Hpos as [Ha Hb].
    apply Z.ltb_ge in Ha, Hb.
    assert (Hswap : exists s e,
              (if a >? b then (b, a) else (a, b)) = (s, e) /\ 1 <= s /\ s <= e).
    { destruct (Z.gtb_spec a b); eexists _, _; (split; [reflexivity | lia]). }
    destruct Hswap as (s & e & Heq & Hs1 & Hse). rewrite Heq in H.
    eapply Hstep; [exact H | | discriminate | now eexists].
    apply Forall_app. split; [exact Hch|]. constructor; [|constructor].
    unfold manual_chapter_ok. simpl. rewrite text_of_string_of. auto.
  - destruct (stripped line) as [|c title] eqn:Hs.
    + injection H as <- <-. split; [exact Hch|]. split.
      * exists []. now rewrite app_nil_r.
      * exists [line]. split; [reflexivity | discriminate].
    + eapply Hstep; [exact H | exact Hch | | exact Hsame].
      intros title' [= <-]. split; [discriminate | exact Htrim].
Qed.

(** X9.  Whatever is typed, every chapter returned by
    [prompt_manual_chapters] has a non-empty title without white space at
    either end and satisfies [1 <= start_page <= end_page]; page ranges that
    are blank, do not read as integers or are not positive are asked again. *)
Theorem prompt_manual_chapters_ok (inputs : list string)
        (chapters : list ChapterRange) (rest : list string) :
  prompt_manual_chapters inputs = Some (chapters, rest) ->
  Forall manual_chapter_ok chapters
  /\ (exists used, inputs = used ++ rest /\ used <> []).
Proof.
  intros H. apply manual_loop_ok in H as (Hok & _ & Hused).
  - auto.
  - constructor.
  - discriminate.
Qed.

Lemma prompt_manual_chapters_ok_witness :
  Forall manual_chapter_ok
    [mkChapterRange "Intro" 10 12; mkChapterRange "Two" 7 7].
Proof.
  apply (prompt_manual_chapters_ok
           ["Intro"; ""; "abc"; "0"; "12 - 10"; " Two "; "7"; ""; "left"]%string
           [mkChapterRange "Intro" 10 12; mkChapterRange "Two" 7 7]
           ["left"%string]).
  vm_compute. reflexivity.
Defined.

Lemma choose_loop_spec {A : Type} (pdfs : list A) (default : A)
      (inputs : list string) (pdf : A) (rest : list string) :
  choose_loop pdfs default inputs = Some (pdf, rest) ->
  exists skipped line index,
    inputs = skipped ++ line :: rest
    /\ int (stripped line) = Some index
    /\ 1 <= index <= Z.of_nat (length pdfs)
    /\ pdfs !! Z.to_nat (index - 1) = Some pdf
    /\ Forall (fun l => forall i, int (stripped l) = Some i ->
                 ~ (1 <= i <= Z.of_nat (length pdfs))) skipped.
Proof.
  induction inputs as [|line inputs IH]; [discriminate|]. cbn [choose_loop].
  assert (Hskip : (forall i, int (stripped line) = Some i ->
                     ~ (1 <= i <= Z.of_nat (length pdfs))) ->
            choose_loop pdfs default inputs = Some (pdf, rest) ->
            exists skipped line0 index,
              line :: inputs = skipped ++ line0 :: rest
              /\ int (stripped line0) = Some index
              /\ 1 <= index <= Z.of_nat (length pdfs)
              /\ pdfs !! Z.to_nat (index - 1) = Some pdf
              /\ Forall (fun l => forall i, int (stripped l) = Some i ->
                           ~ (1 <= i <= Z.of_nat (length pdfs))) skipped).
  { intros Hbad H. destruct (IH H) as (skipped & line0 & index & -> & Hi & Hr & Hl & Hs).
    exists (line :: skipped), line0, index. repeat split; try assumption; try lia.
    now constructor. }
  destruct (int (stripped line)) as [index|] eqn:Hi.
  - destruct (Z.leb_spec 1 index) as [H1|H1];
      [destruct (Z.leb_spec index (Z.of_nat (length pdfs))) as [H2|H2]|]; simpl.
    + intros [= <- <-]. exists [], line, index. repeat split; try assumption.
      * destruct (pdfs !! Z.to_nat (index - 1)) as [x|] eqn:Hx.
        -- now rewrite (nth_lookup_Some _ _ default _ Hx).
        -- apply lookup_ge_None in Hx. lia.
      * constructor.
    + apply Hskip. intros i [= <-]. lia.
    + apply Hskip. intros i [= <-]. lia.
  - apply Hskip. discriminate.
Qed.

(** X10.  [choose_pdf] returns nothing, without reading input, exactly when
    there is no PDF; otherwise it returns the PDF numbered by the first line
    that reads as an integer between 1 and the number of PDFs, every line
    before it being skipped. *)
Theorem choose_pdf_spec {A : Type} (pdfs : list A) (inputs : list string)
        (choice : option A) (rest : list string) :
  choose_pdf pdfs inputs = Some (choice, rest) ->
  (choice = None <-> pdfs = [])
  /\ (pdfs = [] -> rest = inputs)
  /\ (forall pdf, choice = Some pdf ->
        exists skipped line index,
          inputs = skipped ++ line :: rest
          /\ int (stripped line) = Some index
          /\ 1 <= index <= Z.of_nat (length pdfs)
          /\ pdfs !! Z.to_nat (index - 1) = Some pdf
          /\ Forall (fun l => forall i, int (stripped l) = Some i ->
                       ~ (1 <= i <= Z.of_nat (length pdfs))) skipped).
Proof.
  unfold choose_pdf. destruct pdfs as [|first pdfs].
  - intros [= <- <-]. repeat split; try reflexivity. discriminate.
  - destruct (choose_loop (first :: pdfs) first inputs) as [[pdf rest']|] eqn:Hl;
      [|discriminate].
    intros [= <- <-]. split; [split; discriminate|]. split; [discriminate|].
    intros pdf' [= <-]. now apply choose_loop_spec in Hl.
Qed.

Lemma choose_pdf_spec_witness :
  exists skipped line index,
    ["x"; "0"; "3"; " 2 "; "1"]%string = skipped ++ line :: ["1"%string]
    /\ int (stripped line) = Some index
    /\ 1 <= index <= Z.of_nat (length ["a.pdf"; "b.pdf"]%string)
    /\ ["a.pdf"; "b.pdf"]%string !! Z.to_nat (index - 1) = Some "b.pdf"%string
    /\ Forall (fun l => forall i, int (stripped l) = Some i ->
                 ~ (1 <= i <= Z.of_nat (length ["a.pdf"; "b.pdf"]%string))) skipped.
Proof.
  refine (proj2 (proj2 (choose_pdf_spec ["a.pdf"; "b.pdf"]%string
            ["x"; "0"; "3"; " 2 "; "1"]%string (Some "b.pdf"%string) ["1"%string] _))
            "b.pdf"%string eq_refl).
  vm_compute. reflexivity.
Defined.

(** ** Filenames *)

Lemma lstrip_chars_suffix (p : ascii -> bool) (s : text) :
  exists ws, s = ws ++ lstrip_chars p s /\ Forall (fun c => p c = true) ws.
Proof.
  induction s as [|c s (ws & Hs & Hws)]; simpl; [now exists []|].
  destruct (p c) eqn:Hc; [|now exists []].
  exists (c :: ws). split; [simpl; now f_equal | now constructor].
Qed.

Lemma lstrip_chars_head (p : ascii -> bool) (s : text) (c : ascii) :
  head (lstrip_chars p s) = Some c -> p c = false.
Proof.
  induction s as [|x s IH]; simpl; [discriminate|].
  destruct (p x) eqn:Hx; [exact IH|]. simpl. now intros [= <-].
Qed.

Lemma lstrip_chars_fixed (p : ascii -> bool) (s : text) :
  (forall c, head s = Some c -> p c = false) -> lstrip_chars p s = s.
Proof.
  destruct s as [|x s]; [reflexivity|]. simpl. intros H.
  now rewrite (H x eq_refl).
Qed.

Lemma head_app_nonempty {A : Type} (l1 l2 : list A) :
  l1 <> [] -> head (l1 ++ l2) = head l1.
Proof. now destruct l1. Qed.

Lemma strip_chars_ends (p : ascii -> bool) (s : text) :
  (forall c, head (strip_chars p s) = Some c -> p c = false)
  /\ (forall c, head (rev (strip_chars p s)) = Some c -> p c = false).
Proof.
  unfold strip_chars. rewrite rev_involutive.
  split; [|intros c; apply lstrip_chars_head].
  set (x := lstrip_chars p s).
  destruct (lstrip_chars_suffix p (rev x)) as (ws & Hws & _).
  intros c Hc. destruct (lstrip_chars p (rev x)) as [|y t] eqn:Hr; [discriminate|].
  assert (Hx : x = rev (y :: t) ++ rev ws).
  { rewrite <- rev_app_distr, <- Hws. now rewrite rev_involutive. }
  assert (Hne : rev (y :: t) <> []).
  { intros Hnil. apply (f_equal length) in Hnil. rewrite length_rev in Hnil.
    discriminate. }
  apply (lstrip_chars_head p s). fold x. rewrite Hx.
  now rewrite head_app_nonempty.
Qed.

Lemma strip_chars_infix (p : ascii -> bool) (s : text) :
  exists a b, s = a ++ strip_chars p s ++ b.
Proof.
  unfold strip_chars.
  destruct (lstrip_chars_suffix p s) as (ws1 & H1 & _).
  destruct (lstrip_chars_suffix p (rev (lstrip_chars p s))) as (ws2 & H2 & _).
  exists ws1, (rev ws2). rewrite H1 at 1. f_equal.
  rewrite <- rev_app_distr, <- H2. now rewrite rev_involutive.
Qed.

Lemma strip_chars_fixed (p : ascii -> bool) (s : text) :
  (forall c, head s = Some c -> p c = false) ->
  (forall c, head (rev s) = Some c -> p c = false) ->
  strip_chars p s = s.
Proof.
  intros H1 H2. unfold strip_chars.
  rewrite (lstrip_chars_fixed p s H1), (lstrip_chars_fixed p (rev s) H2).
  apply rev_involutive.
Qed.

Lemma sub_plus_forall (P : ascii -> Prop) (p : ascii -> bool) (repl : text)
      (in_run : bool) (s : text) :
  Forall P repl ->
  (forall c, In c s -> p c = false -> P c) ->
  Forall P (sub_plus p repl in_run s).
Proof.
  intros Hrepl. revert in_run. induction s as [|c s IH]; intros in_run Hs; simpl.
  - constructor.
  - destruct (p c) eqn:Hc.
    + apply Forall_app. split.
      * destruct in_run; [constructor | exact Hrepl].
      * apply IH. intros x Hx. apply Hs. now right.
    + constructor; [apply Hs; [now left | exact Hc]|].
      apply IH. intros x Hx. apply Hs. now right.
Qed.

Lemma sub_plus_fixed (p : ascii -> bool) (repl : text) (s : text) :
  Forall (fun c => p c = false) s -> sub_plus p repl false s = s.
Proof.
  induction 1 as [|c s Hc _ IH]; [reflexivity|]. simpl. now rewrite Hc, IH.
Qed.

Lemma no_double_tail (c : ascii) (s : text) :
  no_double_underscore (c :: s) -> no_double_underscore s.
Proof. intros H a b Heq. apply (H (c :: a) b). simpl. now f_equal. Qed.

Lemma no_double_cons (c : ascii) (s : text) :
  no_double_underscore s ->
  (c = "_"%char -> head s <> Some "_"%char) ->
  no_double_underscore (c :: s).
Proof.
  intros Hs Hc a b Heq. destruct a as [|x a]; simpl in Heq.
  - injection Heq as -> ->. now apply Hc.
  - injection Heq as _ Heq. now apply (Hs a b).
Qed.

Lemma is_underscore_spec (c : ascii) :
  (is_underscore c = true /\ c = "_"%char)
  \/ (is_underscore c = false /\ c <> "_"%char).
Proof. unfold is_underscore. destruct (Ascii.eqb_spec c "_"); auto. Qed.

Lemma collapse_underscores (in_run : bool) (s : text) :
  no_double_underscore (sub_plus is_underscore ["_"%char] in_run s)
  /\ (in_run = true ->
      head (sub_plus is_underscore ["_"%char] in_run s) <> Some "_"%char).
Proof.
  revert in_run. induction s as [|c s IH]; intros in_run; cbn [sub_plus].
  - split; [|discriminate]. intros [|x a] b; discriminate.
  - destruct (is_underscore_spec c) as [[-> ->]|[-> Hc]].
    + destruct (IH true) as [Hnd Hhead]. destruct in_run; cbn [app].
      * auto.
      * split; [|discriminate]. apply no_double_cons; auto.
    + destruct (IH false) as [Hnd _]. split.
      * apply no_double_cons; [exact Hnd | intros ->; contradiction].
      * intros _. cbn [head]. intros [= ->]. contradiction.
Qed.

Lemma collapse_fixed (in_run : bool) (s : text) :
  no_double_underscore s ->
  (in_run = true -> head s <> Some "_"%char) ->
  sub_plus is_underscore ["_"%char] in_run s = s.
Proof.
  revert in_run. induction s as [|c s IH]; intros in_run Hnd Hhead; [reflexivity|].
  cbn [sub_plus]. destruct (is_underscore_spec c) as [[-> ->]|[-> Hc]].
  - destruct in_run; [now contradiction Hhead|]. cbn [app]. f_equal.
    apply IH; [eapply no_double_tail, Hnd|].
    intros _ Hs. destruct s as [|x s]; [discriminate|]. injection Hs as ->.
    now apply (Hnd [] s).
  - f_equal. apply IH; [eapply no_double_tail, Hnd | discriminate].
Qed.

Lemma no_double_infix (a s b : text) :
  no_double_underscore (a ++ s ++ b) -> no_double_underscore s.
Proof.
  intros H x y Heq. apply (H (a ++ x) (y ++ b)). rewrite Heq.
  rewrite <- !app_assoc. simpl. reflexivity.
Qed.

Lemma safe_underscore : filename_safe "_" = true.
Proof. reflexivity. Qed.

Lemma slugify_safe (text fallback : list ascii) (max_length : Z) :
  Forall (fun c => filename_safe c = true) fallback ->
  Forall (fun c => filename_safe c = true)
         (slugify_for_filename text fallback max_length).
Proof.
  intros Hfb. unfold slugify_for_filename.
  set (c1 := sub_plus (fun c => negb (filename_safe c)) ["_"%char] false text).
  set (c2 := sub_plus is_underscore ["_"%char] false c1).
  set (c3 := strip_chars is_underscore_or_dot c2).
  assert (H1 : Forall (fun c => filename_safe c = true) c1).
  { apply sub_plus_forall; [repeat constructor|].
    intros c _ Hc. now apply negb_false_iff in Hc. }
  assert (H2 : Forall (fun c => filename_safe c = true) c2).
  { apply sub_plus_forall; [repeat constructor|].
    intros c Hc _. rewrite List.Forall_forall in H1. now apply H1. }
  assert (H3 : Forall (fun c => filename_safe c = true) c3).
  { destruct (strip_chars_infix is_underscore_or_dot c2) as (a & b & Heq).
    fold c3 in Heq. rewrite Heq in H2.
    apply Forall_app in H2 as [_ H2]. now apply Forall_app in H2 as [H2 _]. }
  assert (Hc : Forall (fun c => filename_safe c = true)
                      match c3 with [] => fallback | _ :: _ => c3 end)
    by (now destruct c3).
  unfold slice_to. destruct (0 <=? max_length); now apply Forall_take.
Qed.

(** X11.  Slugs are filename-safe and bounded: with a filename-safe
    fallback every character of the slug is one of [[A-Za-z0-9._-]]; for
    [max_length >= 0] the slug has at most [max_length] characters; and with
    a non-empty fallback and [max_length > 0] the slug is not empty. *)
Theorem slugify_safe_bounded (text fallback : list ascii) (max_length : Z) :
  let slug := slugify_for_filename text fallback max_length in
  (Forall (fun c => filename_safe c = true) fallback ->
   Forall (fun c => filename_safe c = true) slug)
  /\ (0 <= max_length -> Z.of_nat (length slug) <= max_length)
  /\ (fallback <> [] -> 0 < max_length -> slug <> []).
Proof.
  unfold slugify_for_filename.
  set (c1 := sub_plus (fun c => negb (filename_safe c)) ["_"%char] false text).
  set (c2 := sub_plus is_underscore ["_"%char] false c1).
  set (c3 := strip_chars is_underscore_or_dot c2).
  set (cleaned := match c3 with [] => fallback | _ :: _ => c3 end).
  assert (Hfirstn : forall n, firstn n cleaned <> [] \/ n = 0%nat \/ cleaned = []).
  { intros [|n]; [auto|]. destruct cleaned; [auto | left; discriminate]. }
  split; [|split].
  - apply slugify_safe.
  - intros Hn. unfold slice_to. rewrite (proj2 (Z.leb_le 0 max_length) Hn).
    rewrite length_take. lia.
  - intros Hfb Hn.
    assert (Hne : cleaned <> []) by (unfold cleaned; now destruct c3).
    unfold slice_to. rewrite (proj2 (Z.leb_le 0 max_length)) by lia.
    destruct (Hfirstn (Z.to_nat max_length)) as [H|[H|H]]; [exact H | lia | contradiction].
Qed.

(** X12.  What is cut to [max_length] is always a clean slug: for a clean
    fallback there is a text, not empty, of filename-safe characters only,
    with neither underscore nor dot at either end and no two underscores in
    a row, of which the slug is the prefix of length [max_length] for every
    [max_length]. *)
Theorem slugify_truncates_clean_slug (text fallback : list ascii) :
  clean_slug fallback ->
  exists cleaned, clean_slug cleaned
    /\ forall max_length,
         slugify_for_filename text fallback max_length = slice_to max_length cleaned.
Proof.
  intros Hfb. unfold slugify_for_filename.
  set (c1 := sub_plus (fun c => negb (filename_safe c)) ["_"%char] false text).
  set (c2 := sub_plus is_underscore ["_"%char] false c1).
  set (c3 := strip_chars is_underscore_or_dot c2).
  destruct c3 as [|x c3'] eqn:Hc3.
  - exists fallback. split; [exact Hfb | reflexivity].
  - exists (x :: c3'). split; [|reflexivity]. rewrite <- Hc3.
    assert (H1 : Forall (fun c => filename_safe c = true) c1).
    { apply sub_plus_forall; [repeat constructor|].
      intros c _ Hc. now apply negb_false_iff in Hc. }
    assert (H2 : Forall (fun c => filename_safe c = true) c2).
    { apply sub_plus_forall; [repeat constructor|].
      intros c Hc _. rewrite List.Forall_forall in H1. now apply H1. }
    destruct (strip_chars_infix is_underscore_or_dot c2) as (a & b & Heq).
    fold c3 in Heq.
    destruct (strip_chars_ends is_underscore_or_dot c2) as [Hh Hl].
    fold c3 in Hh, Hl.
    destruct (collapse_underscores false c1) as [Hnd _]. fold c2 in Hnd.
    unfold clean_slug. repeat split.
    + unfold c3 in *. rewrite Hc3. discriminate.
    + rewrite Heq in H2. apply Forall_app in H2 as [_ H2].
      now apply Forall_app in H2 as [H2 _].
    + exact Hh.
    + exact Hl.
    + rewrite Heq in Hnd. eapply no_double_infix, Hnd.
Qed.

Lemma slugify_truncates_clean_slug_witness :
  exists cleaned, clean_slug cleaned
    /\ forall max_length,
         slugify_for_filename (text_of "Chapter 1: The  Start!") (text_of "chapter")
                              max_length
         = slice_to max_length cleaned.
Proof.
  apply (slugify_truncates_clean_slug (text_of "Chapter 1: The  Start!")
                                      (text_of "chapter")).
  unfold clean_slug. repeat split.
  - discriminate.
  - vm_compute. repeat constructor.
  - intros c [= <-]. reflexivity.
  - intros c [= <-]. reflexivity.
  - intros a b H. vm_compute in H.
    repeat (destruct a as [|? a]; [discriminate H|];
            injection H as _ H).
    destruct a; discriminate H.
Defined.

(** X13.  A clean slug is left as it is, up to the cut: for a text that is
    already a clean slug the result is its prefix of length [max_length], and
    the text itself when it is not longer than [max_length]; the fallback is
    not used. *)
Theorem slugify_clean_slug_unchanged (text fallback : list ascii) (max_length : Z) :
  clean_slug text ->
  slugify_for_filename text fallback max_length = slice_to max_length text
  /\ (Z.of_nat (length text) <= max_length ->
      slugify_for_filename text fallback max_length = text).
Proof.
  intros (Hne & Hsafe & Hhead & Hlast & Hnd).
  assert (Heq : slugify_for_filename text fallback max_length
                = slice_to max_length text).
  { unfold slugify_for_filename.
    rewrite (sub_plus_fixed (fun c => negb (filename_safe c)) _ text)
      by (eapply Forall_impl; [exact Hsafe | intros c Hc; simpl; now rewrite Hc]).
    rewrite collapse_fixed by (auto; discriminate).
    rewrite strip_chars_fixed by assumption.
    now destruct text. }
  split; [exact Heq|]. intros Hlen. rewrite Heq. unfold slice_to.
  destruct (Z.leb_spec 0 max_length); [|lia].
  apply firstn_all2. lia.
Qed.

Lemma slugify_clean_slug_unchanged_witness :
  slugify_for_filename (text_of "x.y-z_1") (text_of "chapter") 60
  = slice_to 60 (text_of "x.y-z_1")
  /\ (Z.of_nat (length (text_of "x.y-z_1")) <= 60 ->
      slugify_for_filename (text_of "x.y-z_1") (text_of "chapter") 60
      = text_of "x.y-z_1").
Proof.
  apply (slugify_clean_slug_unchanged (text_of "x.y-z_1") (text_of "chapter") 60).
  unfold clean_slug. repeat split.
  - discriminate.
  - vm_compute. repeat constructor.
  - intros c [= <-]. reflexivity.
  - intros c [= <-]. reflexivity.
  - intros a b H. vm_compute in H.
    repeat (destruct a as [|? a]; [discriminate H|];
            injection H as _ H).
    destruct a; discriminate H.
Defined.

Lemma uint_digits (d : Decimal.uint) :
  Forall (fun c => isdigit c = true)
         (list_ascii_of_string (NilEmpty.string_of_uint d)).
Proof. induction d; simpl; repeat constructor; assumption. Qed.

Lemma digit_safe (c : ascii) : isdigit c = true -> filename_safe c = true.
Proof. by_ascii_cases c. Qed.

(** [str(n)] is a non-empty run of digits, after a minus sign when [n] is
    negative. *)
Lemma str_safe (n : Z) :
  Forall (fun c => filename_safe c = true) (str n) /\ str n <> [].
Proof.
  unfold str.
  assert (Hu : forall d,
    Forall (fun c => filename_safe c = true)
           (list_ascii_of_string (NilZero.string_of_uint d))
    /\ list_ascii_of_string (NilZero.string_of_uint d) <> []).
  { intros d. split.
    - destruct d; try (repeat constructor; fail);
        (eapply Forall_impl; [apply uint_digits | apply digit_safe]).
    - destruct d; discriminate. }
  destruct (Z.to_int n) as [d|d]; simpl.
  - apply Hu.
  - split; [|discriminate]. constructor; [reflexivity | apply Hu].
Qed.

Lemma join_safe (parts : list text) :
  Forall (Forall (fun c => filename_safe c = true)) parts ->
  Forall (fun c => filename_safe c = true) (join (text_of "_") parts).
Proof.
  induction 1 as [|part parts Hp Hps IH]; [constructor|].
  destruct parts as [|part' parts]; [exact Hp|].
  change (join (text_of "_") (part :: part' :: parts))
    with (part ++ text_of "_" ++ join (text_of "_") (part' :: parts)).
  apply Forall_app. split; [exact Hp|].
  apply Forall_app. split; [repeat constructor | exact IH].
Qed.

Lemma build_output_filename_cons (book_slug : text) (first : ChapterRange)
      (rest : list ChapterRange) (start_idx end_idx : Z) :
  build_output_filename book_slug (first :: rest) start_idx end_idx
  = inr (if start_idx =? end_idx
         then (book_slug ++ text_of "_" ++ (text_of "chapter_" ++ str start_idx)
               ++ text_of "_"
               ++ slugify_for_filename (text_of (range_title first))
                    (text_of "chapter") DEFAULT_MAX_FILENAME_LENGTH)
              ++ text_of ".txt"
         else (book_slug ++ text_of "_"
               ++ (text_of "chapters_" ++ str start_idx ++ text_of "-"
                   ++ str end_idx))
              ++ text_of ".txt").
Proof.
  unfold build_output_filename. destruct (start_idx =? end_idx); reflexivity.
Qed.

(** X14.  [build_output_filename] raises exactly when the subset is empty;
    otherwise the name is the book slug, [_chapter], more text and [.txt],
    and it consists of filename-safe characters whenever the book slug
    does, whatever the chapter title. *)
Theorem build_output_filename_shape (book_slug : text) (subset : list ChapterRange)
        (start_idx end_idx : Z) :
  (subset = [] <->
   build_output_filename book_slug subset start_idx end_idx
   = inl (ValueError "subset must not be empty"))
  /\ (forall name,
        build_output_filename book_slug subset start_idx end_idx = inr name ->
        subset <> []
        /\ (exists more,
              name = book_slug ++ text_of "_chapter" ++ more ++ text_of ".txt")
        /\ (Forall (fun c => filename_safe c = true) book_slug ->
            Forall (fun c => filename_safe c = true) name)).
Proof.
  destruct subset as [|first rest].
  - split; [split; reflexivity | discriminate].
  - rewrite build_output_filename_cons.
    split; [split; discriminate|].
    destruct (str_safe start_idx) as [Hs _]. destruct (str_safe end_idx) as [He _].
    pose proof (slugify_safe (text_of (range_title first)) (text_of "chapter")
                  DEFAULT_MAX_FILENAME_LENGTH ltac:(repeat constructor)) as Hslug.
    revert Hs He Hslug.
    generalize (slugify_for_filename (text_of (range_title first))
                  (text_of "chapter") DEFAULT_MAX_FILENAME_LENGTH).
    generalize (str start_idx). generalize (str end_idx).
    intros e s slug Hs He Hslug.
    assert (Hdot : Forall (fun c => filename_safe c = true) (text_of ".txt"))
      by (repeat constructor).
    assert (Hone : Forall (fun c => filename_safe c = true) (text_of "chapter_"))
      by (repeat constructor).
    assert (Hmany : Forall (fun c => filename_safe c = true) (text_of "chapters_"))
      by (repeat constructor).
    assert (Hund : Forall (fun c => filename_safe c = true) (text_of "_"))
      by (repeat constructor).
    assert (Hhyp : Forall (fun c => filename_safe c = true) (text_of "-"))
      by (repeat constructor).
    intros name Hname. split; [discriminate|].
    destruct (start_idx =? end_idx).
    + assert (name = (book_slug ++ text_of "_" ++ (text_of "chapter_" ++ s)
                      ++ text_of "_" ++ slug) ++ text_of ".txt") as ->
        by congruence.
      split.
      * exists (["_"%char] ++ s ++ text_of "_" ++ slug).
        change (text_of "chapter_") with (text_of "chapter" ++ ["_"%char]).
        change (text_of "_chapter") with (text_of "_" ++ text_of "chapter").
        rewrite <- !app_assoc. reflexivity.
      * intros Hb. repeat (apply Forall_app; split); assumption.
    + assert (name = (book_slug ++ text_of "_"
                      ++ (text_of "chapters_" ++ s ++ text_of "-" ++ e))
                     ++ text_of ".txt") as -> by congruence.
      split.
      * exists (text_of "s_" ++ s ++ text_of "-" ++ e).
        change (text_of "chapters_") with (text_of "chapter" ++ text_of "s_").
        change (text_of "_chapter") with (text_of "_" ++ text_of "chapter").
        rewrite <- !app_assoc. reflexivity.
      * intros Hb. repeat (apply Forall_app; split); assumption.
Qed.

Example build_output_filename_examples :
  build_output_filename (text_of "book") [mkChapterRange "Chapter 1: Go!" 1 5] 3 3
  = inr (text_of "book_chapter_3_Chapter_1_Go.txt")
  /\ build_output_filename (text_of "book")
       [mkChapterRange "A" 1 5; mkChapterRange "B" 6 9] 3 4
     = inr (text_of "book_chapters_3-4.txt").
Proof. split; vm_compute; reflexivity. Qed.

(** ** Outline walker: depths and provenance *)

Lemma nested_depths_nil (lists : gmap nat (list item)) (objs : gmap nat Heading)
      (outline : list item) (d : Z) :
  nested_depths lists objs outline d [].
Proof. intros i dep id H. discriminate. Qed.

Lemma nested_depths_app (lists : gmap nat (list item)) (objs : gmap nat Heading)
      (o1 o2 outline : list item) (d : Z) (ys zs : list (Z * nat)) :
  (forall id, names lists o1 id -> names lists outline id) ->
  (forall id, names lists o2 id -> names lists outline id) ->
  nested_depths lists objs o1 d ys -> nested_depths lists objs o2 d zs ->
  nested_depths lists objs outline d (ys ++ zs).
Proof.
  intros H1 H2 Hys Hzs i dep id Hi.
  destruct (lookup_app_Some ys zs i (dep, id)) as [Hsplit _].
  destruct (Hsplit Hi) as [Hl|[Hge Hr]].
  - destruct (Hys i dep id Hl) as [[-> Hin]|(j & dj & idj & Hj & Hlj & Hd & Hc)].
    + left. auto.
    + right. exists j, dj, idj. repeat split; try assumption.
      now rewrite lookup_app_l by (apply lookup_lt_Some in Hlj; lia).
  - destruct (Hzs _ dep id Hr) as [[-> Hin]|(j & dj & idj & Hj & Hlj & Hd & Hc)].
    + left. auto.
    + right. exists (length ys + j)%nat, dj, idj. repeat split; try assumption.
      * lia.
      * rewrite lookup_app_r by lia. rewrite <- Hlj. f_equal. lia.
Qed.

Lemma iter_loop_nested (lists : gmap nat (list item)) (objs : gmap nat Heading)
      (rec : list item -> Z -> gset nat -> option (list (Z * nat) * gset nat)) :
  (forall l d seen r, rec l d seen = Some r -> nested_depths lists objs l d (fst r)) ->
  forall outline d seen r,
    iter_loop lists objs rec outline d seen = Some r ->
    nested_depths lists objs outline d (fst r).
Proof.
  intros Hrec outline d. induction outline as [|it rest IH]; intros seen r.
  - intros [= <-]. apply nested_depths_nil.
  - destruct it as [l|id0]; cbn [iter_loop].
    + destruct (rec (list_items lists l) d seen) as [[ys s1]|] eqn:Hl; [|discriminate].
      destruct (iter_loop lists objs rec rest d s1) as [[zs s2]|] eqn:Hr; [|discriminate].
      intros [= <-]. cbn [fst].
      apply (nested_depths_app lists objs (list_items lists l) rest).
      * intros id Hid. apply names_cons_list. now left.
      * intros id Hid. apply names_cons_list. now right.
      * apply (Hrec _ _ _ _ Hl).
      * apply (IH _ _ Hr).
    + destruct (bool_decide (id0 ∈ seen)).
      * intros Hr. apply IH in Hr. intros i dep id Hi.
        destruct (Hr i dep id Hi) as [[-> Hin]|Hpar]; [|now right].
        left. split; [reflexivity|]. apply names_cons_obj. now right.
      * set (cs := child_items (heading objs id0)).
        set (seen1 := {[id0]} ∪ seen).
        assert (Hbelow : forall r1,
                  match cs with
                  | [] => Some ([], seen1)
                  | c :: cs' => rec (c :: cs') (d + 1) seen1
                  end = Some r1 -> nested_depths lists objs cs (d + 1) (fst r1)).
        { intros r1. destruct cs as [|c cs'] eqn:Hcs.
          - intros [= <-]. apply nested_depths_nil.
          - apply Hrec. }
        destruct (match cs with
                  | [] => Some ([], seen1)
                  | c :: cs' => rec (c :: cs') (d + 1) seen1
                  end) as [[ys s1]|] eqn:Hl; [|discriminate].
        destruct (iter_loop lists objs rec rest d s1) as [[zs s2]|] eqn:Hr; [|discriminate].
        intros [= <-]. specialize (Hbelow _ eq_refl). apply IH in Hr.
        cbn [fst] in *. intros i dep id Hi.
        destruct i as [|i]; [injection Hi as <- <-|].
        { left. split; [reflexivity|]. apply names_cons_obj. now left. }
        change (((d, id0) :: ys ++ zs) !! S i) with ((ys ++ zs) !! i) in Hi.
        destruct (lookup_app_Some ys zs i (dep, id)) as [Hsplit _].
        destruct (Hsplit Hi) as [Hli|[Hge Hri]].
        -- right.
           destruct (Hbelow i dep id Hli) as [[-> Hin]|(j & dj & idj & Hj & Hlj & Hd & Hc)].
           ++ exists 0%nat, d, id0. repeat split; [lia | exact Hin].
           ++ exists (S j), dj, idj. repeat split; try assumption; [lia|].
              change (((d, id0) :: ys ++ zs) !! S j) with ((ys ++ zs) !! j).
              now rewrite lookup_app_l by (apply lookup_lt_Some in Hlj; lia).
        -- destruct (Hr _ dep id Hri) as [[-> Hin]|(j & dj & idj & Hj & Hlj & Hd & Hc)].
           ++ left. split; [reflexivity|]. apply names_cons_obj. now right.
           ++ right. exists (S (length ys + j)), dj, idj.
              repeat split; try assumption; [lia|].
              change (((d, id0) :: ys ++ zs) !! S (length ys + j))
                with ((ys ++ zs) !! (length ys + j)%nat).
              rewrite lookup_app_r by lia. rewrite <- Hlj. f_equal. lia.
Qed.

Lemma nested_depths_ge (lists : gmap nat (list item)) (objs : gmap nat Heading)
      (outline : list item) (d : Z) (yielded : list (Z * nat)) :
  nested_depths lists objs outline d yielded ->
  forall i dep id, yielded !! i = Some (dep, id) -> d <= dep <= d + Z.of_nat i.
Proof.
  intros Hn i. induction i as [i IH] using lt_wf_ind. intros dep id Hi.
  destruct (Hn i dep id Hi) as [[-> _]|(j & dj & idj & Hj & Hlj & -> & _)]; [lia|].
  specialize (IH j Hj dj idj Hlj). lia.
Qed.

Lemma iter_outline_items_nested (fuel : nat) (lists : gmap nat (list item))
      (objs : gmap nat Heading) (outline : list item) (d : Z) (seen : gset nat)
      (yielded : list (Z * nat)) (seen' : gset nat) :
  _iter_outline_items fuel lists objs outline d seen = Some (yielded, seen') ->
  nested_depths lists objs outline d yielded.
Proof.
  revert outline d seen yielded seen'.
  induction fuel as [|fuel IH]; intros outline d seen yielded seen' H; [discriminate|].
  cbn [_iter_outline_items] in H.
  apply (iter_loop_nested lists objs (_iter_outline_items fuel lists objs)) in H;
    [exact H|].
  intros l d' s [ys s'] Hr. eapply IH, Hr.
Qed.

(** X15.  The depths a walk yields follow the nesting of the outline:
    every yielded object is either named by the outline itself (directly or
    inside nested lists) and yielded at the starting depth, or is a child of
    an object yielded earlier, one level deeper than it; so the depth of the
    [i]-th yielded object lies between the starting depth and that depth
    plus [i]. *)
Theorem walk_depths_nested (fuel : nat) (lists : gmap nat (list item))
        (objs : gmap nat Heading) (outline : list item) (d : Z) (seen : gset nat)
        (yielded : list (Z * nat)) (seen' : gset nat) :
  _iter_outline_items fuel lists objs outline d seen = Some (yielded, seen') ->
  nested_depths lists objs outline d yielded
  /\ forall i dep id, yielded !! i = Some (dep, id) -> d <= dep <= d + Z.of_nat i.
Proof.
  intros H. pose proof (iter_outline_items_nested _ _ _ _ _ _ _ _ H) as Hn.
  split; [exact Hn|].
  now apply nested_depths_ge with (lists := lists) (objs := objs) (outline := outline).
Qed.

Lemma walk_depths_nested_witness :
  let lists : gmap nat (list item) :=
    {[ 10%nat := [ItemObj 1]; 11%nat := [ItemObj 2; ItemObj 1]; 12%nat := [ItemObj 4] ]} in
  let objs : gmap nat Heading :=
    {[ 1%nat := mkHeading (Some "Part"%string) (ChildCall (Some [ItemList 11]));
       2%nat := mkHeading (Some "Chapter 1"%string)
                          (ChildItems [ItemObj 1; ItemObj 3]);
       3%nat := mkHeading None (ChildCall None) ]} in
  let outline := [ItemList 10; ItemObj 3; ItemList 12; ItemObj 2] in
  let yielded := [(0, 1%nat); (1, 2%nat); (2, 3%nat); (0, 4%nat)] in
  _iter_outline_items 5 lists objs outline 0 ∅
  = Some (yielded, {[ 1%nat; 2%nat; 3%nat; 4%nat ]})
  /\ nested_depths lists objs outline 0 yielded
  /\ forall i dep id, yielded !! i = Some (dep, id) -> 0 <= dep <= 0 + Z.of_nat i.
Proof.
  intros lists objs outline yielded.
  assert (H : _iter_outline_items 5 lists objs outline 0 ∅
              = Some (yielded, {[ 1%nat; 2%nat; 3%nat; 4%nat ]}))
    by (vm_compute; reflexivity).
  split; [exact H | exact (walk_depths_nested _ _ _ _ _ _ _ _ H)].
Defined.

Lemma sort_by_page_index_perm (unsorted entries : list StoredEntry) :
  sort_by_page_index unsorted = inr entries -> Permutation entries unsorted.
Proof.
  destruct unsorted as [|a [|b unsorted]]; [now intros [= <-] | now intros [= <-] |].
  unfold sort_by_page_index.
  destruct (int_pages (a :: b :: unsorted)) as [typed|] eqn:Htyped; [|discriminate].
  intros [= <-]. rewrite (int_pages_Some _ _ Htyped).
  apply Permutation_map, sorted_by_perm.
Qed.

(** X16.  Every collected entry comes from a reachable heading object with
    a non-empty title for which the page resolver returned without raising:
    it carries that title without the white space around it, what the
    resolver returned as its page index ([None] included), and a depth that
    is not negative. *)
Theorem collected_entries_provenance (fuel : nat) (reader : PdfReader)
        (entries : list StoredEntry) :
  collect_outline_entries fuel reader = Some (inr entries) ->
  forall e, e ∈ entries ->
    exists id raw,
      reachable (list_objects reader) (objects reader) (reader_outline reader) id
      /\ heading_title (heading (objects reader) id) = Some raw
      /\ raw <> EmptyString
      /\ title e = string_of_list_ascii (strip (text_of raw))
      /\ trimmed (text_of (title e))
      /\ get_destination_page_number reader id = Returns (page_index e)
      /\ 0 <= depth e.
Proof.
  rewrite collect_unfold.
  destruct (_iter_outline_items fuel (list_objects reader) (objects reader)
                                (reader_outline reader) 0 ∅)
    as [[yielded seen]|] eqn:Hw; [|discriminate].
  intros [= Hsort] e He.
  rewrite (sort_by_page_index_perm _ _ Hsort) in He.
  apply list_elem_of_omap in He as ([dep id] & Hin & He).
  pose proof (iter_outline_items_ok _ _ _ _ _ _ _ Hw) as Hok.
  pose proof (nested_depths_ge _ _ _ _ _ (iter_outline_items_nested _ _ _ _ _ _ _ _ Hw))
    as Hdep.
  apply list_elem_of_lookup in Hin as [i Hi].
  specialize (Hdep i dep id Hi).
  apply entry_of_emits in He as (raw & page & Ht & Hraw & Hp & ->).
  cbn [fst snd] in *. exists id, raw. cbn [title page_index depth].
  repeat split; try assumption; try lia.
  - apply (reachable_yielded _ _ _ _ id Hok). cbn [fst]. unfold yielded_ids.
    apply in_map_iff. exists (dep, id). split; [reflexivity|].
    apply list_elem_of_In. eapply list_elem_of_lookup_2; exact Hi.
  - rewrite text_of_string_of. apply strip_trimmed.
  - rewrite text_of_string_of. apply strip_trimmed.
Qed.

Lemma collected_entries_provenance_witness :
  let reader :=
    mkReader (Some [ItemObj 1; ItemList 10]) None
      {[ 10%nat := [ItemObj 2] ]}
      {[ 1%nat := mkHeading (Some "Part One"%string) (ChildItems [ItemObj 3]);
         2%nat := mkHeading (Some "Appendix"%string) NoChildren;
         3%nat := mkHeading (Some "  Chapter 2 "%string) NoChildren ]}
      (fun id => if Nat.eqb id 2 then Raises else Returns (Some (Z.of_nat id * 10)))
      100 in
  let e := mkOutlineEntry "Chapter 2" (Some 30) 1 in
  exists id raw,
    reachable (list_objects reader) (objects reader) (reader_outline reader) id
    /\ heading_title (heading (objects reader) id) = Some raw
    /\ raw <> EmptyString
    /\ title e = string_of_list_ascii (strip (text_of raw))
    /\ trimmed (text_of (title e))
    /\ get_destination_page_number reader id = Returns (page_index e)
    /\ 0 <= depth e.
Proof.
  intros reader e.
  apply (collected_entries_provenance 2 reader
           [mkOutlineEntry "Part One" (Some 10) 0; e]).
  - vm_compute. reflexivity.
  - apply list_elem_of_In. right. now left.
Defined.

Lemma omap_entry_fail_at (reader : PdfReader) (id : nat) (yielded : list (Z * nat)) :
  omap (entry_of (fail_at id reader)) yielded
  = omap (entry_of reader)
         (List.filter (fun di => negb (Nat.eqb (snd di) id)) yielded).
Proof.
  induction yielded as [|[d id'] yielded IH]; [reflexivity|].
  cbn [omap list_omap List.filter snd].
  destruct (Nat.eqb_spec id' id) as [->|Hne]; cbn [negb].
  - rewrite <- IH. unfold entry_of at 1. cbn [fail_at objects get_destination_page_number].
    rewrite bool_decide_eq_true_2 by reflexivity.
    destruct (heading_title _); [|reflexivity].
    now destruct (bool_decide _).
  - cbn [omap list_omap]. rewrite <- IH.
    replace (entry_of (fail_at id reader) (d, id')) with (entry_of reader (d, id'));
      [reflexivity|].
    unfold entry_of. cbn [fail_at objects get_destination_page_number].
    now rewrite (bool_decide_eq_false_2 _ Hne).
Qed.

Lemma omap_partition {A B : Type} (f : A -> option B) (p : A -> bool) (l : list A) :
  Permutation (omap f l)
              (omap f (List.filter p l) ++ omap f (List.filter (fun a => negb (p a)) l)).
Proof.
  induction l as [|a l IH]; [reflexivity|].
  cbn [List.filter]. destruct (p a); cbn [negb omap list_omap].
  - destruct (f a); [now constructor | exact IH].
  - destruct (f a) as [b|]; [|exact IH].
    rewrite IH. apply Permutation_middle.
Qed.

Lemma omap_length_le {A B : Type} (f : A -> option B) (l : list A) :
  (length (omap f l) <= length l)%nat.
Proof.
  induction l as [|a l IH]; [reflexivity|].
  cbn [omap list_omap]. destruct (f a); cbn [length]; lia.
Qed.

Lemma yielded_once (id : nat) (yielded : list (Z * nat)) :
  NoDup (yielded_ids yielded) ->
  (length (List.filter (fun di => Nat.eqb (snd di) id) yielded) <= 1)%nat.
Proof.
  unfold yielded_ids.
  induction yielded as [|[d id'] yielded IH]; intros Hnd; [cbn; lia|].
  apply NoDup_cons in Hnd as [Hnin Hnd]. cbn [map snd] in Hnin.
  cbn [List.filter snd]. destruct (Nat.eqb_spec id' id) as [->|Hne]; [|now apply IH].
  replace (List.filter (fun di => Nat.eqb (snd di) id) yielded) with (@nil (Z * nat));
    [cbn; lia|].
  symmetry. clear -Hnin. induction yielded as [|[d' x] yielded IH]; [reflexivity|].
  cbn [List.filter snd]. destruct (Nat.eqb_spec x id) as [->|Hx].
  - contradiction Hnin. cbn. left.
  - apply IH. intros Hin. apply Hnin. cbn. now right.
Qed.

Lemma omap_int_page_stored (typed : list OutlineEntry) :
  omap int_page (map stored typed) = typed.
Proof.
  induction typed as [|t typed IH]; [reflexivity|].
  cbn [map omap list_omap]. now rewrite int_page_stored, IH.
Qed.

(** X23.  Let the page resolver raise on one object, in a reader whose list
    objects are finitely nested and whose resolver returns no [None] for a
    reachable object.  The walk does not call the resolver and is the same;
    both collections return; the entries collected with the failure are
    those collected without it, less the entry of that object if it had one:
    every other yielded object that has a title and a page keeps its entry,
    the failing object has none, and the entries come back ordered by page
    index. *)
Theorem collect_skips_raising_resolver (reader : PdfReader) (id : nat) :
  (forall list_id, finitely_nested (list_objects reader) list_id) ->
  (forall id', reachable (list_objects reader) (objects reader)
                         (reader_outline reader) id' ->
               get_destination_page_number reader id' <> Returns None) ->
  exists (yielded : list (Z * nat)) (seen : gset nat) (fuel0 : nat)
         (entries entries' removed : list OutlineEntry),
    (forall fuel, (fuel0 <= fuel)%nat ->
       _iter_outline_items fuel (list_objects reader) (objects reader)
                           (reader_outline reader) 0 ∅
       = Some (yielded, seen)
       /\ collect_outline_entries fuel reader = Some (inr (map stored entries))
       /\ collect_outline_entries fuel (fail_at id reader)
          = Some (inr (map stored entries')))
    /\ Permutation entries (removed ++ entries')
    /\ (length removed <= 1)%nat
    /\ (forall e, In e removed ->
          exists d, In (d, id) yielded /\ emits reader (d, id) (stored e))
    /\ (forall d id' e, In (d, id') yielded -> id' <> id ->
          emits reader (d, id') e -> In e (map stored entries'))
    /\ (forall d e, ~ emits (fail_at id reader) (d, id) e)
    /\ ordered_by page_index entries'.
Proof.
  intros Hfinite Hint.
  destruct (walk_returns (list_objects reader) (objects reader) Hfinite
                         (reader_outline reader) 0 ∅)
    as [[yielded seen] Hret].
  pose proof (returns_ok _ _ _ _ _ _ Hret) as Hok.
  destruct Hret as [fuel0 Hfuel].
  pose proof (fun id => reachable_yielded _ _ _ _ id Hok) as Hreach.
  cbn [fst] in Hreach.
  set (gone := List.filter (fun di => Nat.eqb (snd di) id) yielded).
  set (kept := List.filter (fun di => negb (Nat.eqb (snd di) id)) yielded).
  assert (Hsub : forall p id', In id' (yielded_ids (List.filter p yielded)) ->
                               get_destination_page_number reader id' <> Returns None).
  { intros p id' Hin. apply Hint, Hreach. unfold yielded_ids in *.
    apply in_map_iff in Hin as (di & <- & Hdi). apply filter_In in Hdi as [Hdi _].
    now apply in_map. }
  destruct (collected_int_pages reader yielded) as (typed & Htyped & Hsort).
  { intros id' Hid'. now apply Hint, Hreach. }
  destruct (collected_int_pages reader kept (Hsub _)) as (typed' & Htyped' & Hsort').
  destruct (collected_int_pages reader gone (Hsub _)) as (removed & Hremoved & _).
  exists yielded, seen, fuel0, (sorted_by page_index typed),
         (sorted_by page_index typed'), removed.
  split; [|split; [|split; [|split; [|split; [|split]]]]].
  - intros fuel Hle. rewrite !collect_unfold.
    change (list_objects (fail_at id reader)) with (list_objects reader).
    change (objects (fail_at id reader)) with (objects reader).
    change (reader_outline (fail_at id reader)) with (reader_outline reader).
    rewrite (Hfuel fuel Hle), omap_entry_fail_at. fold kept.
    now rewrite Hsort, Hsort'.
  - rewrite !sorted_by_perm.
    pose proof (omap_partition (entry_of reader) (fun di => Nat.eqb (snd di) id) yielded)
      as Hp.
    cbv beta in Hp. fold gone kept in Hp.
    rewrite Htyped, Htyped', Hremoved, <- map_app in Hp.
    apply (omap_Permutation int_page) in Hp.
    now rewrite !omap_int_page_stored in Hp.
  - apply (f_equal (@length _)) in Hremoved. rewrite length_map in Hremoved.
    rewrite <- Hremoved. etransitivity; [apply omap_length_le|].
    apply yielded_once, Hok.
  - intros e He.
    destruct (emitted_from _ _ _ (omap_entry_of_emitted reader gone) (stored e))
      as ([d id'] & Hdi & Hemits).
    { rewrite Hremoved. now apply in_map. }
    apply filter_In in Hdi as [Hdi Hid]. cbn [snd] in Hid.
    apply Nat.eqb_eq in Hid as ->. now exists d.
  - intros d id' e Hin Hne Hemits.
    eapply Permutation_in; [apply Permutation_map; symmetry; apply sorted_by_perm|].
    rewrite <- Htyped'. apply list_elem_of_In, list_elem_of_omap. exists (d, id').
    split; [|now apply entry_of_emits]. apply list_elem_of_In, filter_In.
    split; [exact Hin|]. cbn [snd]. now destruct (Nat.eqb_spec id' id).
  - intros d e (raw & page & _ & _ & Hpage & _).
    cbn [fail_at get_destination_page_number snd] in Hpage.
    now rewrite bool_decide_eq_true_2 in Hpage by reflexivity.
  - apply sorted_by_ordered.
Qed.

Lemma collect_skips_raising_resolver_witness :
  let reader :=
    mkReader (Some [ItemObj 1; ItemList 10; ItemObj 4]) None
      {[ 10%nat := [ItemObj 2; ItemObj 3] ]}
      {[ 1%nat := mkHeading (Some "Chapter 2"%string) NoChildren;
         2%nat := mkHeading (Some " Part "%string) (ChildItems [ItemObj 5; ItemObj 2]);
         3%nat := mkHeading (Some EmptyString) NoChildren;
         5%nat := mkHeading (Some " Chapter 1 "%string) NoChildren ]}
      (fun id => if Nat.eqb id 4 then Raises else Returns (Some (40 - Z.of_nat id)))
      100 in
  exists (entries entries' removed : list OutlineEntry) (fuel0 : nat),
    (forall fuel, (fuel0 <= fuel)%nat ->
       collect_outline_entries fuel reader = Some (inr (map stored entries))
       /\ collect_outline_entries fuel (fail_at 2 reader)
          = Some (inr (map stored entries')))
    /\ Permutation entries (removed ++ entries')
    /\ (length removed <= 1)%nat
    /\ ordered_by page_index entries'.
Proof.
  intros reader.
  destruct (collect_skips_raising_resolver reader 2)
    as (yielded & seen & fuel0 & entries & entries' & removed
        & Hcollect & Hperm & Hlen & _ & _ & _ & Hordered).
  - apply finitely_nested_flat. intros outer inner. unfold list_items.
    cbn [list_objects reader].
    destruct (decide (outer = 10%nat)) as [->|Hne].
    + vm_compute. intros [[=]|[[=]|[]]].
    + rewrite lookup_singleton_ne by congruence. intros [].
  - intros id' _. cbn [get_destination_page_number reader].
    destruct (Nat.eqb id' 4); discriminate.
  - exists entries, entries', removed, fuel0.
    split; [|auto]. intros fuel Hle. now destruct (Hcollect fuel Hle) as (_ & H1 & H2).
Defined.

(** ** Classifier *)

Lemma roman_loop_none (st : Z * Z) (chars : text) :
  roman_loop st chars = None <-> Exists (fun c => roman_map c = None) chars.
Proof.
  revert st. induction chars as [|c chars IH]; intros st; simpl.
  - split; [discriminate | intros H; inversion H].
  - unfold roman_step. destruct st as [total prev].
    destruct (roman_map c) as [v|] eqn:Hc.
    + destruct (v <? prev); rewrite IH; (split; [now right|]);
        intros H; inversion H; subst; [congruence | assumption | congruence | assumption].
    + split; [now left | reflexivity].
Qed.

(** X17.  [roman_to_int] gives [None] exactly when some character of the
    text, lower-cased, is not one of [i v x l c d m]; the empty text decodes
    to 0. *)
Theorem roman_to_int_none_iff (value : text) :
  (roman_to_int value = None
   <-> Exists (fun c => roman_map (lower_char c) = None) value)
  /\ roman_to_int [] = Some 0.
Proof.
  split; [|reflexivity]. unfold roman_to_int.
  assert (Hex : Exists (fun c => roman_map c = None) (rev (lower value))
                <-> Exists (fun c => roman_map (lower_char c) = None) value).
  { rewrite !List.Exists_exists. unfold lower. split.
    - intros (c & Hin & Hc). apply in_rev, in_map_iff in Hin as (x & <- & Hx). eauto.
    - intros (x & Hx & Hc). exists (lower_char x). split; [|exact Hc].
      apply in_rev. rewrite rev_involutive. now apply in_map. }
  rewrite <- Hex, <- (roman_loop_none (0, 0)).
  destruct (roman_loop (0, 0) (rev (lower value))) as [[total prev]|];
    split; congruence.
Qed.

Lemma steps_lit_inv (x : ascii) (st st' : mstate) :
  steps (Lit x) st st' ->
  exists c, remaining st = c :: remaining st' /\ lower_char c = lower_char x.
Proof.
  intros H. inversion H; subst. simpl. eexists. split; [reflexivity|].
  unfold lit_eq in *. now apply Ascii.eqb_eq.
Qed.

Lemma space_class (c : ascii) : class_has true [CSpace] c = true -> isspace c = true.
Proof. by_ascii_cases c. Qed.

Lemma steps_chap (r : regex) (st st' : mstate) :
  steps (Seq (Lit "c") (Seq (Lit "h") (Seq (Lit "a") (Seq (Lit "p") r)))) st st' ->
  exists c1 c2 c3 c4 rest,
    remaining st = c1 :: c2 :: c3 :: c4 :: rest
    /\ lower [c1; c2; c3; c4] = text_of "chap".
Proof.
  intros H.
  apply steps_seq_inv in H as (s1 & H1 & H). apply steps_lit_inv in H1 as (c1 & R1 & L1).
  apply steps_seq_inv in H as (s2 & H2 & H). apply steps_lit_inv in H2 as (c2 & R2 & L2).
  apply steps_seq_inv in H as (s3 & [c3 [R3 L3]]%steps_lit_inv & H).
  apply steps_seq_inv in H as (s4 & [c4 [R4 L4]]%steps_lit_inv & _).
  exists c1, c2, c3, c4, (remaining s4).
  rewrite R1, R2, R3, R4. split; [reflexivity|].
  simpl. now rewrite L1, L2, L3, L4.
Qed.

Lemma steps_prefix_chap (tail : regex) (s : text) (m : mstate) :
  steps (chapter_prefix tail) (mkState [] s None) m ->
  exists ws c1 c2 c3 c4 rest,
    s = ws ++ c1 :: c2 :: c3 :: c4 :: rest
    /\ Forall (fun c => isspace c = true) ws
    /\ lower [c1; c2; c3; c4] = text_of "chap".
Proof.
  unfold chapter_prefix. intros H.
  apply steps_seq_inv in H as (s1 & Hb & H). inversion Hb; subst.
  apply steps_seq_inv in H as (s2 & Hs & H).
  apply steps_star_run in Hs as (ws & Hws & _ & Hrem & _). simpl in Hrem.
  apply steps_seq_inv in H as (s3 & Ha & _).
  assert (Hchap : exists c1 c2 c3 c4 rest,
            remaining s2 = c1 :: c2 :: c3 :: c4 :: rest
            /\ lower [c1; c2; c3; c4] = text_of "chap").
  { inversion Ha as [| | |? ? ? ? Hl|? ? ? ? Hr| | | | | | |]; subst.
    - eapply steps_chap. exact Hl.
    - apply steps_seq_inv in Hr as (s' & Hr & _).
      change (Lits (text_of "chap"))
        with (Seq (Lit "c") (Seq (Lit "h") (Seq (Lit "a") (Lit "p")))) in Hr.
      apply steps_seq_inv in Hr as (t1 & [c1 [R1 L1]]%steps_lit_inv & Hr).
      apply steps_seq_inv in Hr as (t2 & [c2 [R2 L2]]%steps_lit_inv & Hr).
      apply steps_seq_inv in Hr as (t3 & [c3 [R3 L3]]%steps_lit_inv & Hr).
      apply steps_lit_inv in Hr as (c4 & R4 & L4).
      exists c1, c2, c3, c4, (remaining s'). rewrite R1, R2, R3, R4.
      split; [reflexivity|]. simpl. now rewrite L1, L2, L3, L4. }
  destruct Hchap as (c1 & c2 & c3 & c4 & rest & Hr & Hl).
  exists ws, c1, c2, c3, c4, rest. rewrite Hrem, Hr. repeat split; [|exact Hl].
  eapply Forall_impl; [exact Hws | apply space_class].
Qed.

(** X18.  Only titles that begin, after optional white space, with the
    letters [chap] in any case can classify as chapter titles. *)
Theorem chapter_titles_start_with_chap (title : string) :
  is_chapter_title title = true ->
  exists ws c1 c2 c3 c4 rest,
    text_of title = ws ++ c1 :: c2 :: c3 :: c4 :: rest
    /\ Forall (fun c => isspace c = true) ws
    /\ lower [c1; c2; c3; c4] = text_of "chap".
Proof.
  rewrite is_chapter_title_rules. unfold digit_rule, roman_rule, word_rule.
  intros H.
  destruct (re_match CHAPTER_DIGIT_RE (text_of title)) as [m|] eqn:Hd.
  { eapply steps_prefix_chap, re_match_steps, Hd. }
  destruct (re_match CHAPTER_ROMAN_RE (text_of title)) as [m|] eqn:Hr.
  { eapply steps_prefix_chap, re_match_steps, Hr. }
  destruct (re_match CHAPTER_WORD_RE (text_of title)) as [m|] eqn:Hw.
  { eapply steps_prefix_chap, re_match_steps, Hw. }
  discriminate.
Qed.

Lemma chapter_titles_start_with_chap_witness :
  exists ws c1 c2 c3 c4 rest,
    text_of "  CHAP. 7" = ws ++ c1 :: c2 :: c3 :: c4 :: rest
    /\ Forall (fun c => isspace c = true) ws
    /\ lower [c1; c2; c3; c4] = text_of "chap".
Proof.
  apply (chapter_titles_start_with_chap "  CHAP. 7"). vm_compute. reflexivity.
Defined.

(** The matcher finds a match whenever the pattern can lead to a state the
    continuation accepts. *)
Lemma match_re_complete (r : regex) (st st' : mstate) :
  steps r st st' ->
  forall (R : Type) (k : mstate -> option R),
    k st' <> None -> match_re true r k st <> None.
Proof.
  induction 1 as [x c before after g Hx|cl c before after g Hc
                 |r1 r2 st1 st2 st3 _ IH1 _ IH2
                 |r1 r2 st st' _ IH|r1 r2 st st' _ IH
                 |r st st' _ IH|r st
                 |cl before after g
                 |cl c before after g st' Hc _ IH
                 |r st st' _ IH
                 |st Hst|st Hst];
    intros R k Hk; cbn [match_re remaining consumed group1].
  - now rewrite Hx.
  - now rewrite Hc.
  - apply IH1. now apply IH2.
  - specialize (IH R k Hk). now destruct (match_re true r1 k st).
  - destruct (match_re true r1 k st); [discriminate | now apply IH].
  - specialize (IH R k Hk). now destruct (match_re true r k st).
  - now destruct (match_re true r k st).
  - destruct after as [|c after]; cbn [match_star]; [exact Hk|].
    destruct (class_has true cl c); [|exact Hk].
    now destruct (match_star true cl k (c :: before) after g).
  - cbn [match_star]. rewrite Hc. specialize (IH R k Hk).
    cbn [match_re consumed remaining group1] in IH.
    now destruct (match_star true cl k (c :: before) after g).
  - apply IH. exact Hk.
  - now rewrite Hst.
  - now rewrite Hst.
Qed.

Lemma steps_star_over (cl : list class_item) (w before after : text)
      (g : option text) :
  Forall (fun c => class_has true cl c = true) w ->
  steps (Star cl) (mkState before (w ++ after) g)
        (mkState (rev w ++ before) after g).
Proof.
  intros Hw. revert before. induction Hw as [|c w Hc _ IH]; intros before.
  - apply steps_star_stop.
  - simpl. apply steps_star_more; [exact Hc|].
    rewrite <- app_assoc. apply IH.
Qed.

Lemma steps_lits_over (p w before after : text) (g : option text) :
  p <> [] -> lower w = lower p ->
  steps (Lits p) (mkState before (w ++ after) g)
        (mkState (rev w ++ before) after g).
Proof.
  revert w before. induction p as [|x p IH]; intros w before Hne Hl; [contradiction|].
  destruct w as [|c w]; [discriminate|]. injection Hl as Hc Hl.
  assert (Hx : lit_eq true x c = true) by (unfold lit_eq; now apply Ascii.eqb_eq).
  destruct p as [|y p].
  - destruct w; [|discriminate]. simpl. now apply steps_lit.
  - change (Lits (x :: y :: p)) with (Seq (Lit x) (Lits (y :: p))).
    eapply steps_seq; [simpl; now apply steps_lit|].
    simpl. rewrite <- app_assoc. apply IH; [discriminate | exact Hl].
Qed.

Lemma separator_class (c : ascii) :
  is_separator c = true -> class_has true [CSpace; CChar "."; CChar "-"] c = true.
Proof. by_ascii_cases c. Qed.

Lemma space_class_has (c : ascii) : isspace c = true -> class_has true [CSpace] c = true.
Proof. by_ascii_cases c. Qed.

Lemma digit_class (c : ascii) :
  isdigit c = true -> class_has true [CRange "0" "9"] c = true /\ isword c = true.
Proof. by_ascii_cases c. Qed.

Lemma steps_chapter_word (w before after : text) (g : option text) :
  chapter_word w ->
  steps (Alt (Lits (text_of "chapter"))
             (Seq (Lits (text_of "chap")) (Opt (Lit "."))))
        (mkState before (w ++ after) g) (mkState (rev w ++ before) after g).
Proof.
  intros [H|[H|H]].
  - apply steps_alt_l. apply steps_lits_over; [discriminate | exact H].
  - apply steps_alt_r. eapply steps_seq; [|apply steps_opt_none].
    apply steps_lits_over; [discriminate | exact H].
  - apply steps_alt_r.
    assert (Hw : exists w' c, w = w' ++ [c] /\ lower w' = text_of "chap"
                              /\ lower_char c = "."%char).
    { do 5 (destruct w as [|? w]; [discriminate H|]).
      destruct w; [|discriminate H]. injection H as H1 H2 H3 H4 H5.
      eexists [_; _; _; _], _. split; [reflexivity|]. simpl.
      now rewrite H1, H2, H3, H4, H5. }
    destruct Hw as (w' & c & -> & Hw' & Hc).
    rewrite <- app_assoc. eapply steps_seq.
    + apply steps_lits_over with (p := text_of "chap"); [discriminate | exact Hw'].
    + apply steps_opt_some. rewrite rev_app_distr. simpl.
      apply steps_lit. unfold lit_eq. apply Ascii.eqb_eq. now rewrite Hc.
Qed.

(** X19.  The digit form always classifies: optional white space, a chapter
    word ([chapter], [chap] or [chap.], in any case), any separators (white
    space, dots, hyphens), one or more digits, and then the end of the title
    or a character that is not a letter, a digit or an underscore. *)
Theorem numbered_chapter_classifies (ws word seps digits rest : text) :
  Forall (fun c => isspace c = true) ws ->
  chapter_word word ->
  Forall (fun c => is_separator c = true) seps ->
  digits <> [] ->
  Forall (fun c => isdigit c = true) digits ->
  (forall c, head rest = Some c -> isword c = false) ->
  is_chapter_title (string_of_list_ascii (ws ++ word ++ seps ++ digits ++ rest))
  = true.
Proof.
  intros Hws Hword Hseps Hne Hdigits Hrest.
  rewrite is_chapter_title_rules. unfold digit_rule.
  rewrite text_of_string_of.
  destruct digits as [|d digits]; [contradiction|].
  apply Forall_cons in Hdigits as [Hd Hdigits].
  set (consumed3 := rev seps ++ rev word ++ rev ws ++ []).
  set (final := mkState (rev digits ++ d :: consumed3) rest
                        (Some (consumed_since
                                 (mkState consumed3 ((d :: digits) ++ rest) None)
                                 (mkState (rev digits ++ d :: consumed3) rest None)))).
  assert (Hsteps : steps CHAPTER_DIGIT_RE
            (mkState [] (ws ++ word ++ seps ++ (d :: digits) ++ rest) None) final).
  { unfold CHAPTER_DIGIT_RE, chapter_prefix.
    eapply steps_seq; [now apply steps_bol|].
    eapply steps_seq.
    { apply steps_star_over. eapply Forall_impl; [exact Hws | apply space_class_has]. }
    eapply steps_seq; [now apply steps_chapter_word|].
    eapply steps_seq.
    { apply steps_star_over. eapply Forall_impl; [exact Hseps | apply separator_class]. }
    eapply steps_seq; [apply steps_star_stop|].
    eapply steps_seq.
    - apply (steps_group (Plus [CRange "0" "9"])
               (mkState consumed3 ((d :: digits) ++ rest) None)
               (mkState (rev digits ++ d :: consumed3) rest None)).
      unfold Plus. eapply steps_seq.
      + simpl. apply steps_class. now apply digit_class.
      + apply steps_star_over. eapply Forall_impl; [exact Hdigits|].
        intros c Hc. now apply digit_class.
    - assert (Hbefore : match rev digits ++ d :: consumed3 with
                        | c :: _ => isword c
                        | [] => false
                        end = true).
      { destruct (rev digits) as [|c t] eqn:Hr; simpl.
        - now apply digit_class.
        - assert (Hin : In c (rev digits)) by (rewrite Hr; now left).
          apply in_rev in Hin. rewrite List.Forall_forall in Hdigits.
          now apply digit_class, Hdigits. }
      apply steps_boundary. unfold at_boundary, final. cbn [consumed remaining].
      rewrite Hbefore. destruct rest as [|c rest]; [reflexivity|].
      now rewrite (Hrest c eq_refl). }
  pose proof (match_re_complete _ _ _ Hsteps mstate Some ltac:(discriminate)) as Hm.
  unfold re_match.
  destruct (match_re true CHAPTER_DIGIT_RE Some
              (mkState [] (ws ++ word ++ seps ++ (d :: digits) ++ rest) None));
    [reflexivity | contradiction].
Qed.

Lemma numbered_chapter_classifies_witness :
  is_chapter_title
    (string_of_list_ascii
       (text_of "  " ++ text_of "ChAp." ++ text_of " - " ++ text_of "007"
        ++ text_of ": Start"))
  = true.
Proof.
  apply (numbered_chapter_classifies (text_of "  ") (text_of "ChAp.")
           (text_of " - ") (text_of "007") (text_of ": Start")).
  - vm_compute. repeat constructor.
  - right; right. reflexivity.
  - vm_compute. repeat constructor.
  - discriminate.
  - vm_compute. repeat constructor.
  - intros c [= <-]. reflexivity.
Defined.

(** ** Compositions *)

(** X20.  Every range a user can select through
    [prompt_for_chapter_selection] for the chapters at hand is exported by
    the loop of [main] without an index out of range and without being
    skipped: its pages run from the start page of its first chapter to the
    end page of its last. *)
Theorem selected_ranges_export (chapters : list ChapterRange)
        (inputs : list string) (ranges : list (Z * Z)) (rest : list string) :
  prompt_for_chapter_selection (Z.of_nat (length chapters)) inputs
  = Some (ranges, rest) ->
  Forall (exportable chapters) ranges.
Proof.
  intros H. apply prompt_selection_spec in H as [Hv _].
  eapply Forall_impl; [exact Hv|]. intros [s e] Hr.
  destruct (export_span_of_valid chapters s e Hr) as (first & final & H1 & H2 & H3 & _).
  exists first, final. auto.
Qed.

Lemma selected_ranges_export_witness :
  Forall (exportable (build_chapter_ranges [entry_at 0; entry_at 50; entry_at 120] 200))
         [(1, 2); (3, 3)].
Proof.
  apply (selected_ranges_export
           (build_chapter_ranges [entry_at 0; entry_at 50; entry_at 120] 200)
           ["x"; "4"; " 2-1, 3 "; "1"]%string [(1, 2); (3, 3)] ["1"%string]).
  vm_compute. reflexivity.
Defined.

(** X21.  When the collected entries have pairwise distinct page indices
    that lie within the document, every chapter range the pipeline yields is
    well formed: [1 <= start_page <= end_page <= len(reader.pages)]. *)
Theorem extract_ranges_well_formed (fuel : nat) (reader : PdfReader)
        (entries : list StoredEntry) :
  collect_outline_entries fuel reader = Some (inr entries) ->
  NoDup (map page_index entries) ->
  (forall e, e ∈ entries ->
     exists page, page_index e = Some page /\ 0 <= page < pages reader) ->
  exists ranges, extract_chapter_ranges fuel reader = Some (inr ranges)
    /\ forall r, r ∈ ranges -> well_formed (pages reader) r.
Proof.
  intros Hc Hnd Hin. unfold extract_chapter_ranges, build_stored_ranges. rewrite Hc.
  set (chapters := pick_chapter_entries entries).
  assert (Hsub : sublist chapters entries) by apply (pick_cases entries).
  destruct (int_pages_total chapters) as [typed Htyped].
  { intros entry He Hnone. destruct (Hin entry) as (page & Hpage & _); [|congruence].
    eapply elem_of_sublist; [|exact Hsub]. now apply list_elem_of_In. }
  rewrite Htyped. eexists. split; [reflexivity|].
  pose proof (int_pages_Some _ _ Htyped) as Hmap.
  apply build_well_formed.
  - apply (NoDup_fmap_1 Some).
    replace (Some <$> map page_index typed) with (map page_index chapters).
    2:{ rewrite Hmap. clear. induction typed as [|t typed IH]; [reflexivity|].
        cbn. now rewrite IH. }
    eapply sublist_NoDup; [exact Hnd | now apply fmap_sublist].
  - intros e He.
    destruct (Hin (stored e)) as (page & Hpage & Hrange).
    + eapply elem_of_sublist; [|exact Hsub]. rewrite Hmap.
      apply list_elem_of_In, in_map, list_elem_of_In, He.
    + cbn in Hpage. now injection Hpage as ->.
Qed.

Lemma extract_ranges_well_formed_witness :
  let reader :=
    mkReader (Some [ItemObj 1; ItemObj 2]) None ∅
      {[ 1%nat := mkHeading (Some "Chapter 2"%string) NoChildren;
         2%nat := mkHeading (Some "Chapter 1"%string) NoChildren ]}
      (fun id => if Nat.eqb id 1 then Returns (Some 30) else Returns (Some 4))
      100 in
  exists ranges, extract_chapter_ranges 2 reader = Some (inr ranges)
    /\ forall r, r ∈ ranges -> well_formed (pages reader) r.
Proof.
  intros reader.
  apply (extract_ranges_well_formed 2 reader
           [mkOutlineEntry "Chapter 1" (Some 4) 0; mkOutlineEntry "Chapter 2" (Some 30) 0]).
  - vm_compute. reflexivity.
  - compute_done.
  - intros e He. repeat (apply elem_of_cons in He as [->|He]).
    + exists 4. split; [reflexivity | simpl; lia].
    + exists 30. split; [reflexivity | simpl; lia].
    + now apply elem_of_nil in He.
Defined.

Lemma decodes_standard_all :
  forallb decodes_standard (map Z.of_nat (seq 1 3999)) = true.
Proof. vm_compute. reflexivity. Qed.

(** X22.  Standard Roman numerals decode to their value: for every [n] from
    1 to 3999 the numeral of [n], in upper or lower case, decodes to [n],
    and a title made of a chapter word and that numeral classifies as a
    chapter title. *)
Theorem standard_roman_decodes (n : Z) :
  1 <= n <= 3999 ->
  roman_to_int (standard_roman n) = Some n
  /\ roman_to_int (lower (standard_roman n)) = Some n
  /\ is_chapter_title
       (string_of_list_ascii (text_of "Chapter " ++ standard_roman n)) = true
  /\ is_chapter_title
       (string_of_list_ascii (text_of "chap. " ++ lower (standard_roman n))) = true.
Proof.
  intros Hn. pose proof decodes_standard_all as Hall.
  rewrite forallb_forall in Hall.
  assert (Hin : In n (map Z.of_nat (seq 1 3999))).
  { apply in_map_iff. exists (Z.to_nat n). split; [lia|]. apply in_seq. lia. }
  specialize (Hall n Hin). unfold decodes_standard in Hall.
  apply andb_prop in Hall as [Hall H4]. apply andb_prop in Hall as [Hall H3].
  destruct (roman_to_int (standard_roman n)) as [a|]; [|discriminate].
  destruct (roman_to_int (lower (standard_roman n))) as [b|]; [|discriminate].
  apply andb_prop in Hall as [Ha Hb]. apply Z.eqb_eq in Ha, Hb. subst.
  auto.
Qed.

Lemma standard_roman_decodes_witness :
  roman_to_int (standard_roman 1994) = Some 1994
  /\ roman_to_int (lower (standard_roman 1994)) = Some 1994
  /\ is_chapter_title
       (string_of_list_ascii (text_of "Chapter " ++ standard_roman 1994)) = true
  /\ is_chapter_title
       (string_of_list_ascii (text_of "chap. " ++ lower (standard_roman 1994))) = true.
Proof. apply (standard_roman_decodes 1994). lia. Defined.
